(** * EASteam: the market analyzer (src/service/MarketAnalyzer.js)

    A shallow embedding of the four operations of [MarketAnalyzer]
    (parseMarketHistory, matchInventoryWithPurchases, calculateROI and
    calculateTransactionStatistics) together with the properties of the
    reconciliation engine that the specification states about them.

    Conventions of the embedding
    - a JavaScript object enumerated with [Object.entries] is an association
      list in enumeration order (its keys are pairwise distinct, which the
      theorems that need it assume as [NoDup]);
    - a [Map] that is only probed with [get]/[has] is a [gmap], a [Set] a
      [gset]; [new Map(pairs)] inserts from left to right, so the last pair
      with a given key wins;
    - a JavaScript number is kept as its exact value, [NaN] or an infinity.
      Ledger amounts are integral minor currency units, on which the
      arithmetic of doubles is exact, and their sums and differences are
      the exact ones. The percentages of the holdings matcher are quotients
      and are rounded as doubles are, by [round_double]; the ROI percentages
      are rounded to two decimals from the exact quotient, which the
      properties below do not rest on: they state such a percentage only
      where it is 0 or, in scenario A, 50;
    - [print] and [console.log] only write to the console and are left out. *)

From stdpp Require Import gmap strings list pretty.
From Stdlib Require Import ZArith QArith Qabs Qround Qpower Lqa.

Local Open Scope string_scope.
Local Open Scope list_scope.
Local Open Scope nat_scope.

(** ** JavaScript values *)

Module JS.

(** The primitive values that occur as identifiers in a ledger. *)
Inductive value :=
| Undefined
| Null
| Str (s : string)
| Int (n : Z).

#[global] Instance value_eq_dec : EqDecision value.
Proof. solve_decision. Defined.

(** ToBoolean *)
Definition truthy (v : value) : bool :=
  match v with
  | Undefined | Null => false
  | Str s => negb (bool_decide (s = ""))
  | Int n => negb (bool_decide (n = 0%Z))
  end.

(** String(v); a number that is an identifier is an integer below 10^21 in
    magnitude, which is printed with all its digits. *)
Definition String (v : value) : string :=
  match v with
  | Undefined => "undefined"
  | Null => "null"
  | Str s => s
  | Int n => pretty n
  end.

(** a === b on primitives *)
Definition strict_eq (a b : value) : bool := bool_decide (a = b).

(** a ?? b *)
Definition nullish (a b : value) : value :=
  match a with
  | Undefined | Null => b
  | _ => a
  end.

(** a || b *)
Definition or (a b : value) : value := if truthy a then a else b.

(** s || d for an optional string field *)
Definition or_str (s : option string) (d : string) : string :=
  match s with
  | Some x => if bool_decide (x = "") then d else x
  | None => d
  end.

(** Numbers. [Inf true] is -Infinity. *)
Inductive number :=
| Num (q : Q)
| NaN
| Inf (neg : bool).

Definition Qsign (q : Q) : Z := Z.sgn (Qnum q).

Definition Qltb (x y : Q) : bool := negb (Qle_bool y x).

Definition add (a b : number) : number :=
  match a, b with
  | Num x, Num y => Num (Qred (x + y))
  | NaN, _ | _, NaN => NaN
  | Inf s, Inf t => if Bool.eqb s t then Inf s else NaN
  | Inf s, Num _ | Num _, Inf s => Inf s
  end.

Definition neg (a : number) : number :=
  match a with
  | Num x => Num (Qred (- x))
  | NaN => NaN
  | Inf s => Inf (negb s)
  end.

Definition sub (a b : number) : number := add a (neg b).

Definition mul (a b : number) : number :=
  match a, b with
  | Num x, Num y => Num (Qred (x * y))
  | NaN, _ | _, NaN => NaN
  | Inf s, Inf t => Inf (xorb s t)
  | Inf s, Num y | Num y, Inf s =>
      match Qsign y with
      | Z0 => NaN
      | Zpos _ => Inf s
      | Zneg _ => Inf (negb s)
      end
  end.

Definition div (a b : number) : number :=
  match a, b with
  | NaN, _ | _, NaN => NaN
  | Inf _, Inf _ => NaN
  | Inf s, Num y => Inf (xorb s (bool_decide (Qsign y = (-1)%Z)))
  | Num _, Inf _ => Num 0
  | Num x, Num y =>
      match Qsign y with
      | Z0 =>
          match Qsign x with
          | Z0 => NaN
          | Zpos _ => Inf false
          | Zneg _ => Inf true
          end
      | _ => Num (Qred (x / y))
      end
  end.

(** a > b *)
Definition gt (a b : number) : bool :=
  match a, b with
  | Num x, Num y => Qltb y x
  | Inf false, Num _ => true
  | Num _, Inf true => true
  | Inf false, Inf true => true
  | _, _ => false
  end.

(** x || 0 for an optional numeric field of a JSON object *)
Definition or_zero (x : option Q) : number :=
  match x with
  | Some q => if Qeq_bool q 0 then Num 0 else Num q
  | None => Num 0
  end.

(** ToNumber of a possibly missing numeric field: undefined becomes NaN *)
Definition ToNumber (x : option Q) : number :=
  match x with
  | Some q => Num q
  | None => NaN
  end.

Definition of_nat (n : nat) : number := Num (inject_Z (Z.of_nat n)).

(** [x.toFixed(2)] on the exact value [x] of a number below 10^21 in
    magnitude: the integer [n] for which [n / 100 - x] is closest to zero,
    the larger one on a tie; a negative [x] is rounded on its magnitude. *)
Definition hundredths_abs (q : Q) : Z := Qfloor (Qabs q * 100 + (1 # 2))%Q.

Definition hundredths (q : Q) : Z :=
  if Qltb q 0 then (- hundredths_abs q)%Z else hundredths_abs q.

Definition two_digits (n : Z) : string :=
  if bool_decide (n < 10)%Z then "0" +:+ pretty n else pretty n.

Definition fixed2 (neg : bool) (n : Z) : string :=
  (if neg then "-" else "") +:+ pretty (n / 100)%Z +:+ "." +:+ two_digits (n mod 100)%Z.

Definition toFixed2 (a : number) : string :=
  match a with
  | Num q => fixed2 (Qltb q 0) (hundredths_abs q)
  | NaN => "NaN"
  | Inf false => "Infinity"
  | Inf true => "-Infinity"
  end.

(** [Number(x.toFixed(2))] and [parseFloat(x.toFixed(2))]: the decimal that
    [toFixed] printed, read back. *)
Definition round2 (a : number) : number :=
  match a with
  | Num q => Num (Qred (hundredths q # 100))
  | _ => a
  end.

(** Doubles. The numbers of JavaScript are the doubles of IEEE 754, and an
    operation on them gives the exact result rounded to the nearest double,
    to the one with the even significand on a tie. A finite double is kept
    as its exact value; [round_double] is the rounding, and the operations
    below it round what the exact ones give. *)

(** For [0 < q], the exponent [e] with [2 ^ e <= q < 2 ^ (e + 1)]. *)
Definition binade (q : Q) : Z :=
  let e := (Z.log2 (Qnum q) - Z.log2 (Zpos (Qden q)))%Z in
  if Qle_bool (2 ^ e) q then e else (e - 1)%Z.

(** The nearest integer, the even one of the two on a tie. *)
Definition nearest_even (q : Q) : Z :=
  let f := Qfloor q in
  match (q - inject_Z f ?= 1 # 2)%Q with
  | Lt => f
  | Gt => (f + 1)%Z
  | Eq => if Z.even f then f else (f + 1)%Z
  end.

(** The doubles next to [q] are the multiples of [2 ^ e], where [e] is 52
    below the binade of [q], and -1074 for the subnormal ones; from
    [2 ^ 1024] on the result is an infinity. *)
Definition round_double (q : Q) : number :=
  if Qeq_bool q 0 then Num 0
  else
    let e := Z.max (binade (Qabs q) - 52) (-1074) in
    let r := (inject_Z (nearest_even (Qabs q / 2 ^ e)) * 2 ^ e)%Q in
    if Qle_bool (2 ^ 1024) r then Inf (Qltb q 0)
    else Num (Qred (if Qltb q 0 then - r else r)).

Definition rounded (a : number) : number :=
  match a with
  | Num q => round_double q
  | _ => a
  end.

Definition add_double (a b : number) : number := rounded (add a b).
Definition mul_double (a b : number) : number := rounded (mul a b).
Definition div_double (a b : number) : number := rounded (div a b).

Inductive exn :=
| Error (msg : string)
| TypeError (msg : string)
| RangeError (msg : string).

Inductive completion (A : Type) :=
| Return (a : A)
| Throw (e : exn).
Arguments Return {A} a.
Arguments Throw {A} e.

Definition throws {A} (c : completion A) : Prop :=
  match c with Throw _ => True | Return _ => False end.

End JS.

Import JS.

(** [new Map(pairs)]: pairs are inserted from left to right, a later pair
    replaces an earlier one with the same key. *)
Definition new_Map {V} (pairs : list (string * V)) : gmap string V :=
  foldl (λ m kv, <[kv.1 := kv.2]> m) ∅ pairs.

(** [obj[key]] on an object kept in enumeration order *)
Definition get_prop {V} (key : string) (obj : list (string * V)) : option V :=
  snd <$> List.find (λ kv, bool_decide (kv.1 = key)) obj.

(** ** Data model *)

Module Role.
Inductive t := purchase | sale.
#[global] Instance eq_dec : EqDecision t.
Proof. solve_decision. Defined.
End Role.

Module Status.
Inductive t := completed | uncompleted | received.
#[global] Instance eq_dec : EqDecision t.
Proof. solve_decision. Defined.
End Status.

(** [transaction.asset] of a raw ledger entry *)
Module Asset.
Record t := mk {
  appid : value;
  contextid : value;
  id : value;
  new_id : value;
}.
End Asset.

(** One entry of [history.purchases] *)
Module Raw.
Record t := mk {
  steamid_purchaser : value;
  asset : option Asset.t;
  market_name : option string;
  paid_amount : option Q;
  paid_fee : option Q;
  currencyid : value;
  time_sold : option Z;
  received_amount : option Q;
  received_currencyid : value;
}.
End Raw.

(** One entry of [history.assets[appid][contextid]] *)
Module Item.
Record t := mk {
  market_hash_name : option string;
  unowned_id : value;
}.
End Item.

Module History.
Record t := mk {
  purchases : option (list (string * Raw.t));
  assets : option (gmap string (gmap string (list (string * Item.t))));
}.
End History.

(** The object [parsed] built for every ledger entry *)
Module Parsed.
Record t := mk {
  id : string;
  new_id : value;
  appid : value;
  contextid : value;
  assetid : value;
  type : Role.t;
  market_name : string;
  paid_amount : number;
  paid_fee : number;
  paid_total : number;
  currencyid : value;
  time_sold : option Z;
  steamid_purchaser : value;
  raw : Raw.t;
}.
End Parsed.

(** One element of [transactions]. [linked_sale_id] and [linked_purchase_id]
    are [None] when the field is null or missing. *)
Module Tx.
Record t := mk {
  transaction_id : string;
  transaction_status : Status.t;
  role : Role.t;
  purchase_id : string;
  purchase : Parsed.t;
  linked_sale_id : option string;
  linked_purchase_id : option string;
  time_sold : option Z;
}.
End Tx.

Module ParseResult.
Record t := mk {
  transactions : list Tx.t;
  purchases_count : nat;
  completed_purchases_count : nat;
  uncompleted_purchases_count : nat;
  sales_count : nat;
  received_sales_count : nat;
  totalTransactions : nat;
}.
End ParseResult.

Record MarketAnalyzer := {
  accountId : value;
  steamId : value;
}.

(** ** parseMarketHistory *)

(** [x || null] on a timestamp *)
Definition or_null (t : option Z) : option Z :=
  match t with
  | Some 0%Z | None => None
  | Some x => Some x
  end.

(** [transaction.asset?.f] *)
Definition asset_field (f : Asset.t → value) (transaction : Raw.t) : value :=
  match Raw.asset transaction with
  | Some a => f a
  | None => Undefined
  end.

(** Lines 31-42: the catalog entry of an asset, by its id or by the id it had
    before it changed hands. *)
Definition contextAssets (history : History.t) (appid contextid : value)
    : option (list (string * Item.t)) :=
  match History.assets history with
  | Some assets =>
      match assets !! String appid with
      | Some app => app !! String contextid
      | None => None
      end
  | None => None
  end.

Definition itemInfo (history : History.t) (appid contextid assetid : value)
    : option Item.t :=
  if truthy appid && truthy contextid && truthy assetid then
    match contextAssets history appid contextid with
    | Some c =>
        match get_prop (String assetid) c with
        | Some info => Some info
        | None =>
            List.find (λ item, strict_eq (Item.unowned_id item) assetid) (c.*2)
        end
    | None => None
    end
  else None.

Definition isMyPurchase (mySteamId : string) (transaction : Raw.t) : bool :=
  strict_eq (Raw.steamid_purchaser transaction) (Str mySteamId).

(** Lines 44-59 *)
Definition parsed (mySteamId : string) (history : History.t)
    (key : string) (transaction : Raw.t) : Parsed.t :=
  let appid := asset_field Asset.appid transaction in
  let contextid := asset_field Asset.contextid transaction in
  let assetid := asset_field Asset.id transaction in
  let new_id := asset_field Asset.new_id transaction in
  {| Parsed.id := key;
     Parsed.new_id := nullish new_id Null;
     Parsed.appid := appid;
     Parsed.contextid := contextid;
     Parsed.assetid := nullish assetid Null;
     Parsed.type := if isMyPurchase mySteamId transaction
                    then Role.purchase else Role.sale;
     Parsed.market_name :=
       or_str (itemInfo history appid contextid assetid ≫= Item.market_hash_name)
         (or_str (Raw.market_name transaction) "Unknown Item");
     Parsed.paid_amount := or_zero (Raw.paid_amount transaction);
     Parsed.paid_fee := or_zero (Raw.paid_fee transaction);
     Parsed.paid_total :=
       add (or_zero (Raw.paid_amount transaction))
           (or_zero (Raw.paid_fee transaction));
     Parsed.currencyid := Raw.currencyid transaction;
     Parsed.time_sold := or_null (Raw.time_sold transaction);
     Parsed.steamid_purchaser := or (Raw.steamid_purchaser transaction) Null;
     Parsed.raw := transaction |}.

(** The two arrays filled by the first loop (lines 24-70) *)
Record Classified := {
  accountPurchases : list Parsed.t;
  accountSales : list Parsed.t;
}.

Definition classify_step (mySteamId : string) (history : History.t)
    (acc : Classified) (entry : string * Raw.t) : Classified :=
  let p := parsed mySteamId history entry.1 entry.2 in
  if isMyPurchase mySteamId entry.2
  then {| accountPurchases := accountPurchases acc ++ [p];
          accountSales := accountSales acc |}
  else {| accountPurchases := accountPurchases acc;
          accountSales := accountSales acc ++ [p] |}.

Definition classify (mySteamId : string) (history : History.t)
    (entries : list (string * Raw.t)) : Classified :=
  foldl (classify_step mySteamId history)
        {| accountPurchases := []; accountSales := [] |} entries.

(** Lines 72-76; built by the source and never read afterwards. *)
Definition purchasesByNewId (accountPurchases : list Parsed.t) : gmap string Parsed.t :=
  new_Map ((λ p, (String (Parsed.new_id p), p)) <$>
           List.filter (λ p, truthy (Parsed.new_id p)) accountPurchases).

(** Lines 78-82 *)
Definition salesByAssetId (accountSales : list Parsed.t) : gmap string Parsed.t :=
  new_Map ((λ s, (String (Parsed.assetid s), s)) <$>
           List.filter (λ s, truthy (Parsed.assetid s)) accountSales).

Definition completed_purchase (purchase matchedSale : Parsed.t) : Tx.t :=
  {| Tx.transaction_id := "purchase:" +:+ Parsed.id purchase;
     Tx.transaction_status := Status.completed;
     Tx.role := Role.purchase;
     Tx.purchase_id := Parsed.id purchase;
     Tx.purchase := purchase;
     Tx.linked_sale_id := Some (Parsed.id matchedSale);
     Tx.linked_purchase_id := None;
     Tx.time_sold := Parsed.time_sold purchase |}.

Definition completed_sale (purchase matchedSale : Parsed.t) : Tx.t :=
  {| Tx.transaction_id := "sale:" +:+ Parsed.id matchedSale;
     Tx.transaction_status := Status.completed;
     Tx.role := Role.sale;
     Tx.purchase_id := Parsed.id matchedSale;
     Tx.purchase := matchedSale;
     Tx.linked_sale_id := None;
     Tx.linked_purchase_id := Some (Parsed.id purchase);
     Tx.time_sold := Parsed.time_sold matchedSale |}.

Definition uncompleted_purchase (purchase : Parsed.t) : Tx.t :=
  {| Tx.transaction_id := "purchase:" +:+ Parsed.id purchase;
     Tx.transaction_status := Status.uncompleted;
     Tx.role := Role.purchase;
     Tx.purchase_id := Parsed.id purchase;
     Tx.purchase := purchase;
     Tx.linked_sale_id := None;
     Tx.linked_purchase_id := None;
     Tx.time_sold := Parsed.time_sold purchase |}.

Definition received_sale (sale : Parsed.t) : Tx.t :=
  {| Tx.transaction_id := "sale:" +:+ Parsed.id sale;
     Tx.transaction_status := Status.received;
     Tx.role := Role.sale;
     Tx.purchase_id := Parsed.id sale;
     Tx.purchase := sale;
     Tx.linked_sale_id := None;
     Tx.linked_purchase_id := None;
     Tx.time_sold := Parsed.time_sold sale |}.

(** The state of the linking loop: the set [matchedSaleIds] and the array
    [transactions]. *)
Record Linking := {
  matchedSaleIds : gset string;
  transactions : list Tx.t;
}.

(** One iteration of the loop over [accountPurchases] (lines 86-124) *)
Definition link_step (sales : gmap string Parsed.t)
    (st : Linking) (purchase : Parsed.t) : Linking :=
  let new_id := String (Parsed.new_id purchase) in
  match sales !! new_id with
  | Some matchedSale =>
      {| matchedSaleIds := {[ Parsed.id matchedSale ]} ∪ matchedSaleIds st;
         transactions := transactions st ++
           [completed_purchase purchase matchedSale;
            completed_sale purchase matchedSale] |}
  | None =>
      {| matchedSaleIds := matchedSaleIds st;
         transactions := transactions st ++ [uncompleted_purchase purchase] |}
  end.

(** One iteration of the loop over [accountSales] (lines 126-137) *)
Definition receive_step (st : Linking) (sale : Parsed.t) : Linking :=
  if bool_decide (Parsed.id sale ∈ matchedSaleIds st)
  then st
  else {| matchedSaleIds := matchedSaleIds st;
          transactions := transactions st ++ [received_sale sale] |}.

Definition link (c : Classified) : Linking :=
  let linked :=
    foldl (link_step (salesByAssetId (accountSales c)))
          {| matchedSaleIds := ∅; transactions := [] |} (accountPurchases c) in
  foldl receive_step linked (accountSales c).

(** The accumulator of the [reduce] (lines 139-144) *)
Record Stats := {
  completed : nat;
  uncompleted : nat;
  received : nat;
}.

Definition stats_step (acc : Stats) (t : Tx.t) : Stats :=
  let acc1 :=
    if bool_decide (Tx.transaction_status t = Status.completed)
       && bool_decide (Tx.role t = Role.sale)
    then {| completed := S (completed acc); uncompleted := uncompleted acc;
            received := received acc |}
    else acc in
  let acc2 :=
    if bool_decide (Tx.transaction_status t = Status.uncompleted)
    then {| completed := completed acc1; uncompleted := S (uncompleted acc1);
            received := received acc1 |}
    else acc1 in
  if bool_decide (Tx.transaction_status t = Status.received)
  then {| completed := completed acc2; uncompleted := uncompleted acc2;
          received := S (received acc2) |}
  else acc2.

Definition stats (transactions : list Tx.t) : Stats :=
  foldl stats_step {| completed := 0; uncompleted := 0; received := 0 |} transactions.

Definition parse_entries (self : MarketAnalyzer) (history : History.t)
    (entries : list (string * Raw.t)) : ParseResult.t :=
  let c := classify (String (steamId self)) history entries in
  let txs := transactions (link c) in
  let st := stats txs in
  {| ParseResult.transactions := txs;
     ParseResult.purchases_count := length (accountPurchases c);
     ParseResult.completed_purchases_count := completed st;
     ParseResult.uncompleted_purchases_count := uncompleted st;
     ParseResult.sales_count := length (accountSales c);
     ParseResult.received_sales_count := received st;
     ParseResult.totalTransactions :=
       length (accountPurchases c) + length (accountSales c) |}.

(** [history] is [None] when the argument is null or undefined, and
    [History.purchases] is [None] when the object has no such property, in
    which case [Object.entries] throws. *)
Definition parseMarketHistory (self : MarketAnalyzer) (history : option History.t)
    : completion ParseResult.t :=
  match history with
  | None => Throw (Error "Invalid history object")
  | Some h =>
      match History.purchases h with
      | None => Throw (TypeError "Cannot convert undefined or null to object")
      | Some entries => Return (parse_entries self h entries)
      end
  end.

(** ** matchInventoryWithPurchases *)

Module InventoryItem.
Record t := mk {
  assetid : value;
  icon_url : value;
}.
End InventoryItem.

(** [{...t.purchase, transaction_id, transaction_status}] *)
Module Eligible.
Record t := mk {
  base : Parsed.t;
  transaction_id : string;
  transaction_status : Status.t;
}.
End Eligible.

(** An element of [matched] or [unmatched]; [icon_url] is only set on the
    former and [market_name] only on the latter. *)
Module MatchItem.
Record t := mk {
  appid : value;
  assetid : value;
  market_hash_name : string;
  paid_amount : number;
  paid_fee : number;
  paid_total : number;
  currencyid : value;
  time_sold : option Z;
  transaction_id : string;
  transaction_status : Status.t;
  icon_url : option value;
  market_name : option string;
  match_type : string;
}.
End MatchItem.

Module MatchResult.
Record t := mk {
  matched : list MatchItem.t;
  unmatched : list MatchItem.t;
  total_purchases : nat;
  matched_count : nat;
  unmatched_count : nat;
  matched_percentage : string;
  unmatched_percentage : string;
}.
End MatchResult.

Definition inventoryMap (inventory : list InventoryItem.t) : gmap string InventoryItem.t :=
  new_Map ((λ item, (String (InventoryItem.assetid item), item)) <$> inventory).

(** Lines 172-178 *)
Definition eligible_purchases (transactions : list Tx.t) : list Eligible.t :=
  (λ t, {| Eligible.base := Tx.purchase t;
           Eligible.transaction_id := Tx.transaction_id t;
           Eligible.transaction_status := Tx.transaction_status t |}) <$>
  List.filter (λ t, bool_decide (Tx.role t = Role.purchase)
                    && truthy (Parsed.new_id (Tx.purchase t))) transactions.

Definition baseItem (purchase : Eligible.t) (icon : option value)
    (name : option string) (match_type : string) : MatchItem.t :=
  let p := Eligible.base purchase in
  {| MatchItem.appid := Parsed.appid p;
     MatchItem.assetid := Parsed.new_id p;
     MatchItem.market_hash_name := Parsed.market_name p;
     MatchItem.paid_amount := Parsed.paid_amount p;
     MatchItem.paid_fee := Parsed.paid_fee p;
     MatchItem.paid_total := Parsed.paid_total p;
     MatchItem.currencyid := Parsed.currencyid p;
     MatchItem.time_sold := Parsed.time_sold p;
     MatchItem.transaction_id := Eligible.transaction_id purchase;
     MatchItem.transaction_status := Eligible.transaction_status purchase;
     MatchItem.icon_url := icon;
     MatchItem.market_name := name;
     MatchItem.match_type := match_type |}.

(** One iteration of the loop of lines 183-213 on the pair
    [(matched, unmatched)]. *)
Definition match_step (inv : gmap string InventoryItem.t)
    (acc : list MatchItem.t * list MatchItem.t) (purchase : Eligible.t)
    : list MatchItem.t * list MatchItem.t :=
  let purchaseAssetId := String (Parsed.new_id (Eligible.base purchase)) in
  match inv !! purchaseAssetId with
  | Some linkedInventoryItem =>
      (acc.1 ++ [baseItem purchase
                   (Some (InventoryItem.icon_url linkedInventoryItem))
                   None "purchased"],
       acc.2)
  | None =>
      (acc.1,
       acc.2 ++ [baseItem purchase None
                   (Some (Parsed.market_name (Eligible.base purchase)))
                   "other_source"])
  end.

(** [total ? ((count / total) * 100).toFixed(2) + "%" : "0%"]: the counts are
    lengths of arrays, which are doubles; the quotient and the product are
    rounded as doubles are, and [toFixed] prints the exact value of the
    double that results. *)
Definition percentage (count total : nat) : string :=
  match total with
  | O => "0%"
  | _ =>
      toFixed2 (mul_double (div_double (of_nat count) (of_nat total)) (Num 100))
        +:+ "%"
  end.

Definition matchInventoryWithPurchases (transactions : list Tx.t)
    (inventory : list InventoryItem.t) : MatchResult.t :=
  let purchases := eligible_purchases transactions in
  let r := foldl (match_step (inventoryMap inventory)) ([], []) purchases in
  let total := length purchases in
  {| MatchResult.matched := r.1;
     MatchResult.unmatched := r.2;
     MatchResult.total_purchases := total;
     MatchResult.matched_count := length r.1;
     MatchResult.unmatched_count := length r.2;
     MatchResult.matched_percentage := percentage (length r.1) total;
     MatchResult.unmatched_percentage := percentage (length r.2) total |}.

(** ** calculateROI *)

(** An element of an array that is passed as [transactions]: a transaction
    record, or a primitive value, null and undefined among them. *)
Inductive element :=
| record (t : Tx.t)
| primitive (v : value).

(** What a caller may pass as [transactions]: an array of transaction
    records, an array some elements of which are no records, a primitive
    value, or an object that is no array. *)
Inductive argument :=
| Arr (transactions : list Tx.t)
| Elements (elements : list element)
| Prim (v : value)
| Obj.

Definition isArray (a : argument) : bool :=
  match a with Arr _ | Elements _ => true | _ => false end.

Module Roi.
Record t := mk {
  transaction_id : string;
  market_name : string;
  appid : value;
  buy_price : number;
  sell_price : number;
  profit : number;
  roi_percent : number;
  time_purchase : option Z;
  time_sale : option Z;
  purchase_raw : Parsed.t;
  sale_raw : Parsed.t;
}.
End Roi.

(** Lines 241-245 *)
Definition salesMap (transactions : list Tx.t) : gmap string Tx.t :=
  new_Map ((λ t, (Tx.purchase_id t, t)) <$>
           List.filter (λ t, bool_decide (Tx.role t = Role.sale)) transactions).

(** Lines 258-278 *)
Definition roi_record (purchaseTx saleTx : Tx.t) : Roi.t :=
  let buy := Tx.purchase purchaseTx in
  let sell := Tx.purchase saleTx in
  let buyPrice := Parsed.paid_total buy in
  let sellPrice := or_zero (Raw.received_amount (Parsed.raw sell)) in
  let profit := sub sellPrice buyPrice in
  let roi := if gt buyPrice (Num 0)
             then mul (div profit buyPrice) (Num 100) else Num 0 in
  {| Roi.transaction_id := Tx.purchase_id purchaseTx;
     Roi.market_name := Parsed.market_name buy;
     Roi.appid := Parsed.appid buy;
     Roi.buy_price := buyPrice;
     Roi.sell_price := sellPrice;
     Roi.profit := profit;
     Roi.roi_percent := round2 roi;
     Roi.time_purchase := or_null (Parsed.time_sold buy);
     Roi.time_sale := or_null (Parsed.time_sold sell);
     Roi.purchase_raw := buy;
     Roi.sale_raw := sell |}.

(** One iteration of the loop of lines 247-279 on [results]. *)
Definition roi_step (sales : gmap string Tx.t)
    (results : list Roi.t) (purchaseTx : Tx.t) : list Roi.t :=
  if negb (bool_decide (Tx.role purchaseTx = Role.purchase))
     || negb (bool_decide (Tx.transaction_status purchaseTx = Status.completed))
  then results
  else
    match Tx.linked_sale_id purchaseTx with
    | None => results
    | Some saleId =>
        if bool_decide (saleId = "") then results
        else
          match sales !! saleId with
          | None => results
          | Some saleTx => results ++ [roi_record purchaseTx saleTx]
          end
    end.

Definition roi_results (transactions : list Tx.t) : list Roi.t :=
  foldl (roi_step (salesMap transactions)) [] transactions.

(** [t.role] on an element: the property of a record; reading a property of
    null or undefined throws, and of another primitive gives undefined. *)
Definition role_of (e : element) : completion (option Role.t) :=
  match e with
  | record t => Return (Some (Tx.role t))
  | primitive Undefined =>
      Throw (TypeError "Cannot read properties of undefined (reading 'role')")
  | primitive Null =>
      Throw (TypeError "Cannot read properties of null (reading 'role')")
  | primitive _ => Return None
  end.

(** [transactions.filter(t => t.role === "sale")] on such an array (line
    243): the callback is called on every element, in order. *)
Fixpoint filter_sales (elements : list element) : completion (list Tx.t) :=
  match elements with
  | [] => Return []
  | e :: rest =>
      match role_of e with
      | Throw error => Throw error
      | Return role =>
          match filter_sales rest with
          | Throw error => Throw error
          | Return sales =>
              Return (match e with
                      | record t =>
                          if bool_decide (role = Some Role.sale)
                          then t :: sales else sales
                      | primitive _ => sales
                      end)
          end
      end
  end.

(** The loop of lines 247-279 on such an array: an element whose [role] is
    not "purchase" is passed over. *)
Fixpoint roi_elements (sales : gmap string Tx.t) (results : list Roi.t)
    (elements : list element) : completion (list Roi.t) :=
  match elements with
  | [] => Return results
  | e :: rest =>
      match role_of e with
      | Throw error => Throw error
      | Return _ =>
          match e with
          | record t => roi_elements sales (roi_step sales results t) rest
          | primitive _ => roi_elements sales results rest
          end
      end
  end.

Definition calculateROI (transactions : argument) : completion (list Roi.t) :=
  match transactions with
  | Arr ts => Return (roi_results ts)
  | Elements es =>
      match filter_sales es with
      | Throw error => Throw error
      | Return sales =>
          roi_elements (new_Map ((λ t, (Tx.purchase_id t, t)) <$> sales)) [] es
      end
  | _ => Throw (Error "transactions must be an array")
  end.

(** ** calculateTransactionStatistics *)

Module ItemStat.
Record t := mk {
  marketName : string;
  totalInvested : number;
  totalReceived : number;
  purchaseCount : nat;
  saleCount : nat;
  completedCount : nat;
  receivedCount : nat;
  uncomletedCount : nat;
}.
End ItemStat.

(** An element of a per-item transaction trace. [amount] is [None] when it
    is undefined; [date] is the time value (in milliseconds) of the [Date]
    whose ISO string the source stores. *)
Module Trace.
Record t := mk {
  type : Role.t;
  transactionId : string;
  assetId : value;
  newId : value;
  amount : option number;
  status : Status.t;
  timestamp : option Z;
  date : Z;
  currencyId : value;
  purchaserId : option value;
}.
End Trace.

(** The variables of the loop of lines 298-367 *)
Module Agg.
Record t := mk {
  totalInvested : number;
  totalReceived : number;
  itemStats : gmap string ItemStat.t;
  itemTransactions : gmap string (list Trace.t);
}.
End Agg.

Module Overall.
Record t := mk {
  totalInvested : number;
  totalReceived : number;
  totalProfit : number;
  roiPercent : number;
  totalTransactions : nat;
  purchasesCount : nat;
  salesCount : nat;
  completedPurchases : nat;
  uncomletedPurchases : nat;
  receivedSales : nat;
}.
End Overall.

(** [new Date(time_sold * 1000)]: null counts as 0. *)
Definition time_value (time_sold : option Z) : Z :=
  (default 0 time_sold * 1000)%Z.

(** [toISOString] throws a RangeError outside the range of [Date]. *)
Definition valid_date (ms : Z) : bool :=
  bool_decide (-8640000000000000 ≤ ms ≤ 8640000000000000)%Z.

Definition new_item_stat (marketName : string) : ItemStat.t :=
  {| ItemStat.marketName := marketName;
     ItemStat.totalInvested := Num 0;
     ItemStat.totalReceived := Num 0;
     ItemStat.purchaseCount := 0;
     ItemStat.saleCount := 0;
     ItemStat.completedCount := 0;
     ItemStat.receivedCount := 0;
     ItemStat.uncomletedCount := 0 |}.

(** Lines 319-330 on the entry of the item *)
Definition item_purchase (invested : number) (status : Status.t)
    (s : ItemStat.t) : ItemStat.t :=
  {| ItemStat.marketName := ItemStat.marketName s;
     ItemStat.totalInvested := add (ItemStat.totalInvested s) invested;
     ItemStat.totalReceived := ItemStat.totalReceived s;
     ItemStat.purchaseCount := S (ItemStat.purchaseCount s);
     ItemStat.saleCount := ItemStat.saleCount s;
     ItemStat.completedCount :=
       if bool_decide (status = Status.completed)
       then S (ItemStat.completedCount s) else ItemStat.completedCount s;
     ItemStat.receivedCount := ItemStat.receivedCount s;
     ItemStat.uncomletedCount :=
       if bool_decide (status = Status.uncompleted)
       then S (ItemStat.uncomletedCount s) else ItemStat.uncomletedCount s |}.

(** Lines 343-352 on the entry of the item *)
Definition item_sale (received : number) (status : Status.t)
    (s : ItemStat.t) : ItemStat.t :=
  {| ItemStat.marketName := ItemStat.marketName s;
     ItemStat.totalInvested := ItemStat.totalInvested s;
     ItemStat.totalReceived := add (ItemStat.totalReceived s) received;
     ItemStat.purchaseCount := ItemStat.purchaseCount s;
     ItemStat.saleCount := S (ItemStat.saleCount s);
     ItemStat.completedCount := ItemStat.completedCount s;
     ItemStat.receivedCount :=
       if bool_decide (status = Status.received)
       then S (ItemStat.receivedCount s) else ItemStat.receivedCount s;
     ItemStat.uncomletedCount := ItemStat.uncomletedCount s |}.

Definition trace_entry (transaction : Tx.t) (amount : option number)
    (currencyId : value) (purchaserId : option value) : Trace.t :=
  let purchase := Tx.purchase transaction in
  {| Trace.type := Tx.role transaction;
     Trace.transactionId := Tx.transaction_id transaction;
     Trace.assetId := Parsed.assetid purchase;
     Trace.newId := Parsed.new_id purchase;
     Trace.amount := amount;
     Trace.status := Tx.transaction_status transaction;
     Trace.timestamp := Tx.time_sold transaction;
     Trace.date := time_value (Tx.time_sold transaction);
     Trace.currencyId := currencyId;
     Trace.purchaserId := purchaserId |}.

(** One iteration of the loop. The entry of the item is created on first
    sight, updated in place and the trace is extended; building the trace
    entry throws when the timestamp is no valid date. *)
Definition aggregate_step (st : Agg.t) (transaction : Tx.t) : completion Agg.t :=
  let purchase := Tx.purchase transaction in
  let marketName := Parsed.market_name purchase in
  let itemStat := default (new_item_stat marketName) (Agg.itemStats st !! marketName) in
  let txList := default [] (Agg.itemTransactions st !! marketName) in
  if negb (valid_date (time_value (Tx.time_sold transaction)))
  then Throw (RangeError "Invalid time value")
  else
    match Tx.role transaction with
    | Role.purchase =>
        let invested := Parsed.paid_total purchase in
        Return
          {| Agg.totalInvested := add (Agg.totalInvested st) invested;
             Agg.totalReceived := Agg.totalReceived st;
             Agg.itemStats :=
               <[marketName :=
                   item_purchase invested (Tx.transaction_status transaction) itemStat]>
                 (Agg.itemStats st);
             Agg.itemTransactions :=
               <[marketName :=
                   txList ++ [trace_entry transaction (Some invested)
                                (Parsed.currencyid purchase) None]]>
                 (Agg.itemTransactions st) |}
    | Role.sale =>
        let received := ToNumber (Raw.received_amount (Parsed.raw purchase)) in
        Return
          {| Agg.totalInvested := Agg.totalInvested st;
             Agg.totalReceived := add (Agg.totalReceived st) received;
             Agg.itemStats :=
               <[marketName :=
                   item_sale received (Tx.transaction_status transaction) itemStat]>
                 (Agg.itemStats st);
             Agg.itemTransactions :=
               <[marketName :=
                   txList ++ [trace_entry transaction
                                (Num <$> Raw.received_amount (Parsed.raw purchase))
                                (Raw.received_currencyid (Parsed.raw purchase))
                                (Some (Parsed.steamid_purchaser purchase))]]>
                 (Agg.itemTransactions st) |}
    end.

Fixpoint aggregate (st : Agg.t) (transactions : list Tx.t) : completion Agg.t :=
  match transactions with
  | [] => Return st
  | t :: rest =>
      match aggregate_step st t with
      | Return st' => aggregate st' rest
      | Throw e => Throw e
      end
  end.

Definition aggregate_init : Agg.t :=
  {| Agg.totalInvested := Num 0;
     Agg.totalReceived := Num 0;
     Agg.itemStats := ∅;
     Agg.itemTransactions := ∅ |}.

(** Lines 369-387 *)
Definition overall (data : ParseResult.t) (st : Agg.t) : Overall.t :=
  let totalInvested := Agg.totalInvested st in
  let totalReceived := Agg.totalReceived st in
  let totalProfit := sub totalReceived totalInvested in
  let totalROIPercent :=
    if gt totalInvested (Num 0)
    then round2 (mul (div totalProfit totalInvested) (Num 100))
    else Num 0 in
  {| Overall.totalInvested := totalInvested;
     Overall.totalReceived := totalReceived;
     Overall.totalProfit := totalProfit;
     Overall.roiPercent := totalROIPercent;
     Overall.totalTransactions := length (ParseResult.transactions data);
     Overall.purchasesCount := ParseResult.purchases_count data;
     Overall.salesCount := ParseResult.sales_count data;
     Overall.completedPurchases := ParseResult.completed_purchases_count data;
     Overall.uncomletedPurchases := ParseResult.uncompleted_purchases_count data;
     Overall.receivedSales := ParseResult.received_sales_count data |}.

Definition calculateTransactionStatistics (data : ParseResult.t)
    : completion Overall.t :=
  match aggregate aggregate_init (ParseResult.transactions data) with
  | Return st => Return (overall data st)
  | Throw e => Throw e
  end.

(** ** Auxiliary definitions

    Closed forms of what the loops compute, used to state the properties. *)

(** The parsed record of a ledger entry, and whether the entry is a purchase
    of the account. *)
Definition parsed_entry (mySteamId : string) (history : History.t)
    (e : string * Raw.t) : Parsed.t :=
  parsed mySteamId history e.1 e.2.

Definition mine (mySteamId : string) (e : string * Raw.t) : bool :=
  isMyPurchase mySteamId e.2.

(** What one purchase appends to [transactions]. *)
Definition link_out (sales : gmap string Parsed.t) (purchase : Parsed.t)
    : list Tx.t :=
  match sales !! String (Parsed.new_id purchase) with
  | Some matchedSale =>
      [completed_purchase purchase matchedSale;
       completed_sale purchase matchedSale]
  | None => [uncompleted_purchase purchase]
  end.

(** The ids of the sales that the purchases claim, one per claim. *)
Definition claimed (sales : gmap string Parsed.t) (purchases : list Parsed.t)
    : list string :=
  omap (λ p, Parsed.id <$> sales !! String (Parsed.new_id p)) purchases.

(** A sale that no purchase claimed. *)
Definition unmatched (ids : list string) (sale : Parsed.t) : bool :=
  negb (bool_decide (Parsed.id sale ∈ ids)).

Definition is_completed_sale (t : Tx.t) : bool :=
  bool_decide (Tx.transaction_status t = Status.completed)
  && bool_decide (Tx.role t = Role.sale).

Definition is_uncompleted (t : Tx.t) : bool :=
  bool_decide (Tx.transaction_status t = Status.uncompleted).

Definition is_received (t : Tx.t) : bool :=
  bool_decide (Tx.transaction_status t = Status.received).

Definition count {A} (f : A → bool) (l : list A) : nat :=
  length (List.filter f l).

(** ** Example ledgers *)

Definition analyzer : MarketAnalyzer :=
  {| accountId := Str "main"; steamId := Str "76561198000000001" |}.

Definition entry (purchaser : string) (id new_id : value)
    (name : option string) (paid received : option Q) : Raw.t :=
  {| Raw.steamid_purchaser := Str purchaser;
     Raw.asset := Some {| Asset.appid := Int 730; Asset.contextid := Str "2";
                          Asset.id := id; Asset.new_id := new_id |};
     Raw.market_name := name;
     Raw.paid_amount := paid;
     Raw.paid_fee := None;
     Raw.currencyid := Str "2001";
     Raw.time_sold := Some 1700000000%Z;
     Raw.received_amount := received;
     Raw.received_currencyid := Str "2001" |}.

Definition my_purchase (id new_id : string) (paid : Q) : Raw.t :=
  entry "76561198000000001" (Str id) (Str new_id) None (Some paid) None.

Definition my_sale (id : string) (received : option Q) : Raw.t :=
  entry "76561198000000002" (Str id) Undefined None None received.

(** Scenario A of the specification: one purchase paid 10 whose post-disposal
    id is the asset id of one sale that received 15. *)
Definition scenario_A : History.t :=
  {| History.purchases :=
       Some [("p1", my_purchase "X" "X2" 10); ("s1", my_sale "X2" (Some 15%Q))];
     History.assets := None |}.

(** Two purchases with the post-disposal id of the same sale. *)
Definition shared_sale : History.t :=
  {| History.purchases :=
       Some [("p1", my_purchase "X" "X2" 10);
             ("p2", my_purchase "W" "X2" 12);
             ("s1", my_sale "X2" (Some 15%Q))];
     History.assets := None |}.

(** A ledger without catalog whose only entry names its item itself. *)
Definition named_entry : History.t :=
  {| History.purchases :=
       Some [("p1", entry "76561198000000001" (Str "X") (Str "X2")
                      (Some "AK-47 | Redline") (Some 10%Q) None)];
     History.assets := None |}.

(** A sale of the account whose entry has no received amount. *)
Definition sale_without_amount : History.t :=
  {| History.purchases := Some [("s1", my_sale "Z9" None)];
     History.assets := None |}.

(** ** The claims of the specification that the code does not meet *)

(** Conservation of the counts, as the specification states it. *)
Definition conservation (r : ParseResult.t) : Prop :=
  length (ParseResult.transactions r)
    = ParseResult.purchases_count r + ParseResult.sales_count r ∧
  ParseResult.completed_purchases_count r + ParseResult.uncompleted_purchases_count r
    = ParseResult.purchases_count r ∧
  ParseResult.completed_purchases_count r + ParseResult.received_sales_count r
    = ParseResult.sales_count r.

(** The [received] records of the sale with a given id, and whether some
    [completed] record holds that sale as the counterpart of a purchase. *)
Definition received_records (transactions : list Tx.t) (id : string) : list Tx.t :=
  List.filter (λ t, is_received t && bool_decide (Tx.purchase_id t = id))
              transactions.

Definition consumed (transactions : list Tx.t) (id : string) : Prop :=
  ∃ t, t ∈ transactions ∧ Tx.transaction_status t = Status.completed ∧
       Tx.role t = Role.sale ∧ Tx.purchase_id t = id.

Definition is_purchase (t : Tx.t) : bool := bool_decide (Tx.role t = Role.purchase).

(** The records linked to the sale with a given id. *)
Definition linked_to (id : string) (t : Tx.t) : bool :=
  bool_decide (Tx.linked_sale_id t = Some id).

(** The purchases whose normalised post-disposal id is [k]. *)
Definition resolves_to (k : string) (p : Parsed.t) : bool :=
  bool_decide (String (Parsed.new_id p) = k).

(** The tie-break policy, as the specification states it: of two purchases
    that carry the asset id of a sale as their post-disposal id, the later one
    is emitted as uncompleted, and one record is linked to the sale. *)
Definition first_claims_sale (self : MarketAnalyzer) (h : History.t)
    (entries : list (string * Raw.t)) : Prop :=
  let c := classify (String (steamId self)) h entries in
  let txs := ParseResult.transactions (parse_entries self h entries) in
  ∀ (i j : nat) (p q s : Parsed.t),
    i < j →
    accountPurchases c !! i = Some p →
    accountPurchases c !! j = Some q →
    s ∈ accountSales c →
    truthy (Parsed.assetid s) = true →
    String (Parsed.new_id p) = String (Parsed.assetid s) →
    String (Parsed.new_id q) = String (Parsed.assetid s) →
    uncompleted_purchase q ∈ txs ∧
    length (List.filter (linked_to (Parsed.id s)) txs) = 1.

(** What one transaction appends to [results] in calculateROI. *)
Definition roi_out (sales : gmap string Tx.t) (purchaseTx : Tx.t) : list Roi.t :=
  roi_step sales [] purchaseTx.

(** A number that is zero. *)
Definition is_zero (n : number) : Prop :=
  match n with
  | Num q => Qeq q 0
  | _ => False
  end.

(** A purchase that cost nothing, sold for 15. *)
Definition free_item : History.t :=
  {| History.purchases :=
       Some [("p1", my_purchase "X" "X2" 0); ("s1", my_sale "X2" (Some 15%Q))];
     History.assets := None |}.

(** Every timestamp is in the range of [Date]. *)
Definition dates_valid (transactions : list Tx.t) : Prop :=
  Forall (λ t, valid_date (time_value (Tx.time_sold t)) = true) transactions.

(** Display names as the specification states them for a ledger without
    catalog: all of them are the placeholder. *)
Definition names_degrade_to_placeholder (r : ParseResult.t) : Prop :=
  ∀ t, t ∈ ParseResult.transactions r →
       Parsed.market_name (Tx.purchase t) = "Unknown Item".

(** The records among the elements of an array, and the elements that are
    null or undefined. *)
Definition records (elements : list element) : list Tx.t :=
  omap (λ e, match e with record t => Some t | primitive _ => None end) elements.

Definition is_nullish (e : element) : bool :=
  match e with
  | primitive Undefined | primitive Null => true
  | _ => false
  end.

(** The ROI calculator as the specification states it for arrays: it
    returns on every one of them. *)
Definition returns_on_every_array : Prop :=
  ∀ a, isArray a = true → ∃ results, calculateROI a = Return results.

(** The received total of an item is NaN. *)
Definition item_NaN (st : Agg.t) (name : string) : Prop :=
  ∃ item, Agg.itemStats st !! name = Some item ∧ ItemStat.totalReceived item = NaN.

(** Three purchases, of which the account still holds the second. *)
Definition three_purchases : list (string * Raw.t) :=
  [("p1", my_purchase "A" "A2" 10);
   ("p2", my_purchase "B" "B2" 20);
   ("p3", my_purchase "C" "C2" 30)].

Definition holdings : list InventoryItem.t :=
  [{| InventoryItem.assetid := Str "B2"; InventoryItem.icon_url := Str "icon" |}].

(** ** Further auxiliary definitions *)

Definition is_sale (t : Tx.t) : bool := bool_decide (Tx.role t = Role.sale).

(** The prefix of a transaction id. *)
Definition id_prefix (r : Role.t) : string :=
  match r with
  | Role.purchase => "purchase:"
  | Role.sale => "sale:"
  end.






(** The sum that [+=] accumulates over a list of numbers. *)
Definition total (ns : list number) : number := foldl add (Num 0) ns.


Definition is_completed_purchase (t : Tx.t) : bool :=
  bool_decide (Tx.transaction_status t = Status.completed)
  && bool_decide (Tx.role t = Role.purchase).

(** A ledger in which the sale of scenario A is followed by a purchase that
    is still held. *)
Definition two_purchases : list (string * Raw.t) :=
  [("p1", my_purchase "X" "X2" 10);
   ("s1", my_sale "X2" (Some 15%Q));
   ("p2", my_purchase "Y" "Y2" 20)].

(** A ledger whose second entry has a timestamp beyond the range of
    [Date]. *)
Definition far_future : list (string * Raw.t) :=
  [("p1", my_purchase "X" "X2" 10);
   ("p2", {| Raw.steamid_purchaser := Str "76561198000000001";
             Raw.asset := None;
             Raw.market_name := None;
             Raw.paid_amount := Some 5%Q;
             Raw.paid_fee := None;
             Raw.currencyid := Str "2001";
             Raw.time_sold := Some 9000000000000%Z;
             Raw.received_amount := None;
             Raw.received_currencyid := Undefined |})].

(** A ledger seen by an account that bought nothing: two sales. *)
Definition only_sales : list (string * Raw.t) :=
  [("s1", my_sale "Z9" (Some 15%Q)); ("s2", my_sale "Z8" (Some 7%Q))].

(** A purchase whose asset has no post-disposal id, next to a sale. *)
Definition unsold_purchase : list (string * Raw.t) :=
  [("p1", entry "76561198000000001" (Str "X") Undefined None (Some 10%Q) None);
   ("s1", my_sale "Z9" (Some 15%Q))].

(** The string starts with a decimal digit. *)
Definition starts_with_digit (s : string) : Prop :=
  match s with
  | EmptyString => False
  | Strings.String.String a _ => ∃ n, (n < 10)%N ∧ a = pretty_N_char n
  end.

(** * The Steam client and the account manager (src/service/SteamService.js)

    The fields of a [SteamClient] that the source reads and writes, the
    handlers it registers on the steam-user client as transitions on these
    fields, and the [Map] of the [SteamAccountManager].  The network, the
    database and the timers are outside: what they deliver arrives as events
    and as the results of requests. *)

(** ** A [Map] whose entries are enumerated: entries in insertion order *)

Module JSMap.

Definition get {V} (m : list (value * V)) (k : value) : option V :=
  snd <$> List.find (λ e, bool_decide (e.1 = k)) m.

(** [m.set(k, v)]: a present key keeps its place, a new one goes last. *)
Fixpoint set {V} (m : list (value * V)) (k : value) (v : V) : list (value * V) :=
  match m with
  | [] => [(k, v)]
  | e :: m' => if bool_decide (e.1 = k) then (k, v) :: m' else e :: set m' k v
  end.

Definition delete {V} (m : list (value * V)) (k : value) : list (value * V) :=
  List.filter (λ e, negb (bool_decide (e.1 = k))) m.

End JSMap.

(** ** SteamClient *)

Module SteamClient.

(** [loggedOn_registered] tells whether the handler that the constructor
    registers with [once('loggedOn', ...)] is still registered. *)
Record t := mk {
  accountId : value;
  isLoggedIn : bool;
  webSessionReady : bool;
  accountName : value;
  steamId : value;
  refreshToken : value;
  marketAnalyzer : option MarketAnalyzer;
  loggedOn_registered : bool;
}.

(** What happens to a client: the events of the libraries for which
    [addEventHandlers] registers a handler, the calls of [disconnect] and
    [login], the expiry of the login timeout (which removes all [loggedOn]
    listeners) and the restoring of a session from saved cookies. *)
Inductive action :=
| loggedOn (steamID64 : string)
| webSession
| steamGuard
| disconnected
| refreshToken_received (token : string)
| error
| sessionExpired
| newOffer
| accountLimitations
| wallet
| call_disconnect
| call_login (accountName : string)
| login_timeout
| cookies_restored.

End SteamClient.

(** The constructor (lines 434-455 of the source file). *)
Definition new_SteamClient (accountId : value) : SteamClient.t :=
  {| SteamClient.accountId := accountId;
     SteamClient.isLoggedIn := false;
     SteamClient.webSessionReady := false;
     SteamClient.accountName := Null;
     SteamClient.steamId := Null;
     SteamClient.refreshToken := Null;
     SteamClient.marketAnalyzer := None;
     SteamClient.loggedOn_registered := true |}.

(** The handler of [loggedOn] (lines 458-469). *)
Definition on_loggedOn (c : SteamClient.t) (steamID64 : string) : SteamClient.t :=
  {| SteamClient.accountId := SteamClient.accountId c;
     SteamClient.isLoggedIn := true;
     SteamClient.webSessionReady := SteamClient.webSessionReady c;
     SteamClient.accountName := SteamClient.accountName c;
     SteamClient.steamId := Str steamID64;
     SteamClient.refreshToken := SteamClient.refreshToken c;
     SteamClient.marketAnalyzer :=
       match SteamClient.marketAnalyzer c with
       | Some a => Some a
       | None => Some {| accountId := SteamClient.accountId c;
                         steamId := Str steamID64 |}
       end;
     SteamClient.loggedOn_registered := false |}.

Definition set_session (c : SteamClient.t) (loggedIn ready : bool) : SteamClient.t :=
  {| SteamClient.accountId := SteamClient.accountId c;
     SteamClient.isLoggedIn := loggedIn;
     SteamClient.webSessionReady := ready;
     SteamClient.accountName := SteamClient.accountName c;
     SteamClient.steamId := SteamClient.steamId c;
     SteamClient.refreshToken := SteamClient.refreshToken c;
     SteamClient.marketAnalyzer := SteamClient.marketAnalyzer c;
     SteamClient.loggedOn_registered := SteamClient.loggedOn_registered c |}.

(** [disconnect()] (lines 780-787) *)
Definition disconnect (c : SteamClient.t) : SteamClient.t :=
  if SteamClient.isLoggedIn c then set_session c false false else c.

Definition step (c : SteamClient.t) (a : SteamClient.action) : SteamClient.t :=
  match a with
  | SteamClient.loggedOn steamID64 =>
      if SteamClient.loggedOn_registered c then on_loggedOn c steamID64 else c
  | SteamClient.webSession => set_session c (SteamClient.isLoggedIn c) true
  | SteamClient.disconnected => set_session c false false
  | SteamClient.sessionExpired => set_session c (SteamClient.isLoggedIn c) false
  | SteamClient.cookies_restored => set_session c (SteamClient.isLoggedIn c) true
  | SteamClient.call_disconnect => disconnect c
  | SteamClient.refreshToken_received token =>
      {| SteamClient.accountId := SteamClient.accountId c;
         SteamClient.isLoggedIn := SteamClient.isLoggedIn c;
         SteamClient.webSessionReady := SteamClient.webSessionReady c;
         SteamClient.accountName := SteamClient.accountName c;
         SteamClient.steamId := SteamClient.steamId c;
         SteamClient.refreshToken := Str token;
         SteamClient.marketAnalyzer := SteamClient.marketAnalyzer c;
         SteamClient.loggedOn_registered := SteamClient.loggedOn_registered c |}
  | SteamClient.call_login accountName =>
      {| SteamClient.accountId := SteamClient.accountId c;
         SteamClient.isLoggedIn := SteamClient.isLoggedIn c;
         SteamClient.webSessionReady := SteamClient.webSessionReady c;
         SteamClient.accountName := Str accountName;
         SteamClient.steamId := SteamClient.steamId c;
         SteamClient.refreshToken := SteamClient.refreshToken c;
         SteamClient.marketAnalyzer := SteamClient.marketAnalyzer c;
         SteamClient.loggedOn_registered := SteamClient.loggedOn_registered c |}
  | SteamClient.login_timeout =>
      {| SteamClient.accountId := SteamClient.accountId c;
         SteamClient.isLoggedIn := SteamClient.isLoggedIn c;
         SteamClient.webSessionReady := SteamClient.webSessionReady c;
         SteamClient.accountName := SteamClient.accountName c;
         SteamClient.steamId := SteamClient.steamId c;
         SteamClient.refreshToken := SteamClient.refreshToken c;
         SteamClient.marketAnalyzer := SteamClient.marketAnalyzer c;
         SteamClient.loggedOn_registered := false |}
  | SteamClient.steamGuard | SteamClient.error | SteamClient.newOffer
  | SteamClient.accountLimitations | SteamClient.wallet => c
  end.

Definition run (c : SteamClient.t) (actions : list SteamClient.action) : SteamClient.t :=
  foldl step c actions.

(** [isConnected()]; [client_steamID] is the truth value of the field
    [steamID] that the steam-user client keeps. *)
Definition isConnected (c : SteamClient.t) (client_steamID : bool) : bool :=
  SteamClient.isLoggedIn c && client_steamID && SteamClient.webSessionReady c.

(** The four methods that delegate to the analyzer (lines 1059-1085). *)
Definition with_analyzer {A} (c : SteamClient.t)
    (f : MarketAnalyzer → completion A) : completion A :=
  match SteamClient.marketAnalyzer c with
  | None => Throw (Error "Market analyzer not initialized. Please login first.")
  | Some analyzer => f analyzer
  end.

Definition client_parseMarketHistory (c : SteamClient.t)
    (history : option History.t) : completion ParseResult.t :=
  with_analyzer c (λ analyzer, parseMarketHistory analyzer history).

Definition client_matchInventoryWithPurchases (c : SteamClient.t)
    (transactions : list Tx.t) (inventory : list InventoryItem.t)
    : completion MatchResult.t :=
  with_analyzer c (λ _, Return (matchInventoryWithPurchases transactions inventory)).

Definition client_calculateROI (c : SteamClient.t) (transactions : argument)
    : completion (list Roi.t) :=
  with_analyzer c (λ _, calculateROI transactions).

Definition client_calculateTransactionStatistics (c : SteamClient.t)
    (data : ParseResult.t) : completion Overall.t :=
  with_analyzer c (λ _, calculateTransactionStatistics data).

(** ** SteamAccountManager

    The clients are objects: [clients] is the store of all clients created
    so far, a client being known by its index, and [accounts] is the [Map]
    from account ids to clients. *)

Module Manager.
Record t := mk {
  clients : list SteamClient.t;
  accounts : list (value * nat);
}.
End Manager.

Definition new_Manager : Manager.t :=
  {| Manager.clients := []; Manager.accounts := [] |}.

Definition createClient (m : Manager.t) (accountId : value) : Manager.t * nat :=
  let client := length (Manager.clients m) in
  ({| Manager.clients := Manager.clients m ++ [new_SteamClient accountId];
      Manager.accounts := JSMap.set (Manager.accounts m) accountId client |},
   client).

Definition getClient (m : Manager.t) (accountId : value) : option nat :=
  JSMap.get (Manager.accounts m) accountId.

Definition removeClient (m : Manager.t) (accountId : value) : Manager.t :=
  match JSMap.get (Manager.accounts m) accountId with
  | Some client =>
      {| Manager.clients := alter disconnect client (Manager.clients m);
         Manager.accounts := JSMap.delete (Manager.accounts m) accountId |}
  | None => m
  end.

Module ActiveAccount.
Record t := mk {
  accountId : value;
  isConnected : bool;
  steamId : value;
  accountName : value;
}.
End ActiveAccount.

(** [client_steamID] gives, for every client, the truth value of the
    [steamID] of its steam-user client. *)
Definition getActiveAccounts (m : Manager.t) (client_steamID : nat → bool)
    : list ActiveAccount.t :=
  omap (λ e : value * nat,
          (λ c, {| ActiveAccount.accountId := e.1;
                   ActiveAccount.isConnected := isConnected c (client_steamID e.2);
                   ActiveAccount.steamId := SteamClient.steamId c;
                   ActiveAccount.accountName := SteamClient.accountName c |})
          <$> Manager.clients m !! e.2)
       (Manager.accounts m).

(** Something that happens to a client of the store. *)
Definition deliver (m : Manager.t) (client : nat) (a : SteamClient.action) : Manager.t :=
  {| Manager.clients := alter (λ c, step c a) client (Manager.clients m);
     Manager.accounts := Manager.accounts m |}.

(** What a program does with a manager. *)
Inductive manager_op :=
| op_create (accountId : value)
| op_remove (accountId : value)
| op_deliver (client : nat) (a : SteamClient.action).

Definition apply_op (m : Manager.t) (o : manager_op) : Manager.t :=
  match o with
  | op_create accountId => (createClient m accountId).1
  | op_remove accountId => removeClient m accountId
  | op_deliver client a => deliver m client a
  end.

(** The loop of [gracefulShutdown] (index.js, lines 376-382). *)
Definition shutdown (m : Manager.t) (client_steamID : nat → bool) : Manager.t :=
  foldl removeClient m (ActiveAccount.accountId <$> getActiveAccounts m client_steamID).

(** What holds of a client in every state it can reach. *)
Definition client_invariant (accountId : value) (c : SteamClient.t) : Prop :=
  SteamClient.accountId c = accountId ∧
  (SteamClient.isLoggedIn c = true → SteamClient.loggedOn_registered c = false) ∧
  ((SteamClient.marketAnalyzer c = None ∧ SteamClient.steamId c = Null ∧
    SteamClient.isLoggedIn c = false)
   ∨ (∃ steamID64,
        SteamClient.steamId c = Str steamID64 ∧
        SteamClient.marketAnalyzer c
          = Some {| accountId := accountId; steamId := Str steamID64 |} ∧
        SteamClient.loggedOn_registered c = false)).

(** A manager as operations on a new one leave it. *)
Definition manager_after (ops : list manager_op) : Manager.t :=
  foldl apply_op new_Manager ops.

(** What holds of the manager in every state it can reach: its map names
    clients of the store, each under one account id only. *)
Definition manager_invariant (m : Manager.t) : Prop :=
  NoDup (Manager.accounts m).*1 ∧
  NoDup (Manager.accounts m).*2 ∧
  ∀ e, e ∈ Manager.accounts m → e.2 < length (Manager.clients m).

(** * Fetching the market history (lines 957-1057 of the source file)

    A plain object filled by [Object.assign] and read by [Object.entries] is
    an association list of its own properties in enumeration order; its keys
    (record ids, listing ids, asset ids) are no array indices, so the order
    is that of first insertion. The catalog of assets is, as for the parser,
    a map from the ids of applications and contexts, which are taken not to
    be names that every object inherits. *)

(** [target[k] = v] *)
Fixpoint set_prop {V} (target : list (string * V)) (k : string) (v : V)
    : list (string * V) :=
  match target with
  | [] => [(k, v)]
  | e :: rest =>
      if bool_decide (e.1 = k) then (k, v) :: rest else e :: set_prop rest k v
  end.

(** [Object.assign(target, source)]: each own property of [source] is set
    on [target]; setting [__proto__] creates no property. *)
Definition assign_prop {V} (target : list (string * V)) (e : string * V)
    : list (string * V) :=
  if bool_decide (e.1 = "__proto__") then target else set_prop target e.1 e.2.

Definition assign {V} (target source : list (string * V)) : list (string * V) :=
  foldl assign_prop target source.

(** The answer of Steam to a request of [market/myhistory]. A collection
    that the answer lacks is [None]; a missing [total_count] is 0, which the
    source cannot tell from it. *)
Module Response.
Record t := mk {
  success : bool;
  pagesize : value;
  total_count : nat;
  start : value;
  assets : option (gmap string (gmap string (list (string * Item.t))));
  purchases : option (list (string * Raw.t));
  listings : option (list (string * value));
  events : option (list value);
}.
End Response.

(** What [getMarketHistory] returns. *)
Module Page.
Record t := mk {
  success : bool;
  pagesize : value;
  total_count : nat;
  start : value;
  assets : gmap string (gmap string (list (string * Item.t)));
  purchases : list (string * Raw.t);
  listings : list (string * value);
  events : list value;
}.
End Page.

(** The object [full_history]. *)
Module FullHistory.
Record t := mk {
  assets : gmap string (gmap string (list (string * Item.t)));
  purchases : list (string * Raw.t);
  listings : list (string * value);
  events : list value;
}.
End FullHistory.

Definition not_connected {A} : completion A :=
  Throw (Error "Not connected to Steam or web session not ready").

(** [getMarketHistory]: [connected] is the value of [isConnected()] and
    [response] what the request gives: the body of the answer, or the error
    with which the request is rejected; a null body, on which reading
    [success] throws, counts as such an error. *)
Definition getMarketHistory (connected : bool) (response : completion Response.t)
    : completion Page.t :=
  if negb connected then not_connected
  else
    match response with
    | Throw e => Throw e
    | Return response =>
        if negb (Response.success response)
        then Throw (Error "Failed to fetch market history")
        else Return
          {| Page.success := Response.success response;
             Page.pagesize := Response.pagesize response;
             Page.total_count := Response.total_count response;
             Page.start := Response.start response;
             Page.assets := default ∅ (Response.assets response);
             Page.purchases := default [] (Response.purchases response);
             Page.listings := default [] (Response.listings response);
             Page.events := default [] (Response.events response) |}
    end.

(** The two nested loops over [history.assets] (lines 1024-1034). *)
Definition merge_contexts
    (full page : gmap string (list (string * Item.t)))
    : gmap string (list (string * Item.t)) :=
  merge (λ (f p : option (list (string * Item.t))),
           match p with
           | Some source => Some (assign (default [] f) source)
           | None => f
           end) full page.

Definition merge_assets
    (full page : gmap string (gmap string (list (string * Item.t))))
    : gmap string (gmap string (list (string * Item.t))) :=
  merge (λ (f p : option (gmap string (list (string * Item.t)))),
           match p with
           | Some contexts => Some (merge_contexts (default ∅ f) contexts)
           | None => f
           end) full page.

(** One page merged into [full_history] (lines 1024-1040). *)
Definition merge_page (full : FullHistory.t) (history : Page.t) : FullHistory.t :=
  {| FullHistory.assets := merge_assets (FullHistory.assets full) (Page.assets history);
     FullHistory.purchases := assign (FullHistory.purchases full) (Page.purchases history);
     FullHistory.listings := assign (FullHistory.listings full) (Page.listings history);
     FullHistory.events := FullHistory.events full ++ Page.events history |}.

Definition empty_history : FullHistory.t :=
  {| FullHistory.assets := ∅;
     FullHistory.purchases := [];
     FullHistory.listings := [];
     FullHistory.events := [] |}.

(** [start < (totalCount || Infinity) && start < maxItems]: [totalCount] is
    [None] while it is null, [maxItems] is [None] when it is Infinity. *)
Definition more_pages (start : nat) (totalCount maxItems : option nat) : bool :=
  match totalCount with
  | None | Some O => true
  | Some total => bool_decide (start < total)
  end
  && match maxItems with
     | None => true
     | Some limit => bool_decide (start < limit)
     end.

(** The loop of [getFullMarketHistory]. [fetch start] is what
    [getMarketHistory(start, 100)] gives; the loop need not end, so it runs
    on fuel and gives [None] when the fuel is used up. *)
Fixpoint history_loop (fetch : nat → completion Page.t) (maxItems : option nat)
    (fuel : nat) (full : FullHistory.t) (start : nat) (totalCount : option nat)
    : option (completion FullHistory.t) :=
  match fuel with
  | O => None
  | S fuel =>
      if more_pages start totalCount maxItems then
        match fetch start with
        | Throw e => Some (Throw e)
        | Return history =>
            history_loop fetch maxItems fuel (merge_page full history) (start + 100)
              (match totalCount with
               | None => Some (Page.total_count history)
               | Some total => Some total
               end)
        end
      else Some (Return full)
  end.

Definition getFullMarketHistory (connected : bool)
    (fetch : nat → completion Page.t) (maxItems : option nat) (fuel : nat)
    : option (completion FullHistory.t) :=
  if negb connected then Some not_connected
  else history_loop fetch maxItems fuel empty_history 0 None.

(** The full history as the argument of the parser. *)
Definition as_history (full : FullHistory.t) : History.t :=
  {| History.purchases := Some (FullHistory.purchases full);
     History.assets := Some (FullHistory.assets full) |}.

(** The number of pages that the loop requests when every request succeeds
    and the first page reports [total] records; [None] when it never
    stops. *)
Definition page_count (total : nat) (maxItems : option nat) : option nat :=
  match maxItems, total with
  | Some O, _ => Some 0
  | None, O => None
  | None, _ => Some ((total + 99) / 100)
  | Some limit, O => Some ((limit + 99) / 100)
  | Some limit, _ => Some ((Nat.min total limit + 99) / 100)
  end.

(** The first [n] pages merged. *)
Definition merged_pages (fetched : nat → Page.t) (n : nat) : FullHistory.t :=
  foldl merge_page empty_history ((λ i, fetched (100 * i)) <$> seq 0 n).

(** * The inventory (lines 801-955 of the source file) *)

(** The names that every object inherits from [Object.prototype]. *)
Definition Object_prototype : list string :=
  ["constructor"; "__defineGetter__"; "__defineSetter__"; "hasOwnProperty";
   "__lookupGetter__"; "__lookupSetter__"; "isPrototypeOf";
   "propertyIsEnumerable"; "toString"; "valueOf"; "__proto__";
   "toLocaleString"].

(** What [getInventory] resolves with; of an item, the fields that the
    analyzer reads. *)
Module InventoryData.
Record t := mk {
  items : list InventoryItem.t;
  total : nat;
  currencies : list value;
}.
End InventoryData.

(** [getInventory]: [connected] is the value of [isConnected()] and [answer]
    what the trade offer manager passes to the callback, an error or the
    inventory and the currencies, which may be missing. *)
Definition getInventory (connected : bool)
    (answer : completion (list InventoryItem.t * option (list value)))
    : completion InventoryData.t :=
  if negb connected then not_connected
  else
    match answer with
    | Throw error => Throw error
    | Return (inventory, currencies) =>
        let formattedInventory :=
          (λ item, {| InventoryItem.assetid := InventoryItem.assetid item;
                      InventoryItem.icon_url := InventoryItem.icon_url item |})
            <$> inventory in
        Return {| InventoryData.items := formattedInventory;
                  InventoryData.total := length formattedInventory;
                  InventoryData.currencies := default [] currencies |}
    end.

(** An element of [inventoryConfigs]; [contextId] and [tradableOnly] may be
    missing. *)
Module Config.
Record t := mk {
  appId : value;
  contextId : option value;
  tradableOnly : option bool;
}.
End Config.

(** [{...item, appId, contextId}] *)
Module FullItem.
Record t := mk {
  item : InventoryItem.t;
  appId : value;
  contextId : value;
}.
End FullItem.

Module ByApp.
Record t := mk {
  appId : value;
  items : list FullItem.t;
  count : nat;
}.
End ByApp.

Module FullInventory.
Record t := mk {
  items : list FullItem.t;
  byApp : gmap string ByApp.t;
  total : nat;
  currencies : list value;
}.
End FullInventory.

Definition itemsWithMeta (config : Config.t) (inventoryData : InventoryData.t)
    : list FullItem.t :=
  (λ item, {| FullItem.item := item;
              FullItem.appId := Config.appId config;
              FullItem.contextId := default (Int 2) (Config.contextId config) |})
    <$> InventoryData.items inventoryData.

(** One iteration of the loop of lines 902-943: [source] is a configuration
    with what [getInventory] gives for it. An error is caught and the source
    skipped; so is the TypeError of line 926 when the key of the application
    is an inherited name, which happens after the items were pushed. *)
Definition inventory_step (fullInventory : FullInventory.t)
    (source : Config.t * completion InventoryData.t) : FullInventory.t :=
  match source.2 with
  | Throw _ => fullInventory
  | Return inventoryData =>
      let new_items := itemsWithMeta source.1 inventoryData in
      let appId := Config.appId source.1 in
      let items := FullInventory.items fullInventory ++ new_items in
      if bool_decide (String appId ∈ Object_prototype) then
        {| FullInventory.items := items;
           FullInventory.byApp := FullInventory.byApp fullInventory;
           FullInventory.total := FullInventory.total fullInventory;
           FullInventory.currencies := FullInventory.currencies fullInventory |}
      else
        let entry :=
          default {| ByApp.appId := appId; ByApp.items := []; ByApp.count := 0 |}
                  (FullInventory.byApp fullInventory !! String appId) in
        let entry_items := ByApp.items entry ++ new_items in
        {| FullInventory.items := items;
           FullInventory.byApp :=
             <[String appId := {| ByApp.appId := ByApp.appId entry;
                                  ByApp.items := entry_items;
                                  ByApp.count := length entry_items |}]>
               (FullInventory.byApp fullInventory);
           FullInventory.total := FullInventory.total fullInventory;
           FullInventory.currencies :=
             FullInventory.currencies fullInventory
               ++ InventoryData.currencies inventoryData |}
  end.

Definition empty_inventory : FullInventory.t :=
  {| FullInventory.items := [];
     FullInventory.byApp := ∅;
     FullInventory.total := 0;
     FullInventory.currencies := [] |}.

Definition getFullInventory (connected : bool)
    (sources : list (Config.t * completion InventoryData.t))
    : completion FullInventory.t :=
  if negb connected then not_connected
  else
    let fullInventory := foldl inventory_step empty_inventory sources in
    Return {| FullInventory.items := FullInventory.items fullInventory;
              FullInventory.byApp := FullInventory.byApp fullInventory;
              FullInventory.total := length (FullInventory.items fullInventory);
              FullInventory.currencies := FullInventory.currencies fullInventory |}.

(** The sources that contribute items, and those that contribute a group and
    currencies. *)
Definition answered (source : Config.t * completion InventoryData.t)
    : list (Config.t * InventoryData.t) :=
  match source.2 with
  | Return inventoryData => [(source.1, inventoryData)]
  | Throw _ => []
  end.

Definition app_key (source : Config.t * InventoryData.t) : string :=
  String (Config.appId source.1).

Definition grouped (source : Config.t * InventoryData.t) : bool :=
  bool_decide (app_key source ∉ Object_prototype).

(** * The data of a report (index.js, lines 231-279)

    The functions are given what the awaited calls of the client resolve or
    reject with. *)

Definition fetchInventory (inventory : completion FullInventory.t)
    : option FullInventory.t :=
  match inventory with
  | Return inventory => Some inventory
  | Throw _ => None
  end.

(** The object that [fetchMarketData] returns when nothing throws. *)
Module MarketData.
Record t := mk {
  market_history : FullHistory.t;
  market_overall_stats : Overall.t;
  market_stats : list Roi.t;
  matched_inventory_with_purchases : option MatchResult.t;
}.
End MarketData.

(** [fetchMarketData]: [None] is the empty object of the [catch]. *)
Definition fetchMarketData (client : SteamClient.t)
    (marketHistory : completion FullHistory.t)
    (inventory : option FullInventory.t) : option MarketData.t :=
  match marketHistory with
  | Throw _ => None
  | Return marketHistory =>
  match client_parseMarketHistory client (Some (as_history marketHistory)) with
  | Throw _ => None
  | Return processedHistory =>
  match client_calculateTransactionStatistics client processedHistory with
  | Throw _ => None
  | Return market_overall_stats =>
  match client_calculateROI client
          (Arr (ParseResult.transactions processedHistory)) with
  | Throw _ => None
  | Return market_stats =>
  match
    match inventory with
    | Some inventory =>
        match client_matchInventoryWithPurchases client
                (ParseResult.transactions processedHistory)
                (FullItem.item <$> FullInventory.items inventory) with
        | Return matched => Return (Some matched)
        | Throw e => Throw e
        end
    | None => Return None
    end
  with
  | Throw _ => None
  | Return matched =>
      Some {| MarketData.market_history := marketHistory;
              MarketData.market_overall_stats := market_overall_stats;
              MarketData.market_stats := market_stats;
              MarketData.matched_inventory_with_purchases := matched |}
  end end end end end.

(** [{accountId, inventory, ...marketData}]: [market] is [None] when
    [marketData] is the empty object. *)
Module ReportData.
Record t := mk {
  accountId : value;
  inventory : option FullInventory.t;
  market : option MarketData.t;
}.
End ReportData.

(** [fetchSteamData]: [None] is null. [marketData] is an object, also when
    it is empty, so [!marketData] is false. *)
Definition fetchSteamData (client : SteamClient.t)
    (inventory : completion FullInventory.t)
    (marketHistory : completion FullHistory.t) : option ReportData.t :=
  let inventory := fetchInventory inventory in
  let marketData := fetchMarketData client marketHistory inventory in
  let not_marketData := false in
  if negb (bool_decide (is_Some inventory)) && not_marketData then None
  else Some {| ReportData.accountId := SteamClient.accountId client;
               ReportData.inventory := inventory;
               ReportData.market := marketData |}.

(** The items of an application among [items], by the key of its group. *)
Definition in_app (k : string) (items : list FullItem.t) : list FullItem.t :=
  List.filter (λ item, bool_decide (String (FullItem.appId item) = k)) items.

(** What the groups of an inventory are to its items. *)
Definition groups_invariant (fullInventory : FullInventory.t) : Prop :=
  ∀ k,
    match FullInventory.byApp fullInventory !! k with
    | Some group =>
        (k ∉ Object_prototype) ∧
        ByApp.items group = in_app k (FullInventory.items fullInventory) ∧
        ByApp.count group = length (ByApp.items group)
    | None =>
        k ∉ Object_prototype → in_app k (FullInventory.items fullInventory) = []
    end.

(** * The workbook handler (src/module/excel/Excel.js)

    Of a workbook, the list [SheetNames] and the own properties of the
    object [Sheets]; a property holds a worksheet, or [None] for any other
    value. Strings are taken to be ASCII. *)

Module Workbook.
Record t (worksheet : Type) := mk {
  SheetNames : list string;
  Sheets : gmap string (option worksheet);
}.
Arguments mk {worksheet} _ _.
Arguments SheetNames {worksheet} _.
Arguments Sheets {worksheet} _.
End Workbook.

(** [names.indexOf(x)], [None] for -1 *)
Fixpoint indexOf (names : list string) (x : string) : option nat :=
  match names with
  | [] => None
  | name :: rest =>
      if bool_decide (name = x) then Some 0 else S <$> indexOf rest x
  end.

(** [Sheets[name]] as a worksheet, for an object [Sheets] with the prototype
    it is created with: a property that is missing is undefined or
    inherited from [Object.prototype], and no worksheet either way. *)
Definition get_sheet {worksheet} (Sheets : gmap string (option worksheet))
    (name : string) : option worksheet :=
  match Sheets !! name with
  | Some v => v
  | None => None
  end.

(** [Sheets[name] = v] on the own properties: setting [__proto__] creates
    none. It makes a worksheet the prototype of [Sheets] instead, which the
    workbooks of this model do not record: they are those whose [Sheets] has
    the prototype it is created with. *)
Definition set_sheet {worksheet} (Sheets : gmap string (option worksheet))
    (name : string) (v : option worksheet) : gmap string (option worksheet) :=
  match Sheets !! name with
  | Some _ => <[name := v]> Sheets
  | None =>
      if bool_decide (name = "__proto__") then Sheets else <[name := v]> Sheets
  end.

Definition quoted (s : string) : string :=
  String.String (Ascii.ascii_of_nat 34) s
    +:+ String.String (Ascii.ascii_of_nat 34) EmptyString.

Definition not_found {A} (sheetName : string) : completion A :=
  Throw (Error ("Sheet " +:+ quoted sheetName +:+ " not found")).

(** The methods return the handler; here they return its workbook. *)
Definition getSheetNames {worksheet} (workbook : option (Workbook.t worksheet))
    : completion (list string) :=
  match workbook with
  | None => Throw (Error "Workbook not initialized")
  | Some workbook => Return (Workbook.SheetNames workbook)
  end.

Definition deleteSheet {worksheet} (workbook : option (Workbook.t worksheet))
    (sheetName : string) : completion (Workbook.t worksheet) :=
  match workbook with
  | None => Throw (Error "Workbook not initialized")
  | Some workbook =>
      match indexOf (Workbook.SheetNames workbook) sheetName with
      | None => not_found sheetName
      | Some index =>
          Return {| Workbook.SheetNames :=
                      delete index (Workbook.SheetNames workbook);
                    Workbook.Sheets :=
                      delete sheetName (Workbook.Sheets workbook) |}
      end
  end.

Definition renameSheet {worksheet} (workbook : option (Workbook.t worksheet))
    (oldName newName : string) : completion (Workbook.t worksheet) :=
  match workbook with
  | None => Throw (Error "Workbook not initialized")
  | Some workbook =>
      match indexOf (Workbook.SheetNames workbook) oldName with
      | None => not_found oldName
      | Some index =>
          let Sheets :=
            set_sheet (Workbook.Sheets workbook) newName
              (get_sheet (Workbook.Sheets workbook) oldName) in
          Return {| Workbook.SheetNames :=
                      <[index := newName]> (Workbook.SheetNames workbook);
                    Workbook.Sheets := delete oldName Sheets |}
      end
  end.

(** A workbook as the library keeps it: the names are distinct, and they are
    the properties of [Sheets], each holding a worksheet. *)
Definition consistent {worksheet} (workbook : Workbook.t worksheet) : Prop :=
  NoDup (Workbook.SheetNames workbook) ∧
  (∀ name, name ∈ Workbook.SheetNames workbook
           ↔ is_Some (Workbook.Sheets workbook !! name)) ∧
  (∀ name, name ∈ Workbook.SheetNames workbook
           → is_Some (get_sheet (Workbook.Sheets workbook) name)).

(** The names after a sheet was deleted and after it was renamed. *)
Definition without (sheetName : string) (names : list string) : list string :=
  List.filter (λ name, bool_decide (name ≠ sheetName)) names.

Definition renamed (oldName newName : string) (names : list string)
    : list string :=
  (λ name, if bool_decide (name = oldName) then newName else name) <$> names.

(** ** _normalizeColor (lines 201-229) *)

Definition char_between (lo hi : nat) (c : Ascii.ascii) : bool :=
  (lo <=? Ascii.nat_of_ascii c)%nat && (Ascii.nat_of_ascii c <=? hi)%nat.

Definition toUpperCase_char (c : Ascii.ascii) : Ascii.ascii :=
  if char_between 97 122 c
  then Ascii.ascii_of_nat (Ascii.nat_of_ascii c - 32) else c.

Definition toLowerCase_char (c : Ascii.ascii) : Ascii.ascii :=
  if char_between 65 90 c
  then Ascii.ascii_of_nat (Ascii.nat_of_ascii c + 32) else c.

Fixpoint map_chars (f : Ascii.ascii → Ascii.ascii) (s : string) : string :=
  match s with
  | EmptyString => EmptyString
  | String.String c rest => String.String (f c) (map_chars f rest)
  end.

Definition toUpperCase : string → string := map_chars toUpperCase_char.
Definition toLowerCase : string → string := map_chars toLowerCase_char.

Fixpoint all_chars (p : Ascii.ascii → bool) (s : string) : bool :=
  match s with
  | EmptyString => true
  | String.String c rest => p c && all_chars p rest
  end.

(** [[0-9A-F]] with the flag [i], and without it *)
Definition hex_digit_i (c : Ascii.ascii) : bool :=
  char_between 48 57 c || char_between 65 70 c || char_between 97 102 c.

Definition hex_digit (c : Ascii.ascii) : bool :=
  char_between 48 57 c || char_between 65 70 c.

(** [/^[0-9A-F]{6}$/i.test(s)] *)
Definition hex6_i (s : string) : bool :=
  bool_decide (String.length s = 6) && all_chars hex_digit_i s.

(** Six digits in upper case. *)
Definition hex6 (s : string) : bool :=
  bool_decide (String.length s = 6) && all_chars hex_digit s.

Definition colorMap : list (string * string) :=
  [("black", "000000"); ("white", "FFFFFF"); ("red", "FF0000");
   ("green", "00FF00"); ("blue", "0000FF"); ("yellow", "FFFF00");
   ("orange", "FFA500"); ("purple", "800080"); ("gray", "808080");
   ("grey", "808080")].

(** What [_normalizeColor] returns: null, a string, or what [colorMap]
    inherits under the name. *)
Inductive color :=
| no_color
| rgb (s : string)
| inherited (name : string).

(** [/^#[0-9A-F]{6}$/i.test(s)] and [s.substring(1)] *)
Definition hash_hex6_i (s : string) : bool :=
  match s with
  | String.String c digits =>
      bool_decide (c = Ascii.ascii_of_nat 35) && hex6_i digits
  | EmptyString => false
  end.

Definition substring1 (s : string) : string :=
  match s with
  | String.String _ rest => rest
  | EmptyString => EmptyString
  end.

Definition _normalizeColor (c : value) : completion color :=
  match c with
  | Undefined | Null => Return no_color
  | Int n =>
      if bool_decide (n = 0%Z) then Return no_color
      else if hex6_i (String (Int n))
      then Throw (TypeError "color.toUpperCase is not a function")
      else Throw (TypeError "color.toLowerCase is not a function")
  | Str s =>
      if bool_decide (s = "") then Return no_color
      else if hex6_i s then Return (rgb (toUpperCase s))
      else if hash_hex6_i s then Return (rgb (toUpperCase (substring1 s)))
      else
        match get_prop (toLowerCase s) colorMap with
        | Some code => Return (rgb code)
        | None =>
            if bool_decide (toLowerCase s ∈ Object_prototype)
            then Return (inherited (toLowerCase s))
            else Return (rgb "000000")
        end
  end.

(** A workbook with three sheets; a worksheet is a number here. *)
Definition report_workbook : Workbook.t nat :=
  {| Workbook.SheetNames := ["Dashboard"; "ROI"; "Inventory"];
     Workbook.Sheets :=
       <["Dashboard" := Some 1]>
         (<["ROI" := Some 2]> (<["Inventory" := Some 3]> ∅)) |}.

(** * The encryption service (src/service/encryption.js)

    The service is its [masterKey], [None] for null. The library is given:
    [deriveKey] is the key derivation with the fixed salt, and [decipher]
    what AES-GCM makes of a key, an initialization vector, an
    authentication tag and a cipher text, the three in hexadecimal; both can
    fail. *)

Definition colon : Ascii.ascii := Ascii.ascii_of_nat 58.

(** [s.split(':')] *)
Fixpoint split_colon (s : string) : list string :=
  match s with
  | EmptyString => [EmptyString]
  | String.String c rest =>
      if bool_decide (c = colon) then EmptyString :: split_colon rest
      else
        match split_colon rest with
        | part :: parts => String.String c part :: parts
        | [] => [String.String c EmptyString]
        end
  end.

Definition isInitialized {key} (masterKey : option key) : bool :=
  bool_decide (is_Some masterKey).

Definition decrypt {key}
    (decipher : key → string → string → string → completion string)
    (masterKey : option key) (encryptedText : string) : completion string :=
  match masterKey with
  | None => Throw (Error "Encryption service is not initialized")
  | Some masterKey =>
      match split_colon encryptedText with
      | [iv; authTag; encrypted] => decipher masterKey iv authTag encrypted
      | _ => Throw (Error "Invalid encrypted data format")
      end
  end.

(** The text that [encrypt] returns for the three parts in hexadecimal. *)
Definition encrypted_format (iv authTag encrypted : string) : string :=
  iv +:+ String.String colon (authTag +:+ String.String colon encrypted).

(** [verifyPassword]: the result and the key of the service afterwards. *)
Definition verifyPassword {key} (deriveKey : string → completion key)
    (decipher : key → string → string → string → completion string)
    (masterKey : option key) (password encryptedTestData : string)
    : bool * option key :=
  match deriveKey password with
  | Throw _ => (false, masterKey)
  | Return tempKey =>
      let currentKey := masterKey in
      match decrypt decipher (Some tempKey) encryptedTestData with
      | Return _ => (true, currentKey)
      | Throw _ => (false, Some tempKey)
      end
  end.

(** No colon in a string, as in one of hexadecimal digits. *)
Definition colon_free (s : string) : bool :=
  all_chars (λ c, negb (bool_decide (c = colon))) s.

Fixpoint count_colons (s : string) : nat :=
  match s with
  | EmptyString => 0
  | String.String c rest =>
      (if bool_decide (c = colon) then 1 else 0) + count_colons rest
  end.

(** * Properties *)

(** ** Maps built by [new Map] *)

Section new_Map.
Context {V : Type}.
Implicit Types (pairs : list (string * V)) (k : string) (v : V).

Lemma new_Map_snoc pairs k v :
  new_Map (pairs ++ [(k, v)]) = <[k := v]> (new_Map pairs).
Proof. unfold new_Map. by rewrite foldl_app. Qed.

Lemma new_Map_lookup_Some pairs k v :
  new_Map pairs !! k = Some v → (k, v) ∈ pairs.
Proof.
  induction pairs as [|[k' v'] pairs IH] using rev_ind.
  - unfold new_Map; simpl. by rewrite lookup_empty.
  - rewrite new_Map_snoc, lookup_insert.
    case_decide as Hk; intros Hv; rewrite elem_of_app.
    + right. simplify_eq. apply list_elem_of_singleton. done.
    + left. auto.
Qed.

Lemma new_Map_is_Some pairs k :
  is_Some (new_Map pairs !! k) ↔ k ∈ pairs.*1.
Proof.
  induction pairs as [|[k' v'] pairs IH] using rev_ind.
  - unfold new_Map; simpl. rewrite lookup_empty, elem_of_nil.
    split; [by intros []%is_Some_None|done].
  - rewrite new_Map_snoc, lookup_insert, fmap_app, elem_of_app.
    simpl. rewrite list_elem_of_singleton.
    case_decide as Hk.
    + split; eauto.
    + rewrite IH. split; [by left | intros [?|?]; [done | by simplify_eq]].
Qed.
End new_Map.

(** ** The first loop: classification *)

Section classify.
Variables (mySteamId : string) (history : History.t).


Lemma classify_from acc entries :
  foldl (classify_step mySteamId history) acc entries =
  {| accountPurchases :=
       accountPurchases acc ++ ((parsed_entry mySteamId history) <$> List.filter (mine mySteamId) entries);
     accountSales :=
       accountSales acc ++
       ((parsed_entry mySteamId history) <$> List.filter (λ e, negb ((mine mySteamId) e)) entries) |}.
Proof.
  revert acc. induction entries as [|e entries IH]; intros acc; simpl.
  - rewrite !app_nil_r. by destruct acc.
  - rewrite IH. unfold classify_step, mine. fold (parsed_entry mySteamId history e).
    destruct (isMyPurchase mySteamId e.2); simpl;
      by rewrite <- ?app_assoc.
Qed.

Lemma classify_spec entries :
  classify mySteamId history entries =
  {| accountPurchases := (parsed_entry mySteamId history) <$> List.filter (mine mySteamId) entries;
     accountSales := (parsed_entry mySteamId history) <$> List.filter (λ e, negb ((mine mySteamId) e)) entries |}.
Proof. unfold classify. by rewrite classify_from. Qed.

Lemma parsed_ids (f : string * Raw.t → bool) entries :
  Parsed.id <$> ((parsed_entry mySteamId history) <$> List.filter f entries) = (List.filter f entries).*1.
Proof. rewrite <- list_fmap_compose. done. Qed.

Lemma NoDup_filter_keys (f : string * Raw.t → bool) entries :
  NoDup entries.*1 → NoDup (List.filter f entries).*1.
Proof.
  induction entries as [|e entries IH]; simpl; [done|].
  rewrite NoDup_cons. intros [Hn Hd]. destruct (f e); simpl; [|auto].
  rewrite NoDup_cons. split; [|auto].
  intros Hin. apply Hn.
  apply list_elem_of_fmap in Hin as (x & -> & Hx).
  apply list_elem_of_fmap. exists x. split; [done|].
  apply list_elem_of_In, filter_In in Hx as [Hx _]. by apply list_elem_of_In.
Qed.

Lemma sales_NoDup entries :
  NoDup entries.*1 →
  NoDup (Parsed.id <$> accountSales (classify mySteamId history entries)).
Proof.
  intros Hd. rewrite classify_spec. simpl. rewrite parsed_ids.
  by apply NoDup_filter_keys.
Qed.
End classify.

(** ** The linking loops *)

Section link.
Variable sales : gmap string Parsed.t.


Lemma link_step_transactions st p :
  transactions (link_step sales st p) = transactions st ++ (link_out sales) p.
Proof. unfold link_step, link_out. by destruct (sales !! _). Qed.

Lemma link_step_matched st p x :
  x ∈ matchedSaleIds (link_step sales st p) ↔
  x ∈ matchedSaleIds st ∨ x ∈ (claimed sales) [p].
Proof.
  unfold link_step, claimed. simpl. destruct (sales !! _) as [s|]; simpl.
  - rewrite elem_of_union, elem_of_singleton, list_elem_of_singleton. tauto.
  - rewrite elem_of_nil. tauto.
Qed.

Lemma claimed_cons p ps : (claimed sales) (p :: ps) = (claimed sales) [p] ++ (claimed sales) ps.
Proof. unfold claimed. simpl. by destruct (sales !! _). Qed.

Lemma link_loop_transactions st ps :
  transactions (foldl (link_step sales) st ps) =
  transactions st ++ (ps ≫= (link_out sales)).
Proof.
  revert st. induction ps as [|p ps IH]; intros st; simpl.
  - by rewrite app_nil_r.
  - by rewrite IH, link_step_transactions, <- app_assoc.
Qed.

Lemma link_loop_matched st ps x :
  x ∈ matchedSaleIds (foldl (link_step sales) st ps) ↔
  x ∈ matchedSaleIds st ∨ x ∈ (claimed sales) ps.
Proof.
  revert st. induction ps as [|p ps IH]; intros st.
  - unfold claimed. simpl. rewrite elem_of_nil. tauto.
  - cbn [foldl].
    rewrite IH, link_step_matched, (claimed_cons p ps), elem_of_app. tauto.
Qed.
End link.

Lemma receive_loop_matched st ss :
  matchedSaleIds (foldl receive_step st ss) = matchedSaleIds st.
Proof.
  revert st. induction ss as [|s ss IH]; intros st; simpl; [done|].
  rewrite IH. unfold receive_step. by case_bool_decide.
Qed.


Lemma receive_loop_transactions st ss ids :
  (∀ x, x ∈ matchedSaleIds st ↔ x ∈ ids) →
  transactions (foldl receive_step st ss) =
  transactions st ++ (received_sale <$> List.filter (unmatched ids) ss).
Proof.
  intros Hids. revert st Hids.
  induction ss as [|s ss IH]; intros st Hids; simpl.
  - by rewrite app_nil_r.
  - rewrite IH.
    + unfold receive_step, unmatched.
      rewrite (bool_decide_ext _ _ (Hids (Parsed.id s))).
      case_bool_decide; simpl; [done|]. by rewrite <- app_assoc.
    + intros x. rewrite <- Hids. unfold receive_step. by case_bool_decide.
Qed.

(** The array [transactions] after both loops. *)
Lemma link_transactions c :
  transactions (link c) =
  (accountPurchases c ≫= link_out (salesByAssetId (accountSales c))) ++
  (received_sale <$>
     List.filter (unmatched (claimed (salesByAssetId (accountSales c))
                               (accountPurchases c)))
                 (accountSales c)).
Proof.
  unfold link. erewrite receive_loop_transactions.
  - by rewrite link_loop_transactions.
  - intros x. rewrite link_loop_matched. simpl. rewrite elem_of_empty. tauto.
Qed.

(** The index of the sales holds sales of the ledger under their own
    normalised asset id, and it holds one for every asset id that occurs. *)
Lemma salesByAssetId_Some ss k s :
  salesByAssetId ss !! k = Some s →
  s ∈ ss ∧ truthy (Parsed.assetid s) = true ∧ String (Parsed.assetid s) = k.
Proof.
  intros H%new_Map_lookup_Some.
  apply list_elem_of_fmap in H as (s' & [= -> ->] & Hs).
  apply list_elem_of_In, filter_In in Hs as [Hs Ht].
  by rewrite list_elem_of_In.
Qed.

Lemma salesByAssetId_is_Some ss s :
  s ∈ ss → truthy (Parsed.assetid s) = true →
  is_Some (salesByAssetId ss !! String (Parsed.assetid s)).
Proof.
  intros Hs Ht. apply new_Map_is_Some.
  rewrite <- list_fmap_compose. apply list_elem_of_fmap.
  exists s. split; [done|].
  apply list_elem_of_In, filter_In. by rewrite <- list_elem_of_In.
Qed.

Lemma claimed_sales ss ps x :
  x ∈ claimed (salesByAssetId ss) ps → x ∈ Parsed.id <$> ss.
Proof.
  unfold claimed. rewrite list_elem_of_omap. intros (p & _ & Hp).
  destruct (salesByAssetId ss !! _) as [s|] eqn:E; simplify_eq/=.
  apply salesByAssetId_Some in E as [Hs _].
  apply list_elem_of_fmap. eauto.
Qed.

(** ** The summary counts *)


Lemma count_app {A} (f : A → bool) l k :
  count f (l ++ k) = count f l + count f k.
Proof. unfold count. by rewrite List.filter_app, length_app. Qed.

Lemma stats_from acc l :
  foldl stats_step acc l =
  {| completed := completed acc + count is_completed_sale l;
     uncompleted := uncompleted acc + count is_uncompleted l;
     received := received acc + count is_received l |}.
Proof.
  revert acc. induction l as [|t l IH]; intros acc.
  - unfold count. simpl. destruct acc. simpl. f_equal; lia.
  - cbn [foldl]. rewrite IH.
    change (t :: l) with ([t] ++ l). rewrite !count_app.
    unfold stats_step, count, is_completed_sale, is_uncompleted, is_received.
    simpl. destruct (Tx.transaction_status t), (Tx.role t); simpl; f_equal; lia.
Qed.

Lemma stats_spec l :
  stats l =
  {| completed := count is_completed_sale l;
     uncompleted := count is_uncompleted l;
     received := count is_received l |}.
Proof. unfold stats. by rewrite stats_from. Qed.

Section counts.
Variable sales : gmap string Parsed.t.

Lemma link_out_counts p :
  count is_completed_sale (link_out sales p) = length (claimed sales [p]) ∧
  count is_uncompleted (link_out sales p) + length (claimed sales [p]) = 1 ∧
  count is_received (link_out sales p) = 0 ∧
  length (link_out sales p) = 1 + length (claimed sales [p]) ∧
  omap Tx.linked_sale_id (link_out sales p) = claimed sales [p].
Proof.
  unfold link_out, claimed. simpl. by destruct (sales !! _).
Qed.

Lemma linked_counts ps :
  count is_completed_sale (ps ≫= link_out sales) = length (claimed sales ps) ∧
  count is_uncompleted (ps ≫= link_out sales) + length (claimed sales ps)
    = length ps ∧
  count is_received (ps ≫= link_out sales) = 0 ∧
  length (ps ≫= link_out sales) = length ps + length (claimed sales ps) ∧
  omap Tx.linked_sale_id (ps ≫= link_out sales) = claimed sales ps.
Proof.
  induction ps as [|p ps (IH1 & IH2 & IH3 & IH4 & IH5)]; [done|].
  destruct (link_out_counts p) as (H1 & H2 & H3 & H4 & H5).
  rewrite bind_cons, !count_app, length_app, omap_app, (claimed_cons sales p ps).
  rewrite length_app, IH1, IH3, IH4, IH5, H1, H3, H4, H5.
  cbn [length]. repeat split; (done || lia).
Qed.
End counts.

Lemma received_counts ss :
  count is_completed_sale (received_sale <$> ss) = 0 ∧
  count is_uncompleted (received_sale <$> ss) = 0 ∧
  count is_received (received_sale <$> ss) = length ss ∧
  omap Tx.linked_sale_id (received_sale <$> ss) = [].
Proof.
  induction ss as [|s ss (IH1 & IH2 & IH3 & IH4)]; [done|].
  rewrite fmap_cons. change (?x :: ?l) with ([x] ++ l).
  rewrite !count_app, omap_app, IH1, IH2, IH3, IH4. done.
Qed.

(** A sale is left over exactly when no purchase claims it, so claims of
    pairwise distinct sales split the sales in two. *)
Lemma claimed_split (ss : list Parsed.t) (ids : list string) :
  NoDup (Parsed.id <$> ss) → NoDup ids →
  (∀ x, x ∈ ids → x ∈ Parsed.id <$> ss) →
  length ids + length (List.filter (unmatched ids) ss) = length ss.
Proof.
  intros Hss Hids Hsub.
  rewrite <- (List.filter_length (λ s, bool_decide (Parsed.id s ∈ ids)) ss).
  f_equal.
  rewrite <- (length_fmap Parsed.id (List.filter _ ss)).
  apply Permutation_length, NoDup_Permutation; [done| |].
  - clear Hsub. induction ss as [|s ss IH]; simpl; [constructor|].
    apply NoDup_cons in Hss as [Hn Hd].
    case_bool_decide; simpl; [|auto].
    apply NoDup_cons. split; [|auto].
    intros (s' & E & Hs')%list_elem_of_fmap. apply Hn.
    apply list_elem_of_fmap. exists s'. split; [done|].
    apply list_elem_of_In, filter_In in Hs' as [Hs' _]. by apply list_elem_of_In.
  - intros x. split.
    + intros Hx. pose proof (Hsub x Hx) as (s & -> & Hs)%list_elem_of_fmap.
      apply list_elem_of_fmap. exists s. split; [done|].
      apply list_elem_of_In, filter_In. rewrite <- list_elem_of_In.
      split; [done|]. by apply bool_decide_eq_true.
    + intros (s & -> & Hs)%list_elem_of_fmap.
      apply list_elem_of_In, filter_In in Hs as [_ Hs].
      by apply bool_decide_eq_true in Hs.
Qed.

(** Decidable facts about closed terms, by evaluation. *)
Ltac computed := apply (bool_decide_unpack _); vm_compute; exact I.

(** The counts of the array [transactions] in terms of the claims. *)
Lemma link_counts c :
  let sales := salesByAssetId (accountSales c) in
  let ids := claimed sales (accountPurchases c) in
  let st := stats (transactions (link c)) in
  completed st = length ids ∧
  uncompleted st + length ids = length (accountPurchases c) ∧
  received st = length (List.filter (unmatched ids) (accountSales c)) ∧
  length (transactions (link c)) =
    length (accountPurchases c) + length ids
    + length (List.filter (unmatched ids) (accountSales c)) ∧
  omap Tx.linked_sale_id (transactions (link c)) = ids.
Proof.
  intros sales ids st. subst st. rewrite stats_spec, link_transactions. simpl.
  fold sales. fold ids.
  destruct (linked_counts sales (accountPurchases c)) as (H1 & H2 & H3 & H4 & H5).
  destruct (received_counts (List.filter (unmatched ids) (accountSales c)))
    as (R1 & R2 & R3 & R4).
  fold ids in H1, H2, H4, H5.
  rewrite !count_app, length_app, omap_app, length_fmap.
  rewrite H1, H3, H4, H5, R1, R2, R3, R4, app_nil_r.
  repeat split; (done || lia).
Qed.

(** C2, amended. For every ledger and account identifier the parser returns,
    the completed and uncompleted counts add up to the purchase count, and
    the list of transactions has as many elements as there are purchases,
    completed pairs and received sales together.  When no two purchase
    records are linked to the same sale, the list has purchases_count plus
    sales_count elements and the completed and received counts add up to the
    sale count (the keys of [history.purchases] being those of an object,
    hence pairwise distinct). *)
Theorem conservation_of_counts (self : MarketAnalyzer) (h : History.t)
    (entries : list (string * Raw.t)) :
  History.purchases h = Some entries →
  let r := parse_entries self h entries in
  parseMarketHistory self (Some h) = Return r ∧
  ParseResult.completed_purchases_count r + ParseResult.uncompleted_purchases_count r
    = ParseResult.purchases_count r ∧
  length (ParseResult.transactions r)
    = ParseResult.purchases_count r + ParseResult.completed_purchases_count r
      + ParseResult.received_sales_count r ∧
  (NoDup entries.*1 →
   NoDup (omap Tx.linked_sale_id (ParseResult.transactions r)) →
   conservation r).
Proof.
  intros Hp r. split; [unfold parseMarketHistory; by rewrite Hp|].
  unfold conservation. subst r. unfold parse_entries. simpl.
  set (c := classify _ _ _).
  destruct (link_counts c) as (H1 & H2 & H3 & H4 & H5).
  rewrite H1, H3, H4, H5.
  split; [lia|]. split; [lia|]. intros Hkeys Hids.
  pose proof (claimed_split (accountSales c) _
                (sales_NoDup _ _ _ Hkeys) Hids
                (claimed_sales (accountSales c) (accountPurchases c))) as Hs.
  fold c in Hs. lia.
Qed.

Lemma conservation_of_counts_witness :
  let r := parse_entries analyzer scenario_A
             [("p1", my_purchase "X" "X2" 10); ("s1", my_sale "X2" (Some 15%Q))] in
  parseMarketHistory analyzer (Some scenario_A) = Return r ∧ conservation r.
Proof.
  destruct (conservation_of_counts analyzer scenario_A _ eq_refl)
    as (Hr & _ & _ & Hc).
  split; [exact Hr|]. apply Hc; computed.
Defined.

(** C2, as stated, fails on a ledger in which two purchases carry the
    post-disposal id of one sale: four transactions for two purchases and one
    sale. *)
Lemma conservation_counterexample :
  ∃ r, parseMarketHistory analyzer (Some shared_sale) = Return r ∧
       length (ParseResult.transactions r) = 4 ∧
       ParseResult.purchases_count r = 2 ∧
       ParseResult.sales_count r = 1 ∧
       ¬ conservation r.
Proof.
  eexists. split; [reflexivity|]. vm_compute.
  repeat split; try reflexivity. intros (H & _). discriminate H.
Qed.

(** ** Consumed and received sales *)

Lemma filter_fmap {A B} (f : B → bool) (g : A → B) (l : list A) :
  List.filter f (g <$> l) = g <$> List.filter (λ x, f (g x)) l.
Proof.
  induction l as [|x l IH]; [done|].
  rewrite fmap_cons. cbn [List.filter]. rewrite IH.
  by destruct (f (g x)).
Qed.

Lemma filter_filter {A} (f g : A → bool) (l : list A) :
  List.filter f (List.filter g l) = List.filter (λ x, g x && f x) l.
Proof.
  induction l as [|x l IH]; simpl; [done|].
  destruct (g x); simpl; [|done]. rewrite IH. done.
Qed.

Lemma filter_none {A} (f : A → bool) (l : list A) :
  (∀ x, x ∈ l → f x = false) → List.filter f l = [].
Proof.
  induction l as [|x l IH]; simpl; [done|]. intros H.
  rewrite (H x) by apply list_elem_of_here.
  apply IH. intros y Hy. apply H. by apply list_elem_of_further.
Qed.

(** Among records with pairwise distinct ids an id selects one record. *)
Lemma filter_by_id (g : Parsed.t → bool) (ss : list Parsed.t) (s : Parsed.t) :
  NoDup (Parsed.id <$> ss) → s ∈ ss →
  List.filter (λ s', g s' && bool_decide (Parsed.id s' = Parsed.id s)) ss =
  if g s then [s] else [].
Proof.
  induction ss as [|x ss IH]; [by intros _ ?%elem_of_nil|].
  rewrite fmap_cons, NoDup_cons. intros [Hn Hd] Hs. simpl.
  apply elem_of_cons in Hs as [<-|Hs].
  - rewrite bool_decide_true, andb_true_r by done.
    rewrite (filter_none _ ss); [done|].
    intros y Hy. apply andb_false_intro2, bool_decide_eq_false.
    intros E. apply Hn. rewrite <- E. apply list_elem_of_fmap. eauto.
  - rewrite bool_decide_false, andb_false_r; [by apply IH|].
    intros E. apply Hn. rewrite E. apply list_elem_of_fmap. eauto.
Qed.

Lemma linked_not_received sales ps id :
  received_records (ps ≫= link_out sales) id = [].
Proof.
  apply filter_none. intros t (p & Ht & _)%list_elem_of_bind.
  unfold link_out in Ht. destruct (sales !! _);
    repeat (apply elem_of_cons in Ht as [->|Ht]); try done;
    by apply elem_of_nil in Ht.
Qed.

Lemma consumed_claimed c id :
  consumed (transactions (link c)) id ↔
  id ∈ claimed (salesByAssetId (accountSales c)) (accountPurchases c).
Proof.
  rewrite link_transactions. unfold consumed, claimed.
  rewrite list_elem_of_omap. split.
  - intros (t & Ht & Hst & Hrole & Hid). apply elem_of_app in Ht as [Ht|Ht].
    + apply list_elem_of_bind in Ht as (p & Ht & Hp). exists p. split; [done|].
      unfold link_out in Ht. destruct (salesByAssetId _ !! _) as [s|];
        repeat (apply elem_of_cons in Ht as [->|Ht]); try done;
        try (by apply elem_of_nil in Ht).
      simpl in *. by rewrite Hid.
    + apply list_elem_of_fmap in Ht as (s & -> & _). done.
  - intros (p & Hp & Hs).
    destruct (salesByAssetId _ !! _) as [s|] eqn:E; simplify_eq/=.
    exists (completed_sale p s). repeat split; try done.
    apply elem_of_app. left. apply list_elem_of_bind. exists p. split; [|done].
    unfold link_out. rewrite E. apply list_elem_of_further, list_elem_of_here.
Qed.

Lemma received_records_link c s :
  NoDup (Parsed.id <$> accountSales c) → s ∈ accountSales c →
  received_records (transactions (link c)) (Parsed.id s) =
  if unmatched (claimed (salesByAssetId (accountSales c)) (accountPurchases c)) s
  then [received_sale s] else [].
Proof.
  intros Hd Hs. rewrite link_transactions. unfold received_records.
  rewrite List.filter_app.
  fold (received_records (accountPurchases c ≫= link_out (salesByAssetId (accountSales c)))
          (Parsed.id s)).
  rewrite linked_not_received, app_nil_l, filter_fmap, filter_filter.
  simpl.
  rewrite (filter_by_id
             (unmatched (claimed (salesByAssetId (accountSales c))
                                 (accountPurchases c))) _ s) by done.
  by destruct (unmatched _ s).
Qed.

(** C3. For every ledger and account identifier the parser returns, and of
    every sale of the ledger: if the sale is the counterpart of a completed
    purchase, no received record of it is in the output, and otherwise exactly
    one is, namely the record of that sale.  (The keys of [history.purchases]
    are those of an object, hence pairwise distinct.) *)
Theorem consumed_sale_not_received (self : MarketAnalyzer) (h : History.t)
    (entries : list (string * Raw.t)) :
  History.purchases h = Some entries →
  NoDup entries.*1 →
  let r := parse_entries self h entries in
  parseMarketHistory self (Some h) = Return r ∧
  ∀ sale, sale ∈ accountSales (classify (String (steamId self)) h entries) →
    (consumed (ParseResult.transactions r) (Parsed.id sale) →
       received_records (ParseResult.transactions r) (Parsed.id sale) = []) ∧
    (¬ consumed (ParseResult.transactions r) (Parsed.id sale) →
       received_records (ParseResult.transactions r) (Parsed.id sale)
       = [received_sale sale]).
Proof.
  intros Hp Hkeys r. split; [unfold parseMarketHistory; by rewrite Hp|].
  intros sale Hs. subst r. unfold parse_entries. simpl.
  set (c := classify _ _ _) in *.
  rewrite consumed_claimed.
  rewrite (received_records_link c sale (sales_NoDup _ _ _ Hkeys) Hs).
  unfold unmatched. case_bool_decide; simpl; split; intros; done.
Qed.

Lemma consumed_sale_not_received_witness :
  let entries := [("p1", my_purchase "X" "X2" 10); ("s1", my_sale "X2" (Some 15%Q))] in
  let r := parse_entries analyzer scenario_A entries in
  parseMarketHistory analyzer (Some scenario_A) = Return r ∧
  ∀ sale, sale ∈ accountSales (classify (String (steamId analyzer)) scenario_A entries) →
    (consumed (ParseResult.transactions r) (Parsed.id sale) →
       received_records (ParseResult.transactions r) (Parsed.id sale) = []) ∧
    (¬ consumed (ParseResult.transactions r) (Parsed.id sale) →
       received_records (ParseResult.transactions r) (Parsed.id sale)
       = [received_sale sale]).
Proof.
  apply (consumed_sale_not_received analyzer scenario_A _ eq_refl). computed.
Defined.

(** ** Linking *)

Lemma NoDup_fmap_eq {A B} (f : A → B) (l : list A) (x y : A) :
  NoDup (f <$> l) → x ∈ l → y ∈ l → f x = f y → x = y.
Proof.
  induction l as [|a l IH]; [by intros _ ?%elem_of_nil|].
  rewrite fmap_cons, NoDup_cons. intros [Hn Hd] Hx Hy E.
  apply elem_of_cons in Hx as [->|Hx]; apply elem_of_cons in Hy as [->|Hy];
    [done| | |by apply IH].
  - destruct Hn. rewrite E. apply list_elem_of_fmap. eauto.
  - destruct Hn. rewrite <- E. apply list_elem_of_fmap. eauto.
Qed.

Section linking.
Variable sales : gmap string Parsed.t.

(** The purchase records are those of the purchases, in their order. *)
Lemma linked_purchases ps :
  Tx.purchase <$> List.filter is_purchase (ps ≫= link_out sales) = ps.
Proof.
  induction ps as [|p ps IH]; [done|].
  rewrite bind_cons, List.filter_app, fmap_app, IH.
  unfold link_out. by destruct (sales !! _).
Qed.

Lemma linked_completed ps p s :
  p ∈ ps → sales !! String (Parsed.new_id p) = Some s →
  completed_purchase p s ∈ ps ≫= link_out sales ∧
  completed_sale p s ∈ ps ≫= link_out sales ∧
  uncompleted_purchase p ∉ ps ≫= link_out sales.
Proof.
  intros Hp Hs.
  assert (Hout : link_out sales p =
                 [completed_purchase p s; completed_sale p s])
    by (unfold link_out; by rewrite Hs).
  repeat split.
  - apply list_elem_of_bind. exists p. rewrite Hout. split; [left|done].
  - apply list_elem_of_bind. exists p. rewrite Hout.
    split; [right; left|done].
  - intros (p' & Ht & _)%list_elem_of_bind. unfold link_out in Ht.
    destruct (sales !! String (Parsed.new_id p')) as [s'|] eqn:E;
      repeat (apply elem_of_cons in Ht as [Ht|Ht]); try done;
      try (by apply elem_of_nil in Ht).
    apply (f_equal Tx.purchase) in Ht. simpl in Ht. subst p'. congruence.
Qed.

(** As many records are linked to a sale as purchases resolve to it. *)
Lemma linked_to_count ps ss s :
  NoDup (Parsed.id <$> ss) → s ∈ ss →
  (∀ k s', sales !! k = Some s' → s' ∈ ss ∧ String (Parsed.assetid s') = k) →
  sales !! String (Parsed.assetid s) = Some s →
  length (List.filter (linked_to (Parsed.id s)) (ps ≫= link_out sales)) =
  length (List.filter (resolves_to (String (Parsed.assetid s))) ps).
Proof.
  intros Hd Hs Hsales Hk. induction ps as [|p ps IH]; [done|].
  rewrite bind_cons, List.filter_app, length_app, IH. clear IH.
  cbn [List.filter]. unfold link_out, resolves_to, linked_to.
  destruct (sales !! String (Parsed.new_id p)) as [s'|] eqn:E; simpl.
  - destruct (Hsales _ _ E) as [Hs' Hk'].
    case_bool_decide as H1; case_bool_decide as H2; simpl; try done.
    + destruct H2. injection H1 as H1.
      assert (s' = s) as -> by eauto using NoDup_fmap_eq. done.
    + destruct H1. rewrite H2, Hk in E. by injection E as ->.
  - case_bool_decide as H2; simpl; [|done]. rewrite H2 in E. congruence.
Qed.
End linking.

Lemma received_not_linked ss :
  List.filter is_purchase (received_sale <$> ss) = [] ∧
  ∀ id, List.filter (linked_to id) (received_sale <$> ss) = [].
Proof.
  split; [|intros id]; apply filter_none;
    by intros t (s & -> & _)%list_elem_of_fmap.
Qed.

(** C1, amended. For every ledger and account identifier the parser returns
    and processes the purchases in stable input order; for every asset id
    carried by a sale there is one sale with that asset id to which every
    purchase with that post-disposal id, the first and each subsequent one,
    is linked as a completed pair; none of them is emitted as uncompleted,
    and the output holds as many records linked to that sale as there are
    such purchases (the keys of [history.purchases] being those of an object,
    hence pairwise distinct). *)
Theorem every_matching_purchase_completed (self : MarketAnalyzer)
    (h : History.t) (entries : list (string * Raw.t)) :
  History.purchases h = Some entries →
  let mySteamId := String (steamId self) in
  let c := classify mySteamId h entries in
  let r := parse_entries self h entries in
  parseMarketHistory self (Some h) = Return r ∧
  accountPurchases c = parsed_entry mySteamId h <$> List.filter (mine mySteamId) entries ∧
  Tx.purchase <$> List.filter is_purchase (ParseResult.transactions r)
    = accountPurchases c ∧
  ∀ s0, s0 ∈ accountSales c → truthy (Parsed.assetid s0) = true →
    ∃ s, s ∈ accountSales c ∧
      String (Parsed.assetid s) = String (Parsed.assetid s0) ∧
      (∀ p, p ∈ accountPurchases c →
            String (Parsed.new_id p) = String (Parsed.assetid s0) →
            completed_purchase p s ∈ ParseResult.transactions r ∧
            completed_sale p s ∈ ParseResult.transactions r ∧
            uncompleted_purchase p ∉ ParseResult.transactions r) ∧
      (NoDup entries.*1 →
       length (List.filter (linked_to (Parsed.id s)) (ParseResult.transactions r))
       = length (List.filter (resolves_to (String (Parsed.assetid s0)))
                             (accountPurchases c))).
Proof.
  intros Hp mySteamId c r.
  split; [unfold parseMarketHistory; by rewrite Hp|].
  split; [unfold c; by rewrite classify_spec|].
  subst r. unfold parse_entries. cbn [ParseResult.transactions]. fold mySteamId c.
  rewrite link_transactions.
  set (sales := salesByAssetId (accountSales c)).
  set (rest := List.filter _ (accountSales c)).
  destruct (received_not_linked rest) as [Hr1 Hr2].
  split.
  { by rewrite List.filter_app, Hr1, app_nil_r, linked_purchases. }
  intros s0 Hs0 Ht0.
  destruct (salesByAssetId_is_Some _ _ Hs0 Ht0) as [s Hs]. fold sales in Hs.
  destruct (salesByAssetId_Some _ _ _ Hs) as (Hin & Ht & Hk).
  exists s. split; [done|]. split; [done|]. split.
  - intros p Hpin Hpk. rewrite <- Hpk in Hs.
    destruct (linked_completed sales _ p s Hpin Hs) as (H1 & H2 & H3).
    rewrite !elem_of_app. repeat split; [by left|by left|].
    intros [H|H]; [done|].
    by apply list_elem_of_fmap in H as (s' & ? & _).
  - intros Hkeys. rewrite List.filter_app, Hr2, app_nil_r, <- Hk.
    apply (linked_to_count sales _ (accountSales c)); try done.
    + by apply sales_NoDup.
    + intros k s' H'. by destruct (salesByAssetId_Some _ _ _ H') as (? & _ & ?).
    + by rewrite Hk.
Qed.

Lemma every_matching_purchase_completed_witness :
  let entries := [("p1", my_purchase "X" "X2" 10);
                  ("p2", my_purchase "W" "X2" 12);
                  ("s1", my_sale "X2" (Some 15%Q))] in
  let mySteamId := String (steamId analyzer) in
  let r := parse_entries analyzer shared_sale entries in
  let p1 := parsed_entry mySteamId shared_sale ("p1", my_purchase "X" "X2" 10) in
  let p2 := parsed_entry mySteamId shared_sale ("p2", my_purchase "W" "X2" 12) in
  parseMarketHistory analyzer (Some shared_sale) = Return r ∧
  ∃ s, completed_purchase p1 s ∈ ParseResult.transactions r ∧
       completed_purchase p2 s ∈ ParseResult.transactions r ∧
       length (List.filter (linked_to (Parsed.id s)) (ParseResult.transactions r)) = 2.
Proof.
  intros entries mySteamId r p1 p2.
  destruct (every_matching_purchase_completed analyzer shared_sale entries
              eq_refl) as (Hr & _ & _ & H).
  split; [exact Hr|].
  destruct (H (parsed_entry mySteamId shared_sale ("s1", my_sale "X2" (Some 15%Q))))
    as (s & _ & _ & Hall & Hcount); [vm_compute; do 1 left | by vm_compute |].
  exists s.
  destruct (Hall p1) as (H1 & _); [vm_compute; left | by vm_compute |].
  destruct (Hall p2) as (H2 & _); [vm_compute; right; left | by vm_compute |].
  split; [exact H1|]. split; [exact H2|].
  etrans; [apply Hcount; computed | by vm_compute].
Defined.

(** C1, as stated, fails on a ledger in which two purchases carry the
    post-disposal id of one sale: the second purchase is completed as well,
    and two records are linked to the sale. *)
Lemma first_claims_sale_counterexample :
  let entries := [("p1", my_purchase "X" "X2" 10);
                  ("p2", my_purchase "W" "X2" 12);
                  ("s1", my_sale "X2" (Some 15%Q))] in
  History.purchases shared_sale = Some entries ∧
  (λ t, (Tx.transaction_id t, Tx.transaction_status t, Tx.linked_sale_id t)) <$>
    ParseResult.transactions (parse_entries analyzer shared_sale entries)
  = [("purchase:p1", Status.completed, Some "s1");
     ("sale:s1", Status.completed, None);
     ("purchase:p2", Status.completed, Some "s1");
     ("sale:s1", Status.completed, None)] ∧
  ¬ first_claims_sale analyzer shared_sale entries.
Proof.
  intros entries. split; [done|]. split; [by vm_compute|].
  intros H.
  set (mySteamId := String (steamId analyzer)).
  destruct (H 0 1
              (parsed_entry mySteamId shared_sale ("p1", my_purchase "X" "X2" 10))
              (parsed_entry mySteamId shared_sale ("p2", my_purchase "W" "X2" 12))
              (parsed_entry mySteamId shared_sale ("s1", my_sale "X2" (Some 15%Q))))
    as [_ Hn];
    [lia | by vm_compute | by vm_compute | vm_compute; left
    | by vm_compute | by vm_compute | by vm_compute | ].
  vm_compute in Hn. discriminate Hn.
Qed.

(** C9. For every purchase whose post-disposal id is the asset id of a sale,
    the list of transactions holds two adjacent entries, the first with role
    purchase and the second with role sale, both completed, each holding its
    own side only and naming the other through linked_sale_id and
    linked_purchase_id. *)
Theorem completed_pair_is_two_entries (self : MarketAnalyzer) (h : History.t)
    (entries : list (string * Raw.t)) :
  History.purchases h = Some entries →
  let c := classify (String (steamId self)) h entries in
  let r := parse_entries self h entries in
  parseMarketHistory self (Some h) = Return r ∧
  ∀ p s0, p ∈ accountPurchases c → s0 ∈ accountSales c →
    truthy (Parsed.assetid s0) = true →
    String (Parsed.new_id p) = String (Parsed.assetid s0) →
    ∃ s before after purchase_entry sale_entry,
      s ∈ accountSales c ∧
      String (Parsed.assetid s) = String (Parsed.new_id p) ∧
      ParseResult.transactions r
        = before ++ [purchase_entry; sale_entry] ++ after ∧
      Tx.role purchase_entry = Role.purchase ∧
      Tx.transaction_status purchase_entry = Status.completed ∧
      Tx.purchase purchase_entry = p ∧
      Tx.purchase_id purchase_entry = Parsed.id p ∧
      Tx.role sale_entry = Role.sale ∧
      Tx.transaction_status sale_entry = Status.completed ∧
      Tx.purchase sale_entry = s ∧
      Tx.purchase_id sale_entry = Parsed.id s ∧
      Tx.linked_sale_id purchase_entry = Some (Tx.purchase_id sale_entry) ∧
      Tx.linked_purchase_id purchase_entry = None ∧
      Tx.linked_purchase_id sale_entry = Some (Tx.purchase_id purchase_entry) ∧
      Tx.linked_sale_id sale_entry = None.
Proof.
  intros Hp c r. split; [unfold parseMarketHistory; by rewrite Hp|].
  intros p s0 Hpin Hs0 Ht0 Hk.
  subst r. unfold parse_entries. cbn [ParseResult.transactions]. fold c.
  rewrite link_transactions.
  set (sales := salesByAssetId (accountSales c)).
  set (rest := received_sale <$> _).
  destruct (salesByAssetId_is_Some _ _ Hs0 Ht0) as [s Hs]. fold sales in Hs.
  destruct (salesByAssetId_Some _ _ _ Hs) as (Hin & _ & Hks).
  rewrite <- Hk in Hs, Hks.
  apply list_elem_of_split in Hpin as (ps1 & ps2 & ->).
  exists s, (ps1 ≫= link_out sales), ((ps2 ≫= link_out sales) ++ rest),
    (completed_purchase p s), (completed_sale p s).
  split; [done|]. split; [done|]. split; [|by repeat split].
  rewrite bind_app, bind_cons. unfold link_out at 2. rewrite Hs.
  by rewrite <- !app_assoc.
Qed.

Lemma completed_pair_is_two_entries_witness :
  let entries := [("p1", my_purchase "X" "X2" 10); ("s1", my_sale "X2" (Some 15%Q))] in
  let r := parse_entries analyzer scenario_A entries in
  ∃ before after purchase_entry sale_entry,
    ParseResult.transactions r = before ++ [purchase_entry; sale_entry] ++ after ∧
    Tx.purchase_id purchase_entry = "p1" ∧
    Tx.linked_sale_id purchase_entry = Some (Tx.purchase_id sale_entry) ∧
    Tx.linked_purchase_id sale_entry = Some (Tx.purchase_id purchase_entry).
Proof.
  intros entries r.
  destruct (completed_pair_is_two_entries analyzer scenario_A entries eq_refl)
    as [_ H].
  set (mySteamId := String (steamId analyzer)).
  destruct (H (parsed_entry mySteamId scenario_A ("p1", my_purchase "X" "X2" 10))
              (parsed_entry mySteamId scenario_A ("s1", my_sale "X2" (Some 15%Q))))
    as (s & before & after & pe & se & _ & _ & Htxs & _ & _ & _ & Hid & _ & _
        & _ & _ & Hl1 & _ & Hl2 & _);
    [vm_compute; left | vm_compute; left | by vm_compute | by vm_compute |].
  exists before, after, pe, se. repeat split; done.
Defined.

(** ** calculateROI *)

Lemma roi_step_out sales results t :
  roi_step sales results t = results ++ roi_out sales t.
Proof.
  unfold roi_out, roi_step.
  repeat (case_match; simpl; rewrite ?app_nil_r; try done).
Qed.

Lemma roi_loop sales results ts :
  foldl (roi_step sales) results ts = results ++ (ts ≫= roi_out sales).
Proof.
  revert results. induction ts as [|t ts IH]; intros results; simpl.
  - by rewrite app_nil_r.
  - by rewrite IH, roi_step_out, <- app_assoc.
Qed.

(** A transaction yields a record exactly when it is a completed purchase
    whose linked sale is among the sale entries. *)
Lemma roi_out_Some sales t r :
  r ∈ roi_out sales t ↔
  ∃ saleId saleTx,
    Tx.role t = Role.purchase ∧ Tx.transaction_status t = Status.completed ∧
    Tx.linked_sale_id t = Some saleId ∧ saleId ≠ "" ∧
    sales !! saleId = Some saleTx ∧ r = roi_record t saleTx.
Proof.
  unfold roi_out, roi_step. split.
  - repeat (case_match; simpl; try by intros ?%elem_of_nil).
    intros ->%list_elem_of_singleton.
    repeat match goal with
           | H : _ || _ = false |- _ => apply orb_false_elim in H as [? ?]
           | H : negb _ = false |- _ => apply negb_false_iff in H
           | H : bool_decide _ = true |- _ => apply bool_decide_eq_true in H
           | H : bool_decide _ = false |- _ => apply bool_decide_eq_false in H
           end.
    eauto 10.
  - intros (saleId & saleTx & H1 & H2 & H3 & H4 & H5 & ->).
    rewrite H1, H2, H3, H5. simpl.
    rewrite bool_decide_false by done. by apply list_elem_of_singleton.
Qed.

Lemma salesMap_Some ts k saleTx :
  salesMap ts !! k = Some saleTx →
  saleTx ∈ ts ∧ Tx.role saleTx = Role.sale ∧ Tx.purchase_id saleTx = k.
Proof.
  intros H%new_Map_lookup_Some.
  apply list_elem_of_fmap in H as (t & [= -> ->] & Ht).
  apply list_elem_of_In, filter_In in Ht as [Ht Hr].
  apply bool_decide_eq_true in Hr. by rewrite list_elem_of_In.
Qed.

Lemma salesMap_is_Some ts saleTx :
  saleTx ∈ ts → Tx.role saleTx = Role.sale →
  is_Some (salesMap ts !! Tx.purchase_id saleTx).
Proof.
  intros Ht Hr. apply new_Map_is_Some.
  rewrite <- list_fmap_compose. apply list_elem_of_fmap.
  exists saleTx. split; [done|].
  apply list_elem_of_In, filter_In. rewrite <- list_elem_of_In.
  split; [done|]. by apply bool_decide_eq_true.
Qed.



Lemma role_of_returns (e : element) :
  is_nullish e = false → ∃ role, role_of e = Return role.
Proof. destruct e as [t|[| | |]]; try done; by eexists. Qed.

Lemma role_of_throws (e : element) :
  is_nullish e = true → ∃ msg, role_of e = Throw (TypeError msg).
Proof. destruct e as [t|[| | |]]; try done; by eexists. Qed.

Lemma filter_sales_records (es : list element) :
  Forall (λ e, is_nullish e = false) es →
  filter_sales es
    = Return (List.filter (λ t, bool_decide (Tx.role t = Role.sale)) (records es)).
Proof.
  induction 1 as [|e es He _ IH]; [done|].
  cbn [filter_sales]. rewrite IH.
  destruct e as [t|v].
  - cbn [role_of records omap list_omap List.filter].
    fold (records es).
    destruct (decide (Tx.role t = Role.sale)) as [Hr|Hr].
    + rewrite Hr. by rewrite !bool_decide_eq_true_2.
    + rewrite (bool_decide_eq_false_2 (Tx.role t = Role.sale)) by done.
      rewrite bool_decide_eq_false_2 by congruence. done.
  - destruct (role_of_returns (primitive v) He) as [role ->]. done.
Qed.

Lemma roi_elements_records sales (es : list element) results :
  Forall (λ e, is_nullish e = false) es →
  roi_elements sales results es
    = Return (foldl (roi_step sales) results (records es)).
Proof.
  intros H. revert results.
  induction H as [|e es He _ IH]; intros results; [done|].
  cbn [roi_elements].
  destruct (role_of_returns e He) as [role ->].
  destruct e as [t|v]; apply IH.
Qed.

Lemma filter_sales_throws (es : list element) :
  Exists (λ e, is_nullish e = true) es →
  ∃ msg, filter_sales es = Throw (TypeError msg).
Proof.
  induction es as [|e es IH]; intros H; [by apply Exists_nil in H|].
  cbn [filter_sales].
  destruct (is_nullish e) eqn:He.
  - destruct (role_of_throws e He) as [msg ->]. by exists msg.
  - destruct (role_of_returns e He) as [role ->].
    apply Exists_cons in H as [H|H]; [congruence|].
    destruct (IH H) as [msg ->]. by exists msg.
Qed.

Lemma records_of_records (ts : list Tx.t) : records (record <$> ts) = ts.
Proof.
  unfold records. induction ts as [|t ts IH]; [done|]. cbn. by rewrite IH.
Qed.

(** C8, amended. The ROI calculator throws the error "transactions must
    be an array" exactly when its argument is not an array. On an array of
    transaction records, the empty one included, it returns; so it does when
    the array also holds primitive values other than null and undefined,
    which it passes over. On an array that holds null or undefined it does
    not return: it throws a TypeError. *)
Theorem calculateROI_rejects_non_arrays :
  (∀ a, calculateROI a = Throw (Error "transactions must be an array")
        ↔ isArray a = false) ∧
  (∀ ts, calculateROI (Arr ts) = Return (roi_results ts) ∧
         calculateROI (Elements (record <$> ts)) = Return (roi_results ts)) ∧
  calculateROI (Arr []) = Return [] ∧
  (∀ es, Forall (λ e, is_nullish e = false) es →
         calculateROI (Elements es) = Return (roi_results (records es))) ∧
  (∀ es, Exists (λ e, is_nullish e = true) es →
         ∃ msg, calculateROI (Elements es) = Throw (TypeError msg)).
Proof.
  assert (∀ es, Forall (λ e, is_nullish e = false) es →
            calculateROI (Elements es) = Return (roi_results (records es)))
    as Hplain.
  { intros es Hes. cbn [calculateROI].
    rewrite (filter_sales_records es Hes).
    by rewrite (roi_elements_records _ es [] Hes). }
  assert (∀ es, Exists (λ e, is_nullish e = true) es →
            ∃ msg, calculateROI (Elements es) = Throw (TypeError msg))
    as Hnull.
  { intros es Hes. cbn [calculateROI].
    destruct (filter_sales_throws es Hes) as [msg ->]. by exists msg. }
  split; [|split; [|split; [done|split; [exact Hplain|exact Hnull]]]].
  - intros [ts|es| |]; cbn [isArray]; split; try done.
    intros Hthrow. exfalso.
    destruct (decide (Forall (λ e, is_nullish e = false) es)) as [Hes|Hes].
    + by rewrite (Hplain es Hes) in Hthrow.
    + apply not_Forall_Exists in Hes; [|intros e; apply _].
      assert (Exists (λ e, is_nullish e = true) es) as Hex.
      { apply (Exists_impl _ _ _ Hes). intros e He. cbn in He.
        destruct (is_nullish e); [done|]. exfalso. by apply He. }
      destruct (Hnull es Hex) as [msg Hmsg]. congruence.
  - intros ts. split; [done|].
    rewrite Hplain.
    + by rewrite records_of_records.
    + apply Forall_fmap, Forall_true. done.
Qed.

Lemma calculateROI_rejects_non_arrays_witness :
  calculateROI (Elements [primitive (Int 7); primitive (Str "sale")]) = Return [] ∧
  ∃ msg, calculateROI (Elements [primitive (Int 7); primitive Undefined])
         = Throw (TypeError msg).
Proof.
  destruct calculateROI_rejects_non_arrays as (_ & _ & _ & Hplain & Hnull).
  split.
  - apply (Hplain [primitive (Int 7); primitive (Str "sale")]).
    by repeat constructor.
  - apply (Hnull [primitive (Int 7); primitive Undefined]).
    apply Exists_cons. right. apply Exists_cons. by left.
Defined.

(** C8, as stated, fails on the array [[null]]: it is an array, and the
    calculator throws on it when it reads the role of its element. *)
Lemma returns_on_every_array_counterexample :
  isArray (Elements [primitive Null]) = true ∧
  calculateROI (Elements [primitive Null])
    = Throw (TypeError "Cannot read properties of null (reading 'role')") ∧
  ¬ returns_on_every_array.
Proof.
  split; [done|]. split; [done|].
  intros H. destruct (H (Elements [primitive Null]) eq_refl) as [results Hr].
  discriminate Hr.
Qed.

(** ** Guarded divisions *)

Lemma gt_zero_false n : is_zero n → gt n (Num 0) = false.
Proof.
  destruct n as [q| |]; simpl; try done. intros Hq.
  unfold Qltb. apply negb_false_iff, Qle_bool_iff. rewrite Hq. apply Qle_refl.
Qed.

Lemma roi_record_zero purchaseTx saleTx :
  is_zero (Parsed.paid_total (Tx.purchase purchaseTx)) →
  Roi.roi_percent (roi_record purchaseTx saleTx) = Num 0.
Proof. intros Hz. unfold roi_record. simpl. by rewrite gt_zero_false. Qed.

Lemma aggregate_step_returns st t :
  valid_date (time_value (Tx.time_sold t)) = true →
  ∃ st', aggregate_step st t = Return st'.
Proof. intros Hv. unfold aggregate_step. rewrite Hv. simpl. case_match; eauto. Qed.

Lemma aggregate_returns st ts :
  dates_valid ts → ∃ st', aggregate st ts = Return st'.
Proof.
  intros Hv. revert st. induction Hv as [|t ts Ht _ IH]; intros st; simpl; [eauto|].
  destruct (aggregate_step_returns st t Ht) as [st' ->]. apply IH.
Qed.

(** C5. Whenever the buy price of a completed pair is 0 the ROI calculator
    returns 0 as its ROI percent, and whenever the total invested is 0 the
    statistics aggregator returns 0 as the overall ROI percent: both divisions
    are guarded, so the value is a number and neither NaN nor infinite.  (The
    aggregator returns when every timestamp is in the range of [Date].) *)
Theorem zero_cost_roi_is_zero (transactions : list Tx.t) (data : ParseResult.t) :
  (∃ results, calculateROI (Arr transactions) = Return results ∧
     ∀ r, r ∈ results → is_zero (Roi.buy_price r) →
          Roi.roi_percent r = Num 0 ∧ Roi.roi_percent r ≠ NaN ∧
          ∀ s, Roi.roi_percent r ≠ Inf s) ∧
  (dates_valid (ParseResult.transactions data) →
   ∃ o, calculateTransactionStatistics data = Return o ∧
     (is_zero (Overall.totalInvested o) →
      Overall.roiPercent o = Num 0 ∧ Overall.roiPercent o ≠ NaN ∧
      ∀ s, Overall.roiPercent o ≠ Inf s)).
Proof.
  split.
  - eexists. split; [done|]. unfold roi_results. rewrite roi_loop, app_nil_l.
    intros r (t & Hr & Ht)%list_elem_of_bind Hz.
    apply roi_out_Some in Hr as (k & saleTx & _ & _ & _ & _ & _ & ->).
    rewrite roi_record_zero by done. done.
  - intros Hv. unfold calculateTransactionStatistics.
    destruct (aggregate_returns aggregate_init _ Hv) as [st ->].
    eexists. split; [done|]. unfold overall. simpl. intros Hz.
    rewrite gt_zero_false by done. done.
Qed.

Lemma zero_cost_roi_is_zero_witness :
  let data := parse_entries analyzer free_item
                [("p1", my_purchase "X" "X2" 0); ("s1", my_sale "X2" (Some 15%Q))] in
  Roi.roi_percent <$> roi_results (ParseResult.transactions data) = [Num 0] ∧
  ∃ o, calculateTransactionStatistics data = Return o ∧
       Overall.roiPercent o = Num 0.
Proof.
  intros data.
  assert (Hv : dates_valid (ParseResult.transactions data))
    by (repeat constructor).
  destruct (zero_cost_roi_is_zero (ParseResult.transactions data) data)
    as [(results & Hr & Hz) Hstats].
  destruct (Hstats Hv) as (o & Ho & Hzo).
  split; [by vm_compute|].
  exists o. split; [exact Ho|]. apply Hzo.
  vm_compute in Ho. injection Ho as <-. by vm_compute.
Defined.

(** ** A missing received amount *)

Lemma add_NaN_r n : add n NaN = NaN.
Proof. by destruct n. Qed.

Lemma add_NaN_l n : add NaN n = NaN.
Proof. by destruct n. Qed.

(** Once a received total is NaN it stays NaN. *)
Lemma aggregate_step_NaN st t st' name :
  aggregate_step st t = Return st' →
  (Agg.totalReceived st = NaN → Agg.totalReceived st' = NaN) ∧
  (item_NaN st name → item_NaN st' name).
Proof.
  unfold aggregate_step, item_NaN. case_match; [done|].
  destruct (Tx.role t); intros [= <-]; simpl.
  - split; [done|]. intros (item & Hi & Hn).
    destruct (decide (Parsed.market_name (Tx.purchase t) = name)) as [->|Hne].
    + rewrite lookup_insert_eq. eexists. split; [done|].
      rewrite Hi. simpl. done.
    + rewrite lookup_insert_ne by done. eauto.
  - split; [by intros ->|]. intros (item & Hi & Hn).
    destruct (decide (Parsed.market_name (Tx.purchase t) = name)) as [->|Hne].
    + rewrite lookup_insert_eq. eexists. split; [done|].
      rewrite Hi. simpl. rewrite Hn. apply add_NaN_l.
    + rewrite lookup_insert_ne by done. eauto.
Qed.

Lemma aggregate_NaN st ts st' name :
  aggregate st ts = Return st' →
  (Agg.totalReceived st = NaN → Agg.totalReceived st' = NaN) ∧
  (item_NaN st name → item_NaN st' name).
Proof.
  revert st. induction ts as [|t ts IH]; intros st; simpl.
  - by intros [= <-].
  - destruct (aggregate_step st t) as [st1|] eqn:E; [|done].
    intros H. destruct (aggregate_step_NaN _ _ _ name E), (IH _ H). auto.
Qed.

(** A sale without received amount makes both totals NaN. *)
Lemma aggregate_step_missing st t st' :
  Tx.role t = Role.sale →
  Raw.received_amount (Parsed.raw (Tx.purchase t)) = None →
  aggregate_step st t = Return st' →
  Agg.totalReceived st' = NaN ∧
  item_NaN st' (Parsed.market_name (Tx.purchase t)).
Proof.
  unfold aggregate_step, item_NaN. intros -> ->. case_match; [done|].
  intros [= <-]. simpl. rewrite add_NaN_r. split; [done|].
  rewrite lookup_insert_eq. eexists. split; [done|]. simpl. apply add_NaN_r.
Qed.

Lemma aggregate_missing st ts st' t :
  t ∈ ts → Tx.role t = Role.sale →
  Raw.received_amount (Parsed.raw (Tx.purchase t)) = None →
  aggregate st ts = Return st' →
  Agg.totalReceived st' = NaN ∧
  item_NaN st' (Parsed.market_name (Tx.purchase t)).
Proof.
  intros Ht Hr Hm. revert st.
  induction ts as [|t' ts IH]; intros st; [by apply elem_of_nil in Ht|].
  simpl. destruct (aggregate_step st t') as [st1|] eqn:E; [|done]. intros H.
  apply elem_of_cons in Ht as [<-|Ht].
  - destruct (aggregate_step_missing _ _ _ Hr Hm E) as [H1 H2].
    destruct (aggregate_NaN _ _ _ (Parsed.market_name (Tx.purchase t)) H) as [H3 H4].
    auto.
  - by apply (IH Ht st1).
Qed.

(** C10. The statistics aggregator adds the received amount of a sale as it
    finds it in the raw entry: when the entry of some sale record has none,
    the received total of its item and the overall received total are NaN,
    and so is the total profit, whereas the ROI calculator takes 0 as the
    sell price of such a sale.  (The aggregator returns when every timestamp
    is in the range of [Date].) *)
Theorem missing_received_amount_is_NaN (data : ParseResult.t) (t : Tx.t) :
  dates_valid (ParseResult.transactions data) →
  t ∈ ParseResult.transactions data →
  Tx.role t = Role.sale →
  Raw.received_amount (Parsed.raw (Tx.purchase t)) = None →
  (∃ st o item,
     aggregate aggregate_init (ParseResult.transactions data) = Return st ∧
     calculateTransactionStatistics data = Return o ∧
     Agg.itemStats st !! Parsed.market_name (Tx.purchase t) = Some item ∧
     ItemStat.totalReceived item = NaN ∧
     Overall.totalReceived o = NaN ∧
     Overall.totalProfit o = NaN) ∧
  (∀ purchaseTx, Roi.sell_price (roi_record purchaseTx t) = Num 0).
Proof.
  intros Hv Ht Hr Hm. split.
  - unfold calculateTransactionStatistics.
    destruct (aggregate_returns aggregate_init _ Hv) as [st Hst]. rewrite Hst.
    destruct (aggregate_missing _ _ _ _ Ht Hr Hm Hst) as [Htot (item & Hi & Hn)].
    exists st, (overall data st), item. repeat split; try done.
    unfold overall. simpl. rewrite Htot. apply add_NaN_l.
  - intros purchaseTx. unfold roi_record. simpl. by rewrite Hm.
Qed.

Lemma missing_received_amount_is_NaN_witness :
  let data := parse_entries analyzer sale_without_amount [("s1", my_sale "Z9" None)] in
  ∃ o, calculateTransactionStatistics data = Return o ∧
       Overall.totalReceived o = NaN ∧ Overall.totalProfit o = NaN.
Proof.
  intros data.
  assert (Hv : dates_valid (ParseResult.transactions data))
    by (repeat constructor).
  destruct (missing_received_amount_is_NaN data
              (received_sale (parsed_entry (String (steamId analyzer))
                                sale_without_amount ("s1", my_sale "Z9" None)))
              Hv)
    as [(st & o & item & _ & Ho & _ & _ & H1 & H2) _];
    [vm_compute; left | done | done |].
  exists o. repeat split; assumption.
Defined.

(** ** Missing collections *)

Lemma transactions_origin c t :
  t ∈ transactions (link c) →
  Tx.purchase t ∈ accountPurchases c ∨ Tx.purchase t ∈ accountSales c.
Proof.
  rewrite link_transactions, elem_of_app. intros [Ht|Ht].
  - apply list_elem_of_bind in Ht as (p & Ht & Hp). unfold link_out in Ht.
    destruct (salesByAssetId _ !! _) as [s|] eqn:E;
      repeat (apply elem_of_cons in Ht as [->|Ht]); simpl; auto;
      try (by apply elem_of_nil in Ht).
    right. by apply salesByAssetId_Some in E as [? _].
  - apply list_elem_of_fmap in Ht as (s & -> & Hs). right. simpl.
    apply list_elem_of_In, filter_In in Hs as [Hs _]. by apply list_elem_of_In.
Qed.

Lemma classified_origin mySteamId h entries p :
  p ∈ accountPurchases (classify mySteamId h entries)
  ∨ p ∈ accountSales (classify mySteamId h entries) →
  ∃ e, e ∈ entries ∧ p = parsed_entry mySteamId h e.
Proof.
  rewrite classify_spec. simpl.
  intros [(e & -> & He)%list_elem_of_fmap | (e & -> & He)%list_elem_of_fmap];
    apply list_elem_of_In, filter_In in He as [He _]; exists e;
    by rewrite list_elem_of_In.
Qed.

Lemma name_without_catalog mySteamId h e :
  History.assets h = None →
  Parsed.market_name (parsed_entry mySteamId h e)
  = or_str (Raw.market_name e.2) "Unknown Item".
Proof.
  intros Ha. unfold parsed_entry, parsed, itemInfo, contextAssets. simpl.
  rewrite Ha. by destruct (_ && _).
Qed.

(** C7, amended. The parser throws whenever the history or its purchases
    collection is absent, and returns whenever the purchases collection is
    present, with or without catalog; without catalog every display name is
    the market name of the entry itself when it has a non-empty one, and the
    placeholder "Unknown Item" otherwise. *)
Theorem parser_requires_purchases_only (self : MarketAnalyzer) (h : History.t) :
  throws (parseMarketHistory self None) ∧
  (History.purchases h = None → throws (parseMarketHistory self (Some h))) ∧
  (∀ entries, History.purchases h = Some entries →
     let r := parse_entries self h entries in
     parseMarketHistory self (Some h) = Return r ∧
     (History.assets h = None →
      ∀ t, t ∈ ParseResult.transactions r →
        Parsed.market_name (Tx.purchase t)
          = or_str (Raw.market_name (Parsed.raw (Tx.purchase t))) "Unknown Item" ∧
        (Raw.market_name (Parsed.raw (Tx.purchase t)) = None →
         Parsed.market_name (Tx.purchase t) = "Unknown Item"))).
Proof.
  split; [done|]. split.
  - intros Hp. unfold parseMarketHistory. by rewrite Hp.
  - intros entries Hp r. split; [unfold parseMarketHistory; by rewrite Hp|].
    intros Ha t Ht.
    apply transactions_origin, classified_origin in Ht as (e & He & ->).
    rewrite name_without_catalog by done. split; [done|].
    simpl. by intros ->.
Qed.

Lemma parser_requires_purchases_only_witness :
  let entries := [("p1", my_purchase "X" "X2" 10); ("s1", my_sale "X2" (Some 15%Q))] in
  let r := parse_entries analyzer scenario_A entries in
  parseMarketHistory analyzer (Some scenario_A) = Return r ∧
  ∀ t, t ∈ ParseResult.transactions r →
       Parsed.market_name (Tx.purchase t) = "Unknown Item".
Proof.
  intros entries r.
  destruct (parser_requires_purchases_only analyzer scenario_A) as (_ & _ & H).
  destruct (H entries eq_refl) as [Hr Hn]. split; [exact Hr|].
  intros t Ht. destruct (Hn eq_refl t Ht) as [_ Hnone]. apply Hnone.
  vm_compute in Ht.
  repeat (apply elem_of_cons in Ht as [->|Ht]); try done.
  by apply elem_of_nil in Ht.
Defined.

(** C7, as stated, fails on a ledger without catalog whose entry carries a
    market name of its own: the display name is that name, not the
    placeholder. *)
Lemma names_degrade_to_placeholder_counterexample :
  History.assets named_entry = None ∧
  ∃ r, parseMarketHistory analyzer (Some named_entry) = Return r ∧
       (λ t, Parsed.market_name (Tx.purchase t)) <$> ParseResult.transactions r
       = ["AK-47 | Redline"] ∧
       ¬ names_degrade_to_placeholder r.
Proof.
  split; [done|]. eexists. split; [reflexivity|]. split; [by vm_compute|].
  intros H.
  specialize (H (uncompleted_purchase
                   (parsed_entry (String (steamId analyzer)) named_entry
                      ("p1", entry "76561198000000001" (Str "X") (Str "X2")
                               (Some "AK-47 | Redline") (Some 10%Q) None)))).
  assert (Habs : "AK-47 | Redline" = "Unknown Item")
    by (apply H; vm_compute; left).
  discriminate Habs.
Qed.

(** ** Doubles *)


Lemma nearest_even_close (q : Q) :
  (Qabs (inject_Z (nearest_even q) - q) <= 1 # 2)%Q.
Proof.
  unfold nearest_even.
  pose proof (Qfloor_le q) as Hl. pose proof (Qlt_floor q) as Hu.
  rewrite inject_Z_plus in Hu. change (inject_Z 1) with 1%Q in Hu.
  apply Qabs_Qle_condition.
  destruct (Qcompare_spec (q - inject_Z (Qfloor q)) (1 # 2)) as [He|Hlt|Hgt].
  - destruct (Z.even (Qfloor q)); rewrite ?inject_Z_plus;
      change (inject_Z 1) with 1%Q; lra.
  - lra.
  - rewrite inject_Z_plus. change (inject_Z 1) with 1%Q. lra.
Qed.

Lemma nearest_even_nonneg (q : Q) : (0 <= q)%Q → (0 ≤ nearest_even q)%Z.
Proof.
  intros Hq. unfold nearest_even.
  assert (0 ≤ Qfloor q)%Z as Hf.
  { change 0%Z with (Qfloor 0). by apply Qfloor_resp_le. }
  destruct (Qcompare _ _); [destruct (Z.even _)| |]; lia.
Qed.



Lemma pow2_pos (e : Z) : (0 < 2 ^ e)%Q.
Proof. by apply Qpower_0_lt. Qed.

Lemma pow2_succ (e : Z) : (2 ^ (e + 1) == 2 * 2 ^ e)%Q.
Proof. rewrite Qpower_plus by done. change (2 ^ 1)%Q with 2%Q. lra. Qed.

Lemma pow2_le (e e' : Z) : (e ≤ e')%Z → (2 ^ e <= 2 ^ e')%Q.
Proof. intros H. by apply Qpower_le_compat_l. Qed.

Lemma pow2_lt_inv (e e' : Z) : (2 ^ e < 2 ^ e')%Q → (e < e')%Z.
Proof. intros H. by apply (Qpower_lt_compat_l_inv 2). Qed.

Lemma pow2_Z (e : Z) : (0 ≤ e)%Z → (2 ^ e == inject_Z (2 ^ e))%Q.
Proof. intros H. by rewrite Zpower_Qpower. Qed.

(** The binade of a positive number is its place among the powers of 2. *)
Lemma binade_spec (q : Q) :
  (0 < q)%Q → (2 ^ binade q <= q)%Q ∧ (q < 2 ^ (binade q + 1))%Q.
Proof.
  intros Hq. destruct q as [a d]. unfold binade. cbn [Qnum Qden].
  assert (0 < a)%Z as Ha by (unfold Qlt in Hq; cbn in Hq; lia).
  set (la := Z.log2 a). set (ld := Z.log2 (Z.pos d)).
  destruct (Z.log2_spec a Ha) as [Ha1 Ha2]. fold la in Ha1, Ha2.
  destruct (Z.log2_spec (Z.pos d) ltac:(lia)) as [Hd1 Hd2]. fold ld in Hd1, Hd2.
  assert (0 ≤ la)%Z as Hla by apply Z.log2_nonneg.
  assert (0 ≤ ld)%Z as Hld by apply Z.log2_nonneg.
  assert (a # d == inject_Z a / inject_Z (Z.pos d))%Q as Hq' by apply Qmake_Qdiv.
  assert (0 < inject_Z (Z.pos d))%Q as Hdpos
    by (change 0%Q with (inject_Z 0); rewrite <- Zlt_Qlt; lia).
  assert (2 ^ la <= inject_Z a)%Q as Ba1
    by (rewrite pow2_Z by done; rewrite <- Zle_Qle; done).
  assert (inject_Z a < 2 ^ (la + 1))%Q as Ba2.
  { rewrite pow2_Z by lia. rewrite <- Zlt_Qlt. by rewrite <- Z.add_1_r in Ha2. }
  assert (2 ^ ld <= inject_Z (Z.pos d))%Q as Bd1
    by (rewrite pow2_Z by done; rewrite <- Zle_Qle; done).
  assert (inject_Z (Z.pos d) < 2 ^ (ld + 1))%Q as Bd2.
  { rewrite pow2_Z by lia. rewrite <- Zlt_Qlt. by rewrite <- Z.add_1_r in Hd2. }
  assert (2 ^ (la - ld - 1) <= a # d)%Q as Hlow.
  { rewrite Hq'. apply Qle_shift_div_l; [done|].
    replace (la - ld - 1)%Z with (la - (ld + 1))%Z by lia.
    rewrite Qpower_minus by done.
    pose proof (pow2_pos (ld + 1)) as Hp. pose proof (pow2_pos la) as Hp'.
    apply (Qle_trans _ (2 ^ la)); [|done].
    unfold Qdiv. rewrite <- Qmult_assoc.
    rewrite <- (Qmult_1_r (2 ^ la)) at 2.
    apply Qmult_le_l; [done|].
    rewrite Qmult_comm. apply Qle_shift_div_r; [done|]. lra. }
  assert (a # d < 2 ^ (la - ld + 1))%Q as Hhigh.
  { rewrite Hq'. apply Qlt_shift_div_r; [done|].
    replace (la - ld + 1)%Z with (la + 1 - ld)%Z by lia.
    rewrite Qpower_minus by done.
    pose proof (pow2_pos ld) as Hp. pose proof (pow2_pos (la + 1)) as Hp'.
    apply (Qlt_le_trans _ (2 ^ (la + 1))); [done|].
    unfold Qdiv. rewrite <- Qmult_assoc.
    rewrite <- (Qmult_1_r (2 ^ (la + 1))) at 1.
    apply Qmult_le_l; [done|].
    rewrite Qmult_comm. apply Qle_shift_div_l; [done|]. lra. }
  destruct (Qle_bool (2 ^ (la - ld)) (a # d)) eqn:Hb.
  - apply Qle_bool_iff in Hb. done.
  - split.
    + done.
    + replace (la - ld - 1 + 1)%Z with (la - ld)%Z by lia.
      apply Qnot_le_lt. intros Hle. apply Qle_bool_iff in Hle. congruence.
Qed.

Lemma Qabs_nonneg_eq (q : Q) : (0 <= q)%Q → Qabs q = q.
Proof.
  destruct q as [a d]. unfold Qle, Qabs. cbn. intros H.
  f_equal. apply Z.abs_eq. lia.
Qed.

Lemma Qltb_nonneg (q : Q) : (0 <= q)%Q → Qltb q 0 = false.
Proof. intros H. unfold Qltb. apply negb_false_iff. by apply Qle_bool_iff. Qed.

(** Rounding a number below [2 ^ k] moves it by half a unit in the last place
    at most. *)
Lemma round_double_close (q : Q) (k : Z) :
  (0 <= q)%Q → (q < 2 ^ k)%Q → (-1021 ≤ k ≤ 1023)%Z →
  ∃ r, round_double q = Num r ∧ (0 <= r)%Q ∧
       (Qabs (r - q) <= 2 ^ (k - 54))%Q.
Proof.
  intros Hq Hk Hrange. unfold round_double.
  pose proof (pow2_pos (k - 54)) as Hkpos.
  destruct (Qeq_bool q 0) eqn:Hz.
  - apply Qeq_bool_eq in Hz. exists 0%Q. split; [done|]. split; [done|].
    apply Qabs_Qle_condition. lra.
  - assert (0 < q)%Q as Hpos.
    { apply Qeq_bool_neq in Hz. lra. }
    rewrite (Qabs_nonneg_eq q Hq), (Qltb_nonneg q Hq).
    destruct (binade_spec q Hpos) as [Hb _].
    assert (binade q < k)%Z as Hbk
      by (apply pow2_lt_inv; by apply (Qle_lt_trans _ q)).
    set (e := Z.max (binade q - 52) (-1074)).
    assert (e ≤ k - 53)%Z as He by lia.
    pose proof (pow2_pos e) as HP.
    pose proof (pow2_le e (k - 53) He) as HPk.
    assert (2 ^ (k - 53) == 2 * 2 ^ (k - 54))%Q as Hk53.
    { replace (k - 53)%Z with (k - 54 + 1)%Z by lia. apply pow2_succ. }
    set (m := nearest_even (q / 2 ^ e)).
    pose proof (nearest_even_close (q / 2 ^ e)) as Hm. fold m in Hm.
    apply Qabs_Qle_condition in Hm.
    assert (0 ≤ m)%Z as Hm0.
    { apply nearest_even_nonneg. apply Qle_shift_div_l; [done|]. lra. }
    assert (0 <= inject_Z m)%Q as Hm0'
      by (change 0%Q with (inject_Z 0); by rewrite <- Zle_Qle).
    assert (q == q / 2 ^ e * 2 ^ e)%Q as Hqe by (field; lra).
    set (x := (q / 2 ^ e)%Q) in *.
    set (P := (2 ^ e)%Q) in *.
    assert (- (P * (1 # 2)) <= inject_Z m * P - q)%Q as Hlow.
    { rewrite Hqe.
      assert (inject_Z m * P - x * P == (inject_Z m - x) * P)%Q as -> by ring.
      assert (- (P * (1 # 2)) == (- (1 # 2)) * P)%Q as -> by ring.
      apply Qmult_le_compat_r; [tauto|lra]. }
    assert (inject_Z m * P - q <= P * (1 # 2))%Q as Hhigh.
    { rewrite Hqe.
      assert (inject_Z m * P - x * P == (inject_Z m - x) * P)%Q as -> by ring.
      rewrite (Qmult_comm P). apply Qmult_le_compat_r; [tauto|lra]. }
    assert (2 ^ k <= 2 ^ 1023)%Q as Hk1023 by (apply pow2_le; lia).
    assert (2 ^ k == 2 ^ 54 * 2 ^ (k - 54))%Q as Hk54.
    { rewrite <- Qpower_plus by done. by replace (54 + (k - 54))%Z with k by lia. }
    assert (2 ^ 1024 == 2 * 2 ^ 1023)%Q as H1024 by (apply (pow2_succ 1023)).
    assert (1 <= 2 ^ 54)%Q as H54 by (apply (pow2_le 0 54); lia).
    assert (2 ^ (k - 54) <= 2 ^ k)%Q as Hkk by (apply pow2_le; lia).
    assert (Qle_bool (2 ^ 1024) (inject_Z m * P) = false) as ->.
    { destruct (Qle_bool _ _) eqn:Hle; [|done].
      apply Qle_bool_iff in Hle. lra. }
    exists (Qred (inject_Z m * P)). split; [done|].
    rewrite Qred_correct. split.
    + apply Qmult_le_0_compat; lra.
    + apply Qabs_Qle_condition. lra.
Qed.

(** The rounding on numbers that are well known: one tenth is no double, and
    the sum of the doubles next to 0.1 and 0.2 is 0.30000000000000004, which
    is not the double next to 0.3; the sum of two doubles near the largest
    is an infinity. *)
Lemma doubles_well_known :
  round_double (1 # 10) = Num (3602879701896397 # 36028797018963968) ∧
  add_double (round_double (1 # 10)) (round_double (2 # 10))
    = Num (1351079888211149 # 4503599627370496) ∧
  round_double (3 # 10) = Num (5404319552844595 # 18014398509481984) ∧
  add_double (round_double (inject_Z (10 ^ 308)))
             (round_double (inject_Z (10 ^ 308))) = Inf false.
Proof. by vm_compute. Qed.

(** The share of [count] in [total], in percent, as the doubles give it: it
    is off the exact share by at most [2 ^ -45]. *)
Lemma percent_double (count total : nat) :
  0 < total → count ≤ total →
  ∃ r, mul_double (div_double (of_nat count) (of_nat total)) (Num 100) = Num r ∧
       (0 <= r)%Q ∧
       (Qabs (r - inject_Z (100 * Z.of_nat count) / inject_Z (Z.of_nat total))
        <= 2 ^ (-45))%Q.
Proof.
  intros Ht Hc. unfold div_double, mul_double, of_nat, div.
  assert (Hs : Qsign (inject_Z (Z.of_nat total)) = 1%Z)
    by (unfold Qsign, inject_Z; cbn [Qnum]; apply Z.sgn_pos; lia).
  rewrite Hs. cbn [rounded].
  set (c := inject_Z (Z.of_nat count)). set (t := inject_Z (Z.of_nat total)).
  assert (0 <= c)%Q as Hc0
    by (subst c; change 0%Q with (inject_Z 0); rewrite <- Zle_Qle; lia).
  assert (0 < t)%Q as Ht0
    by (subst t; change 0%Q with (inject_Z 0); rewrite <- Zlt_Qlt; lia).
  assert (c <= t)%Q as Hct by (subst c t; rewrite <- Zle_Qle; lia).
  assert (0 <= c / t)%Q as Hq0 by (apply Qle_shift_div_l; [done|lra]).
  assert (c / t <= 1)%Q as Hq1 by (apply Qle_shift_div_r; [done|lra]).
  destruct (round_double_close (Qred (c / t)) 1) as (r1 & -> & Hr1 & Hd1).
  { by rewrite Qred_correct. }
  { rewrite Qred_correct. change (2 ^ 1)%Q with 2%Q. lra. }
  { lia. }
  rewrite Qred_correct in Hd1. apply Qabs_Qle_condition in Hd1.
  change (2 ^ (1 - 54))%Q with (1 # 9007199254740992)%Q in Hd1.
  cbn [mul rounded].
  destruct (round_double_close (Qred (r1 * 100)) 7) as (r2 & -> & Hr2 & Hd2).
  { rewrite Qred_correct. lra. }
  { rewrite Qred_correct. change (2 ^ 7)%Q with 128%Q. lra. }
  { lia. }
  rewrite Qred_correct in Hd2. apply Qabs_Qle_condition in Hd2.
  change (2 ^ (7 - 54))%Q with (1 # 140737488355328)%Q in Hd2.
  exists r2. split; [done|]. split; [done|].
  assert (inject_Z (100 * Z.of_nat count) / t == 100 * (c / t))%Q as ->.
  { subst c. rewrite inject_Z_mult. field. lra. }
  change (2 ^ (-45))%Q with (1 # 35184372088832)%Q.
  apply Qabs_Qle_condition. lra.
Qed.

(** What [toFixed(2)] prints of a number that is not negative is within half
    a hundredth of it. *)
Lemma hundredths_close (r : Q) :
  (0 <= r)%Q →
  (0 ≤ hundredths_abs r)%Z ∧
  (Qabs (inject_Z (hundredths_abs r) - 100 * r) <= 1 # 2)%Q.
Proof.
  intros Hr. unfold hundredths_abs. rewrite (Qabs_nonneg_eq r Hr).
  pose proof (Qfloor_le (r * 100 + (1 # 2))) as Hl.
  pose proof (Qlt_floor (r * 100 + (1 # 2))) as Hu.
  rewrite inject_Z_plus in Hu. change (inject_Z 1) with 1%Q in Hu.
  split.
  - change 0%Z with (Qfloor 0). apply Qfloor_resp_le. lra.
  - apply Qabs_Qle_condition. lra.
Qed.

(** Two shares that make up the whole are printed as hundredths that add up
    to 100.00, give or take one hundredth. *)
Lemma printed_shares (a b : Z) (m u t : Z) (x y : Q) :
  (0 < t)%Z → (m + u = t)%Z →
  (Qabs (x - inject_Z (100 * m) / inject_Z t) <= 2 ^ (-45))%Q →
  (Qabs (y - inject_Z (100 * u) / inject_Z t) <= 2 ^ (-45))%Q →
  (Qabs (inject_Z a - 100 * x) <= 1 # 2)%Q →
  (Qabs (inject_Z b - 100 * y) <= 1 # 2)%Q →
  (Qabs (inject_Z a - inject_Z (10000 * m) / inject_Z t) <= 501 # 1000)%Q ∧
  (Qabs (inject_Z b - inject_Z (10000 * u) / inject_Z t) <= 501 # 1000)%Q ∧
  (9999 ≤ a + b ≤ 10001)%Z.
Proof.
  intros Ht Hsum Hx Hy Ha Hb.
  change (2 ^ (-45))%Q with (1 # 35184372088832)%Q in Hx, Hy.
  apply Qabs_Qle_condition in Hx, Hy, Ha, Hb.
  assert (0 < inject_Z t)%Q as Ht0
    by (change 0%Q with (inject_Z 0); rewrite <- Zlt_Qlt; lia).
  set (p := (inject_Z m / inject_Z t)%Q).
  set (q := (inject_Z u / inject_Z t)%Q).
  assert (inject_Z (100 * m) / inject_Z t == 100 * p)%Q as E1
    by (subst p; rewrite inject_Z_mult; field; lra).
  assert (inject_Z (100 * u) / inject_Z t == 100 * q)%Q as E2
    by (subst q; rewrite inject_Z_mult; field; lra).
  assert (inject_Z (10000 * m) / inject_Z t == 10000 * p)%Q as E3
    by (subst p; rewrite inject_Z_mult; field; lra).
  assert (inject_Z (10000 * u) / inject_Z t == 10000 * q)%Q as E4
    by (subst q; rewrite inject_Z_mult; field; lra).
  assert (p + q == 1)%Q as Epq.
  { subst p q. rewrite <- Hsum, inject_Z_plus. field.
    rewrite <- inject_Z_plus, Hsum. lra. }
  rewrite E1 in Hx. rewrite E2 in Hy. rewrite E3, E4.
  split; [apply Qabs_Qle_condition; lra|].
  split; [apply Qabs_Qle_condition; lra|].
  assert (inject_Z 9998 < inject_Z (a + b))%Q as H1
    by (rewrite inject_Z_plus; change (inject_Z 9998) with 9998%Q; lra).
  assert (inject_Z (a + b) < inject_Z 10002)%Q as H2
    by (rewrite inject_Z_plus; change (inject_Z 10002) with 10002%Q; lra).
  rewrite <- Zlt_Qlt in H1, H2. lia.
Qed.



(** ** Percentages of the holdings matcher *)

Lemma percentage_pos (count total : nat) :
  0 < total →
  percentage count total
  = toFixed2 (mul_double (div_double (of_nat count) (of_nat total)) (Num 100))
      +:+ "%".
Proof. destruct total; [lia|done]. Qed.

Lemma match_loop_length inv acc l :
  length (foldl (match_step inv) acc l).1 + length (foldl (match_step inv) acc l).2
  = length acc.1 + length acc.2 + length l.
Proof.
  revert acc. induction l as [|p l IH]; intros acc; simpl; [lia|].
  rewrite IH. unfold match_step. destruct (inv !! _); simpl;
    rewrite length_app; simpl; lia.
Qed.

(** The percentages are those of the doubles: where the exact share lies
    half way between two hundredths, or next to it, the double decides. Of
    160 purchases with 23 matched the share is 14.375 percent and the string
    "14.37%"; of 4000 with 3 matched the two strings add up to 99.99. *)
Lemma percentage_of_doubles :
  percentage 23 160 = "14.37%" ∧
  percentage 3 4000 = "0.07%" ∧ percentage 3997 4000 = "99.92%" ∧
  percentage 1 3 = "33.33%" ∧ percentage 2 3 = "66.67%".
Proof. by vm_compute. Qed.

(** C6. The matched and the unmatched count add up to the number of eligible
    purchases.  When there is none, both percentage strings are "0%".
    Otherwise they are two-decimal renderings of the shares: each is within
    0.00501 of the exact share in percent, and in hundredths of a percent
    the two add up to 9999, 10000 or 10001, that is to 100% within the
    rounding of the last digit. *)
Theorem match_percentages (transactions : list Tx.t)
    (inventory : list InventoryItem.t) :
  let r := matchInventoryWithPurchases transactions inventory in
  let total := MatchResult.total_purchases r in
  total = length (eligible_purchases transactions) ∧
  MatchResult.matched_count r + MatchResult.unmatched_count r = total ∧
  (total = 0 →
   MatchResult.matched_percentage r = "0%" ∧
   MatchResult.unmatched_percentage r = "0%") ∧
  (0 < total →
   ∃ a b : Z,
     MatchResult.matched_percentage r = fixed2 false a +:+ "%" ∧
     MatchResult.unmatched_percentage r = fixed2 false b +:+ "%" ∧
     (0 ≤ a)%Z ∧ (0 ≤ b)%Z ∧
     (Qabs (inject_Z a
            - inject_Z (10000 * Z.of_nat (MatchResult.matched_count r))
              / inject_Z (Z.of_nat total)) <= 501 # 1000)%Q ∧
     (Qabs (inject_Z b
            - inject_Z (10000 * Z.of_nat (MatchResult.unmatched_count r))
              / inject_Z (Z.of_nat total)) <= 501 # 1000)%Q ∧
     (9999 ≤ a + b ≤ 10001)%Z).
Proof.
  intros r total. subst total r. unfold matchInventoryWithPurchases.
  cbn [MatchResult.total_purchases MatchResult.matched_count
       MatchResult.unmatched_count MatchResult.matched_percentage
       MatchResult.unmatched_percentage].
  set (ps := eligible_purchases transactions).
  set (res := foldl _ _ ps).
  assert (Hlen : length res.1 + length res.2 = length ps).
  { subst res. rewrite match_loop_length. simpl. lia. }
  split; [done|]. split; [done|]. split.
  - intros ->. done.
  - intros Hpos. rewrite !percentage_pos by done.
    destruct (percent_double (length res.1) (length ps) Hpos ltac:(lia))
      as (x & -> & Hx0 & Hx).
    destruct (percent_double (length res.2) (length ps) Hpos ltac:(lia))
      as (y & -> & Hy0 & Hy).
    destruct (hundredths_close x Hx0) as [Ha0 Ha].
    destruct (hundredths_close y Hy0) as [Hb0 Hb].
    exists (hundredths_abs x), (hundredths_abs y).
    unfold toFixed2. rewrite (Qltb_nonneg x Hx0), (Qltb_nonneg y Hy0).
    split; [done|]. split; [done|]. split; [done|]. split; [done|].
    apply (printed_shares _ _ _ _ _ x y); try done; lia.
Qed.

Lemma match_percentages_witness :
  let h := {| History.purchases := Some three_purchases; History.assets := None |} in
  let r := matchInventoryWithPurchases
             (ParseResult.transactions (parse_entries analyzer h three_purchases))
             holdings in
  MatchResult.matched_percentage r = "33.33%" ∧
  MatchResult.unmatched_percentage r = "66.67%" ∧
  ∃ a b : Z,
    MatchResult.matched_percentage r = fixed2 false a +:+ "%" ∧
    MatchResult.unmatched_percentage r = fixed2 false b +:+ "%" ∧
    (9999 ≤ a + b ≤ 10001)%Z.
Proof.
  intros h r.
  destruct (match_percentages
              (ParseResult.transactions (parse_entries analyzer h three_purchases))
              holdings) as (_ & _ & _ & H).
  destruct H as (a & b & Ha & Hb & _ & _ & _ & _ & Hab); [vm_compute; lia|].
  split; [by vm_compute|]. split; [by vm_compute|].
  exists a, b. repeat split; (assumption || lia).
Defined.

(** * Further properties of the analyzer *)

(** ** Shape of the parsed ledger *)

(** X1. The parser splits the ledger entries in two: the purchases are the
    entries whose purchaser is the account, the sales are all others, and
    the two counts add up to the number of entries, which is the
    totalTransactions of the result. *)
Theorem ledger_is_partitioned (self : MarketAnalyzer)
    (assets : option (gmap string (gmap string (list (string * Item.t)))))
    (entries : list (string * Raw.t)) :
  let h := {| History.purchases := Some entries; History.assets := assets |} in
  let mySteamId := String (steamId self) in
  let r := parse_entries self h entries in
  parseMarketHistory self (Some h) = Return r ∧
  ParseResult.purchases_count r = length (List.filter (mine mySteamId) entries) ∧
  ParseResult.sales_count r
    = length (List.filter (λ e, negb (mine mySteamId e)) entries) ∧
  ParseResult.purchases_count r + ParseResult.sales_count r = length entries ∧
  ParseResult.totalTransactions r = length entries.
Proof.
  intros h mySteamId r. split; [done|].
  subst r. unfold parse_entries. simpl. fold mySteamId.
  rewrite classify_spec. simpl. rewrite !length_fmap.
  pose proof (List.filter_length (mine mySteamId) entries).
  repeat split; lia.
Qed.

Lemma transactions_forms c t :
  t ∈ transactions (link c) →
  (∃ p s, p ∈ accountPurchases c ∧ s ∈ accountSales c ∧
          salesByAssetId (accountSales c) !! String (Parsed.new_id p) = Some s ∧
          (t = completed_purchase p s ∨ t = completed_sale p s)) ∨
  (∃ p, p ∈ accountPurchases c ∧ t = uncompleted_purchase p) ∨
  (∃ s, s ∈ accountSales c ∧ t = received_sale s).
Proof.
  rewrite link_transactions, elem_of_app. intros [Ht|Ht].
  - apply list_elem_of_bind in Ht as (p & Ht & Hp). unfold link_out in Ht.
    destruct (salesByAssetId _ !! _) as [s|] eqn:E.
    + left. exists p, s. pose proof (salesByAssetId_Some _ _ _ E) as [Hs _].
      repeat (apply elem_of_cons in Ht as [->|Ht]); auto.
      by apply elem_of_nil in Ht.
    + right. left. exists p.
      repeat (apply elem_of_cons in Ht as [->|Ht]); auto.
      by apply elem_of_nil in Ht.
  - apply list_elem_of_fmap in Ht as (s & -> & Hs). right. right. exists s.
    apply list_elem_of_In, filter_In in Hs as [Hs _]. by rewrite list_elem_of_In.
Qed.

Lemma classified_types mySteamId h entries p :
  (p ∈ accountPurchases (classify mySteamId h entries) →
   Parsed.type p = Role.purchase) ∧
  (p ∈ accountSales (classify mySteamId h entries) →
   Parsed.type p = Role.sale).
Proof.
  rewrite classify_spec. simpl.
  split; intros (e & -> & He)%list_elem_of_fmap;
    apply list_elem_of_In, filter_In in He as [_ He];
    unfold mine in He; unfold parsed_entry, parsed; simpl.
  - by rewrite He.
  - apply negb_true_iff in He. by rewrite He.
Qed.

(** X2. Every transaction of the parser output carries the role of the
    parsed record it holds, the id of that record prefixed with its role as
    transaction id, and its time; a received record is a sale, an uncompleted
    one a purchase, and exactly the completed records name their counterpart,
    a purchase through linked_sale_id and a sale through
    linked_purchase_id. *)
Theorem transactions_are_well_formed (self : MarketAnalyzer)
    (assets : option (gmap string (gmap string (list (string * Item.t)))))
    (entries : list (string * Raw.t)) :
  let h := {| History.purchases := Some entries; History.assets := assets |} in
  let r := parse_entries self h entries in
  parseMarketHistory self (Some h) = Return r ∧
  ∀ t, t ∈ ParseResult.transactions r →
    Tx.role t = Parsed.type (Tx.purchase t) ∧
    Tx.purchase_id t = Parsed.id (Tx.purchase t) ∧
    Tx.transaction_id t = id_prefix (Tx.role t) +:+ Tx.purchase_id t ∧
    Tx.time_sold t = Parsed.time_sold (Tx.purchase t) ∧
    (Tx.transaction_status t = Status.received → Tx.role t = Role.sale) ∧
    (Tx.transaction_status t = Status.uncompleted → Tx.role t = Role.purchase) ∧
    (is_Some (Tx.linked_sale_id t) ↔
     Tx.transaction_status t = Status.completed ∧ Tx.role t = Role.purchase) ∧
    (is_Some (Tx.linked_purchase_id t) ↔
     Tx.transaction_status t = Status.completed ∧ Tx.role t = Role.sale).
Proof.
  intros h r. split; [done|]. intros t Ht.
  subst r. unfold parse_entries in Ht. cbn [ParseResult.transactions] in Ht.
  set (c := classify _ _ _) in Ht.
  destruct (transactions_forms c t Ht)
    as [(p & s & Hp & Hs & _ & [-> | ->]) | [(p & Hp & ->) | (s & Hs & ->)]];
    simpl.
  - rewrite (proj1 (classified_types _ _ _ p) Hp).
    repeat split; try done; try (by intros [? ?]); eauto.
  - rewrite (proj2 (classified_types _ _ _ s) Hs).
    repeat split; try done; try (by intros [? ?]); eauto.
  - rewrite (proj1 (classified_types _ _ _ p) Hp).
    repeat split; try done; try (by intros [? ?]); by intros [? ?]%is_Some_None.
  - rewrite (proj2 (classified_types _ _ _ s) Hs).
    repeat split; try done; try (by intros [? ?]); by intros [? ?]%is_Some_None.
Qed.

Lemma transactions_are_well_formed_witness :
  let h := {| History.purchases := Some two_purchases; History.assets := None |} in
  let r := parse_entries analyzer h two_purchases in
  ∃ t, ParseResult.transactions r !! 0 = Some t ∧
       Tx.role t = Parsed.type (Tx.purchase t) ∧
       Tx.transaction_id t = id_prefix (Tx.role t) +:+ Tx.purchase_id t.
Proof.
  intros h r.
  destruct (transactions_are_well_formed analyzer None two_purchases) as [_ H].
  fold h r in H.
  assert (∃ t rest, ParseResult.transactions r = t :: rest) as (t & rest & E)
    by (vm_compute; eauto).
  exists t. split; [by rewrite E|].
  destruct (H t) as (Hrole & _ & Hid & _); [rewrite E; apply elem_of_cons; by left|].
  by split.
Defined.







(** ** calculateROI on a parsed ledger *)

Lemma sale_records c t :
  t ∈ transactions (link c) → Tx.role t = Role.sale →
  Tx.purchase t ∈ accountSales c ∧ Tx.purchase_id t = Parsed.id (Tx.purchase t).
Proof.
  intros Ht Hr.
  destruct (transactions_forms c t Ht)
    as [(p & s & Hp & Hs & _ & [-> | ->]) | [(p & Hp & ->) | (s & Hs & ->)]];
    try done.
Qed.

(** The sale entry found under the id of a sale holds that sale. *)
Lemma salesMap_of_link c s saleTx :
  NoDup (Parsed.id <$> accountSales c) → s ∈ accountSales c →
  salesMap (transactions (link c)) !! Parsed.id s = Some saleTx →
  Tx.purchase saleTx = s.
Proof.
  intros Hd Hs (Ht & Hr & Hid)%salesMap_Some.
  destruct (sale_records c saleTx Ht Hr) as [Hin Hpid].
  apply (NoDup_fmap_eq Parsed.id (accountSales c)); try done. congruence.
Qed.

Section roi_of_link.
Variables (c : Classified).
Hypothesis distinct : NoDup (Parsed.id <$> accountSales c).
Hypothesis named : ∀ s, s ∈ accountSales c → Parsed.id s ≠ "".

Lemma roi_out_link_out p :
  p ∈ accountPurchases c →
  (λ rec, (Roi.transaction_id rec, Roi.purchase_raw rec, Roi.sale_raw rec)) <$>
    (link_out (salesByAssetId (accountSales c)) p ≫= roi_out (salesMap (transactions (link c))))
  = (λ s, (Parsed.id p, p, s)) <$> option_list ((salesByAssetId (accountSales c)) !! String (Parsed.new_id p)).
Proof.
  intros Hp. unfold link_out.
  destruct ((salesByAssetId (accountSales c)) !! String (Parsed.new_id p)) as [s|] eqn:E; [|done].
  destruct (salesByAssetId_Some _ _ _ E) as (Hs & _ & _).
  assert (Hin : completed_sale p s ∈ transactions (link c)).
  { rewrite link_transactions. apply elem_of_app. left.
    apply list_elem_of_bind. exists p. split; [|done].
    unfold link_out. rewrite E. right. left. }
  destruct (salesMap_is_Some _ _ Hin eq_refl) as [saleTx HsaleTx].
  simpl in HsaleTx.
  pose proof (salesMap_of_link c s saleTx distinct Hs HsaleTx) as Hsale.
  rewrite !bind_cons. change ([] ≫= roi_out (salesMap (transactions (link c)))) with (@nil Roi.t).
  rewrite app_nil_r.
  unfold roi_out, roi_step. simpl. rewrite HsaleTx.
  rewrite bool_decide_false by (by apply named).
  simpl. by rewrite Hsale.
Qed.

Lemma roi_out_received ss :
  (received_sale <$> ss) ≫= roi_out (salesMap (transactions (link c))) = [].
Proof.
  induction ss as [|s ss IH]; [done|]. by rewrite fmap_cons, bind_cons, IH.
Qed.

Lemma roi_results_link :
  (λ rec, (Roi.transaction_id rec, Roi.purchase_raw rec, Roi.sale_raw rec)) <$>
    roi_results (transactions (link c))
  = accountPurchases c ≫= λ p,
      (λ s, (Parsed.id p, p, s)) <$> option_list ((salesByAssetId (accountSales c)) !! String (Parsed.new_id p)).
Proof.
  unfold roi_results. rewrite roi_loop, app_nil_l.
  rewrite link_transactions at 2.
  rewrite bind_app, roi_out_received, app_nil_r.
  assert (H : ∀ ps, (∀ p, p ∈ ps → p ∈ accountPurchases c) →
    (λ rec, (Roi.transaction_id rec, Roi.purchase_raw rec, Roi.sale_raw rec)) <$>
      ((ps ≫= link_out (salesByAssetId (accountSales c))) ≫= roi_out (salesMap (transactions (link c))))
    = ps ≫= λ p, (λ s, (Parsed.id p, p, s)) <$>
                 option_list ((salesByAssetId (accountSales c)) !! String (Parsed.new_id p))).
  { induction ps as [|p ps IH]; intros Hsub; [done|].
    rewrite !bind_cons, bind_app, fmap_app, IH, roi_out_link_out; [done| |].
    - apply Hsub. left.
    - intros q Hq. apply Hsub. by right. }
  by apply H.
Qed.
End roi_of_link.

Lemma sales_ids_in_keys mySteamId h entries s :
  s ∈ accountSales (classify mySteamId h entries) → Parsed.id s ∈ entries.*1.
Proof.
  intros Hs.
  destruct (classified_origin mySteamId h entries s (or_intror Hs)) as (e & He & ->).
  apply list_elem_of_fmap. by exists e.
Qed.

Lemma claimed_pairs_length {A} sales ps (f : Parsed.t → Parsed.t → A) :
  length (ps ≫= λ p, f p <$> option_list (sales !! String (Parsed.new_id p)))
  = length (claimed sales ps).
Proof.
  induction ps as [|p ps IH]; [done|].
  rewrite bind_cons, length_app, IH, (claimed_cons sales p ps), length_app.
  unfold claimed. simpl. by destruct (sales !! _).
Qed.

Lemma completed_purchase_ids sales ps ss :
  Tx.purchase_id <$>
    List.filter is_completed_purchase ((ps ≫= link_out sales) ++ (received_sale <$> ss))
  = ps ≫= λ p, (λ _, Parsed.id p) <$> option_list (sales !! String (Parsed.new_id p)).
Proof.
  rewrite List.filter_app, (filter_none _ (received_sale <$> ss)), app_nil_r.
  - induction ps as [|p ps IH]; [done|].
    rewrite !bind_cons, List.filter_app, fmap_app, IH. f_equal.
    unfold link_out. by destruct (sales !! _).
  - by intros t (s & -> & _)%list_elem_of_fmap.
Qed.

(** X4. On the transactions of a parsed ledger whose keys are pairwise
    distinct and non-empty, the ROI calculator yields exactly one record per
    completed purchase, in the order of the purchases, and each record pairs
    the purchase with the very sale that the parser linked it to. *)
Theorem roi_of_parsed_ledger (self : MarketAnalyzer)
    (assets : option (gmap string (gmap string (list (string * Item.t)))))
    (entries : list (string * Raw.t)) :
  NoDup entries.*1 →
  "" ∉ entries.*1 →
  let h := {| History.purchases := Some entries; History.assets := assets |} in
  let r := parse_entries self h entries in
  let results := roi_results (ParseResult.transactions r) in
  calculateROI (Arr (ParseResult.transactions r)) = Return results ∧
  length results = ParseResult.completed_purchases_count r ∧
  Roi.transaction_id <$> results
    = Tx.purchase_id <$>
        List.filter is_completed_purchase (ParseResult.transactions r) ∧
  ∀ rec, rec ∈ results →
    completed_purchase (Roi.purchase_raw rec) (Roi.sale_raw rec)
      ∈ ParseResult.transactions r ∧
    completed_sale (Roi.purchase_raw rec) (Roi.sale_raw rec)
      ∈ ParseResult.transactions r ∧
    String (Parsed.new_id (Roi.purchase_raw rec))
      = String (Parsed.assetid (Roi.sale_raw rec)).
Proof.
  intros Hkeys Hne h r results. split; [done|].
  subst results r. unfold parse_entries. cbn [ParseResult.transactions].
  set (c := classify _ _ _).
  assert (Hd : NoDup (Parsed.id <$> accountSales c)) by by apply sales_NoDup.
  assert (Hn : ∀ s, s ∈ accountSales c → Parsed.id s ≠ "").
  { intros s Hs E. apply Hne. rewrite <- E. by eapply sales_ids_in_keys. }
  pose proof (roi_results_link c Hd Hn) as Hres.
  set (sales := salesByAssetId (accountSales c)) in *.
  split; [|split].
  - cbn [ParseResult.completed_purchases_count].
    destruct (link_counts c) as (-> & _).
    rewrite <- (length_fmap (λ rec, (Roi.transaction_id rec, Roi.purchase_raw rec,
                                     Roi.sale_raw rec))), Hres.
    apply claimed_pairs_length.
  - rewrite link_transactions at 2. rewrite completed_purchase_ids.
    apply (f_equal (fmap (λ x : string * Parsed.t * Parsed.t, x.1.1))) in Hres.
    rewrite <- list_fmap_compose in Hres. simpl in Hres.
    etrans; [exact Hres|]. clear.
    induction (accountPurchases c) as [|p ps IH]; [done|].
    rewrite !bind_cons, fmap_app, IH. f_equal.
    fold sales. by destruct (sales !! _).
  - intros rec Hrec.
    assert (Hin : (Roi.transaction_id rec, Roi.purchase_raw rec, Roi.sale_raw rec)
                  ∈ accountPurchases c ≫= λ p,
                      (λ s, (Parsed.id p, p, s)) <$>
                      option_list (sales !! String (Parsed.new_id p))).
    { rewrite <- Hres. apply list_elem_of_fmap. eauto. }
    apply list_elem_of_bind in Hin as (p & Hin & Hp).
    destruct (sales !! String (Parsed.new_id p)) as [s|] eqn:E;
      [|by apply elem_of_nil in Hin].
    apply list_elem_of_singleton in Hin as [= _ -> ->].
    destruct (linked_completed sales _ p s Hp E) as (H1 & H2 & _).
    destruct (salesByAssetId_Some _ _ _ E) as (_ & _ & Hk).
    rewrite link_transactions. fold sales. rewrite !elem_of_app. auto.
Qed.

Lemma roi_of_parsed_ledger_witness :
  let h := {| History.purchases := Some two_purchases; History.assets := None |} in
  let r := parse_entries analyzer h two_purchases in
  length (roi_results (ParseResult.transactions r)) = 1 ∧
  Roi.transaction_id <$> roi_results (ParseResult.transactions r) = ["p1"].
Proof.
  intros h r.
  assert (Hd : NoDup two_purchases.*1) by computed.
  assert (Hn : "" ∉ two_purchases.*1) by computed.
  destruct (roi_of_parsed_ledger analyzer None two_purchases Hd Hn)
    as (_ & Hlen & Hids & _).
  split.
  - etrans; [exact Hlen | by vm_compute].
  - etrans; [exact Hids | by vm_compute].
Defined.

(** ** Totals of the statistics *)

Lemma aggregate_totals st ts :
  dates_valid ts →
  ∃ st', aggregate st ts = Return st' ∧
    Agg.totalInvested st'
    = foldl add (Agg.totalInvested st)
        ((λ t, Parsed.paid_total (Tx.purchase t)) <$> List.filter is_purchase ts) ∧
    Agg.totalReceived st'
    = foldl add (Agg.totalReceived st)
        ((λ t, ToNumber (Raw.received_amount (Parsed.raw (Tx.purchase t)))) <$>
         List.filter is_sale ts).
Proof.
  intros Hv. revert st. induction Hv as [|t ts Ht _ IH]; intros st.
  - by exists st.
  - cbn [aggregate]. unfold aggregate_step. rewrite Ht. cbn [negb].
    unfold is_purchase, is_sale. cbn [List.filter].
    destruct (Tx.role t) eqn:Er; simpl;
      match goal with |- context [aggregate ?s ts] =>
        destruct (IH s) as (st' & -> & H1 & H2) end;
      exists st'; by rewrite H1, H2.
Qed.

Lemma aggregate_invalid st ts :
  ¬ dates_valid ts → aggregate st ts = Throw (RangeError "Invalid time value").
Proof.
  revert st. induction ts as [|t ts IH]; intros st Hn.
  - destruct Hn. constructor.
  - cbn [aggregate]. unfold aggregate_step.
    destruct (valid_date (time_value (Tx.time_sold t))) eqn:Ht; [|done].
    cbn [negb].
    assert (Hts : ¬ dates_valid ts).
    { intros Hv. apply Hn. by constructor. }
    destruct (Tx.role t); simpl; by rewrite IH.
Qed.



(** ** The holdings matcher *)






(** ** Ledgers without purchases of the account *)

Lemma filter_all_false {A} (f : A → bool) l :
  Forall (λ x, f x = false) l → List.filter f l = [] ∧
  List.filter (λ x, negb (f x)) l = l.
Proof.
  induction 1 as [|x l Hx _ [IH1 IH2]]; [done|]. simpl. rewrite Hx. simpl.
  by rewrite IH1, IH2.
Qed.

Lemma unmatched_nil ss : List.filter (unmatched []) ss = ss.
Proof.
  induction ss as [|s ss IH]; [done|]. simpl. by rewrite IH.
Qed.

(** X7. When no entry of the ledger was bought by the account, every entry
    comes out as one received sale, in ledger order; the ROI calculator then
    yields no record, and the statistics, when they are returned, show
    nothing invested and an ROI percent of 0 whatever was received. *)
Theorem ledger_without_purchases (self : MarketAnalyzer)
    (assets : option (gmap string (gmap string (list (string * Item.t)))))
    (entries : list (string * Raw.t)) :
  Forall (λ e, mine (String (steamId self)) e = false) entries →
  let h := {| History.purchases := Some entries; History.assets := assets |} in
  let r := parse_entries self h entries in
  parseMarketHistory self (Some h) = Return r ∧
  ParseResult.transactions r
    = (λ e, received_sale (parsed_entry (String (steamId self)) h e)) <$> entries ∧
  ParseResult.purchases_count r = 0 ∧
  ParseResult.received_sales_count r = length entries ∧
  calculateROI (Arr (ParseResult.transactions r)) = Return [] ∧
  (dates_valid (ParseResult.transactions r) →
   ∃ o, calculateTransactionStatistics r = Return o ∧
        Overall.totalInvested o = Num 0 ∧ Overall.roiPercent o = Num 0).
Proof.
  intros Hnone h r. split; [done|].
  destruct (filter_all_false _ _ Hnone) as [Hp Hs].
  set (ss := parsed_entry (String (steamId self)) h <$> entries).
  assert (Htxs : ParseResult.transactions r = received_sale <$> ss).
  { subst r. unfold parse_entries. cbn [ParseResult.transactions].
    rewrite link_transactions, classify_spec.
    cbn [accountPurchases accountSales]. rewrite Hp, Hs. fold ss.
    rewrite fmap_nil. change (claimed _ []) with (@nil string).
    by rewrite unmatched_nil. }
  destruct (received_counts ss) as (_ & _ & Hrc & _).
  split; [by rewrite Htxs; unfold ss; rewrite <- list_fmap_compose|].
  split; [|split; [|split]].
  - subst r. unfold parse_entries. simpl. rewrite classify_spec. simpl.
    by rewrite Hp.
  - subst r. unfold parse_entries in *. cbn [ParseResult.received_sales_count].
    cbn [ParseResult.transactions] in Htxs. rewrite Htxs, stats_spec. simpl.
    rewrite Hrc. unfold ss. by rewrite length_fmap.
  - cbn [calculateROI]. rewrite Htxs. unfold roi_results.
    rewrite roi_loop, app_nil_l. f_equal.
    generalize (salesMap (received_sale <$> ss)). intros m.
    clear. induction ss as [|s ss IH]; [done|].
    by rewrite fmap_cons, bind_cons, IH.
  - intros Hv.
    destruct (aggregate_totals aggregate_init _ Hv) as (st & Hst & H1 & _).
    unfold calculateTransactionStatistics. rewrite Hst.
    eexists. split; [done|]. unfold overall. simpl.
    rewrite Htxs in H1.
    rewrite (proj1 (received_not_linked ss)) in H1.
    simpl in H1. by rewrite H1.
Qed.

Lemma ledger_without_purchases_witness :
  let h := {| History.purchases := Some only_sales; History.assets := None |} in
  let r := parse_entries analyzer h only_sales in
  Tx.transaction_status <$> ParseResult.transactions r
    = [Status.received; Status.received] ∧
  ∃ o, calculateTransactionStatistics r = Return o ∧
       Overall.totalInvested o = Num 0 ∧ Overall.roiPercent o = Num 0.
Proof.
  intros h r.
  assert (Hnone : Forall (λ e, mine (String (steamId analyzer)) e = false) only_sales)
    by (repeat constructor).
  destruct (ledger_without_purchases analyzer None only_sales Hnone)
    as (_ & Htxs & _ & _ & _ & Hstats).
  split.
  - fold h r in Htxs. rewrite Htxs. by vm_compute.
  - apply Hstats. repeat constructor.
Defined.

(** ** Purchases without post-disposal id *)

Lemma pretty_N_go_digit x s :
  s = "" ∨ starts_with_digit s →
  pretty_N_go x s = "" ∨ starts_with_digit (pretty_N_go x s).
Proof.
  revert s. induction (N.lt_wf_0 x) as [x _ IH]; intros s Hs.
  assert (x = 0 ∨ 0 < x)%N as [->|Hx] by lia.
  - by rewrite pretty_N_go_0.
  - rewrite pretty_N_go_step by done. apply IH.
    + by apply N.div_lt.
    + right. simpl. exists (x `mod` 10)%N. split; [|done].
      by apply N.mod_lt.
Qed.

Lemma pretty_not_null (n : Z) : pretty n ≠ "null".
Proof.
  destruct n as [|p|p]; unfold pretty, pretty_Z; [done| |done].
  unfold pretty, pretty_positive, pretty, pretty_N.
  case_decide; [done|].
  destruct (pretty_N_go_digit (N.pos p) "" (or_introl eq_refl)) as [E|Hd].
  - rewrite E. done.
  - intros E. rewrite E in Hd. destruct Hd as (d & Hd & Hc).
    assert (d = 0 ∨ d = 1 ∨ d = 2 ∨ d = 3 ∨ d = 4 ∨ d = 5 ∨ d = 6 ∨ d = 7
            ∨ d = 8 ∨ d = 9)%N as Hcases by lia.
    repeat (destruct Hcases as [->|Hcases]; [discriminate Hc|]).
    subst d. discriminate Hc.
Qed.

Lemma String_null v : truthy v = true → String v = "null" → v = Str "null".
Proof.
  destruct v as [| |s|n]; simpl; try done.
  - by intros _ ->.
  - intros _ E. by destruct (pretty_not_null n).
Qed.

(** X8. A purchase whose asset has no post-disposal id is looked up under
    the string "null": it is emitted as uncompleted unless some sale carries
    the literal asset id "null", in which case it is completed with such a
    sale. *)
Theorem purchase_without_new_id (self : MarketAnalyzer)
    (assets : option (gmap string (gmap string (list (string * Item.t)))))
    (entries : list (string * Raw.t)) (p : Parsed.t) :
  let h := {| History.purchases := Some entries; History.assets := assets |} in
  let c := classify (String (steamId self)) h entries in
  let r := parse_entries self h entries in
  p ∈ accountPurchases c →
  Parsed.new_id p = Null →
  ((∀ s, s ∈ accountSales c → Parsed.assetid s ≠ Str "null") →
   uncompleted_purchase p ∈ ParseResult.transactions r) ∧
  ((∃ s, s ∈ accountSales c ∧ Parsed.assetid s = Str "null") →
   ∃ s, s ∈ accountSales c ∧ Parsed.assetid s = Str "null" ∧
        completed_purchase p s ∈ ParseResult.transactions r ∧
        uncompleted_purchase p ∉ ParseResult.transactions r).
Proof.
  intros h c r Hp Hnull. subst r. unfold parse_entries.
  cbn [ParseResult.transactions]. fold c. rewrite link_transactions.
  set (sales := salesByAssetId (accountSales c)).
  assert (Hkey : String (Parsed.new_id p) = "null") by by rewrite Hnull.
  split.
  - intros Hnone. apply elem_of_app. left.
    apply list_elem_of_bind. exists p. split; [|done].
    unfold link_out. fold sales. rewrite Hkey.
    destruct (sales !! "null") as [s|] eqn:E; [|left].
    destruct (salesByAssetId_Some _ _ _ E) as (Hs & Ht & Hk).
    destruct (Hnone s Hs). by apply String_null.
  - intros (s0 & Hs0 & Ha0).
    assert (Hsome : is_Some (sales !! String (Parsed.assetid s0))).
    { apply salesByAssetId_is_Some; [done|]. by rewrite Ha0. }
    rewrite Ha0 in Hsome. simpl in Hsome. destruct Hsome as [s E].
    destruct (salesByAssetId_Some _ _ _ E) as (Hs & Ht & Hk).
    exists s. split; [done|]. split; [by apply String_null|].
    rewrite <- Hkey in E.
    destruct (linked_completed sales _ p s Hp E) as (H1 & _ & H3).
    rewrite !elem_of_app. split; [by left|].
    intros [H|H]; [done|].
    by apply list_elem_of_fmap in H as (s' & ? & _).
Qed.

Lemma purchase_without_new_id_witness :
  let h := {| History.purchases := Some unsold_purchase; History.assets := None |} in
  let r := parse_entries analyzer h unsold_purchase in
  Tx.transaction_status <$> ParseResult.transactions r
    = [Status.uncompleted; Status.received].
Proof.
  intros h r.
  set (p := parsed_entry (String (steamId analyzer)) h
              ("p1", entry "76561198000000001" (Str "X") Undefined None (Some 10%Q) None)).
  destruct (purchase_without_new_id analyzer None unsold_purchase p)
    as [Hun _]; [vm_compute; left | done |].
  assert (Hin : uncompleted_purchase p ∈ ParseResult.transactions r).
  { apply Hun. intros s Hs. vm_compute in Hs.
    apply list_elem_of_singleton in Hs as ->. done. }
  by vm_compute.
Defined.

(** * Properties of the client and of the account manager *)

(** ** The life of a client *)

Lemma step_invariant id c a : client_invariant id c → client_invariant id (step c a).
Proof.
  intros (Hid & Hreg & Hcases).
  destruct a; simpl; unfold client_invariant, disconnect, on_loggedOn, set_session;
    repeat case_match; simpl; try (split; [done|]); try done;
    destruct Hcases as [(Ha & Hs & Hl) | (sid & Hs & Ha & Hr)];
    try (split; [by auto|]); try (by left); try (by right; eauto);
    try (split; [congruence|]); try congruence; eauto 10.
  all: try (right; eexists; split; [done|]; split; [|done]; congruence).
Qed.

Lemma run_invariant id c actions :
  client_invariant id c → client_invariant id (run c actions).
Proof.
  revert c. induction actions as [|a actions IH]; intros c Hc; [done|].
  apply IH. by apply step_invariant.
Qed.

Lemma new_invariant id : client_invariant id (new_SteamClient id).
Proof. split; [done|]. split; [done|]. by left. Qed.

(** X9. Whatever happens to a client after its construction, while it is
    logged in it has a market analyzer, built from its account id and
    the steam id it logged in with; so the four analysis methods of a
    connected client never fail for want of an analyzer but give what the
    analyzer gives. *)
Theorem connected_client_has_analyzer (accountId : value)
    (actions : list SteamClient.action) (client_steamID : bool) :
  let c := run (new_SteamClient accountId) actions in
  isConnected c client_steamID = true →
  ∃ steamID64,
    SteamClient.steamId c = Str steamID64 ∧
    let analyzer := {| accountId := accountId; steamId := Str steamID64 |} in
    SteamClient.marketAnalyzer c = Some analyzer ∧
    (∀ history,
       client_parseMarketHistory c history = parseMarketHistory analyzer history) ∧
    (∀ transactions inventory,
       client_matchInventoryWithPurchases c transactions inventory
       = Return (matchInventoryWithPurchases transactions inventory)) ∧
    (∀ transactions, client_calculateROI c transactions = calculateROI transactions) ∧
    (∀ data, client_calculateTransactionStatistics c data
             = calculateTransactionStatistics data).
Proof.
  intros c Hconn.
  destruct (run_invariant accountId _ actions (new_invariant accountId))
    as (_ & _ & Hcases). fold c in Hcases.
  unfold isConnected in Hconn.
  apply andb_true_iff in Hconn as [Hconn _].
  apply andb_true_iff in Hconn as [Hlog _].
  destruct Hcases as [(_ & _ & Hl) | (sid & Hs & Ha & _)]; [congruence|].
  exists sid. split; [done|]. split; [done|].
  unfold client_parseMarketHistory, client_matchInventoryWithPurchases,
    client_calculateROI, client_calculateTransactionStatistics, with_analyzer.
  rewrite Ha. done.
Qed.

Lemma connected_client_has_analyzer_witness :
  let c := run (new_SteamClient (Str "main"))
             [SteamClient.call_login "main"; SteamClient.loggedOn "76561198000000001";
              SteamClient.webSession] in
  client_parseMarketHistory c (Some scenario_A)
  = parseMarketHistory analyzer (Some scenario_A).
Proof.
  intros c.
  destruct (connected_client_has_analyzer (Str "main")
              [SteamClient.call_login "main"; SteamClient.loggedOn "76561198000000001";
               SteamClient.webSession] true eq_refl)
    as (sid & Hs & _ & Hparse & _).
  fold c in Hs, Hparse. rewrite Hparse.
  vm_compute in Hs. by injection Hs as <-.
Defined.

Lemma step_keeps_analyzer c a analyzer :
  SteamClient.marketAnalyzer c = Some analyzer →
  SteamClient.marketAnalyzer (step c a) = Some analyzer.
Proof.
  intros Ha. destruct a; simpl; unfold disconnect, on_loggedOn;
    repeat case_match; simpl; congruence.
Qed.

(** X10. Once a client has a market analyzer it keeps that very analyzer
    whatever happens afterwards: later logins, disconnects and expired
    sessions neither remove it nor rebuild it, so the analysis methods keep
    working on a disconnected client, with the steam id of the first
    login. *)
Theorem analyzer_is_kept (c : SteamClient.t) (analyzer : MarketAnalyzer)
    (actions : list SteamClient.action) :
  SteamClient.marketAnalyzer c = Some analyzer →
  SteamClient.marketAnalyzer (run c actions) = Some analyzer ∧
  ∀ transactions,
    client_calculateROI (run c actions) transactions = calculateROI transactions.
Proof.
  intros Ha.
  assert (H : SteamClient.marketAnalyzer (run c actions) = Some analyzer).
  { revert c Ha. induction actions as [|a actions IH]; intros c Ha; [done|].
    apply IH. by apply step_keeps_analyzer. }
  split; [done|]. intros ts. unfold client_calculateROI, with_analyzer.
  by rewrite H.
Qed.

Lemma analyzer_is_kept_witness :
  let c := run (new_SteamClient (Str "main")) [SteamClient.loggedOn "76561198000000001"] in
  SteamClient.marketAnalyzer
    (run c [SteamClient.disconnected; SteamClient.loggedOn "76561198000000009"])
  = Some analyzer.
Proof.
  intros c.
  apply (analyzer_is_kept c analyzer
           [SteamClient.disconnected; SteamClient.loggedOn "76561198000000009"]).
  reflexivity.
Defined.

Lemma step_stays_logged_out c a :
  SteamClient.loggedOn_registered c = false → SteamClient.isLoggedIn c = false →
  SteamClient.loggedOn_registered (step c a) = false ∧
  SteamClient.isLoggedIn (step c a) = false.
Proof.
  intros Hr Hl. destruct a; simpl; unfold disconnect; rewrite ?Hr, ?Hl; done.
Qed.

Lemma run_stays_logged_out c actions :
  SteamClient.loggedOn_registered c = false → SteamClient.isLoggedIn c = false →
  SteamClient.isLoggedIn (run c actions) = false.
Proof.
  revert c. induction actions as [|a actions IH]; intros c Hr Hl; [done|].
  destruct (step_stays_logged_out c a Hr Hl). by apply IH.
Qed.

Lemma run_unregistered c actions :
  SteamClient.loggedOn_registered c = false →
  SteamClient.loggedOn_registered (run c actions) = false.
Proof.
  revert c. induction actions as [|a actions IH]; intros c Hr; [done|].
  apply IH. destruct a; simpl; unfold disconnect, set_session;
    repeat case_match; simpl; done.
Qed.

(** X11. The handler that marks a client as logged in is registered with
    [once]: after the first [loggedOn] event, a disconnect, whether reported
    by Steam or asked for by [disconnect()], leaves the client logged out for
    good; no later event, a new [loggedOn] included, makes [isConnected]
    true again. *)
Theorem no_login_after_disconnect (c : SteamClient.t)
    (steamID64 : string) (before between after : list SteamClient.action)
    (leave : SteamClient.action) (client_steamID : bool) :
  leave = SteamClient.disconnected ∨ leave = SteamClient.call_disconnect →
  let c' := run c (before ++ SteamClient.loggedOn steamID64 :: between
                     ++ leave :: after) in
  SteamClient.isLoggedIn c' = false ∧ isConnected c' client_steamID = false.
Proof.
  intros Hleave c'. subst c'. unfold run, isConnected.
  rewrite foldl_app. cbn [foldl]. rewrite foldl_app. cbn [foldl].
  set (c1 := foldl step c before).
  assert (H1 : SteamClient.loggedOn_registered (step c1 (SteamClient.loggedOn steamID64))
               = false).
  { simpl. by destruct (SteamClient.loggedOn_registered c1) eqn:E. }
  pose proof (run_unregistered _ between H1) as H2. unfold run in H2.
  set (c2 := foldl step _ between) in *.
  assert (H3 : SteamClient.loggedOn_registered (step c2 leave) = false
               ∧ SteamClient.isLoggedIn (step c2 leave) = false).
  { destruct Hleave as [-> | ->]; simpl; unfold disconnect; [done|].
    by destruct (SteamClient.isLoggedIn c2) eqn:E. }
  destruct H3 as [H3 H4].
  pose proof (run_stays_logged_out _ after H3 H4) as H5. unfold run in H5.
  by rewrite H5.
Qed.

Lemma no_login_after_disconnect_witness :
  isConnected
    (run (new_SteamClient (Str "main"))
       [SteamClient.loggedOn "76561198000000001"; SteamClient.webSession;
        SteamClient.disconnected;
        SteamClient.loggedOn "76561198000000001"; SteamClient.webSession])
    true = false.
Proof.
  apply (no_login_after_disconnect (new_SteamClient (Str "main"))
           "76561198000000001" [] [SteamClient.webSession]
           [SteamClient.loggedOn "76561198000000001"; SteamClient.webSession]
           SteamClient.disconnected true).
  by left.
Defined.

(** ** The map of the manager *)

Section JSMap.
Context {V : Type}.
Implicit Types (m : list (value * V)) (k : value) (v : V).

Lemma get_set_eq m k v : JSMap.get (JSMap.set m k v) k = Some v.
Proof.
  unfold JSMap.get. induction m as [|e m IH]; simpl.
  - by rewrite bool_decide_true.
  - case_bool_decide as E; simpl.
    + by rewrite bool_decide_true.
    + by rewrite bool_decide_false.
Qed.

Lemma get_set_ne m k k' v : k ≠ k' → JSMap.get (JSMap.set m k v) k' = JSMap.get m k'.
Proof.
  intros Hne. unfold JSMap.get. induction m as [|e m IH]; simpl.
  - by rewrite bool_decide_false.
  - case_bool_decide as E; simpl.
    + rewrite bool_decide_false by done. rewrite bool_decide_false by congruence. done.
    + case_bool_decide; [done|]. apply IH.
Qed.

Lemma get_delete_eq m k : JSMap.get (JSMap.delete m k) k = None.
Proof.
  unfold JSMap.get, JSMap.delete. induction m as [|e m IH]; simpl; [done|].
  case_bool_decide as E; simpl; [done|]. by rewrite bool_decide_false.
Qed.

Lemma get_delete_ne m k k' : k ≠ k' → JSMap.get (JSMap.delete m k) k' = JSMap.get m k'.
Proof.
  intros Hne. unfold JSMap.get, JSMap.delete. induction m as [|e m IH]; simpl; [done|].
  case_bool_decide as E; simpl.
  - rewrite bool_decide_false by congruence. done.
  - case_bool_decide; [done|]. apply IH.
Qed.

Lemma get_Some m k v : JSMap.get m k = Some v → (k, v) ∈ m.
Proof.
  unfold JSMap.get. induction m as [|[k' v'] m IH]; simpl; [done|].
  case_bool_decide as E; simpl in *.
  - intros [= <-]. subst. left.
  - intros H. right. by apply IH.
Qed.

Lemma get_None m k : JSMap.get m k = None ↔ k ∉ m.*1.
Proof.
  unfold JSMap.get. induction m as [|[k' v'] m IH]; simpl.
  - split; [intros _; apply not_elem_of_nil | done].
  - rewrite not_elem_of_cons. case_bool_decide as E; simpl in *.
    + split; [done|]. intros [? _]. congruence.
    + rewrite IH. split; [|tauto]. intros ?. split; [congruence|done].
Qed.

Lemma get_NoDup m k v : NoDup m.*1 → (k, v) ∈ m → JSMap.get m k = Some v.
Proof.
  unfold JSMap.get. induction m as [|[k' v'] m IH]; simpl.
  - by intros _ ?%elem_of_nil.
  - rewrite NoDup_cons. intros [Hn Hd] [[= -> ->]|Hin]%elem_of_cons.
    + by rewrite bool_decide_true.
    + rewrite bool_decide_false; [by apply IH|].
      simpl. intros ->. apply Hn. apply list_elem_of_fmap. by exists (k, v).
Qed.

Lemma elem_of_set m k v e : e ∈ JSMap.set m k v → e = (k, v) ∨ e ∈ m.
Proof.
  induction m as [|e' m IH]; simpl.
  - intros ->%list_elem_of_singleton. by left.
  - case_bool_decide as E.
    + intros [->|Hin]%elem_of_cons; [by left|]. right. by right.
    + intros [->|Hin]%elem_of_cons; [right; left|].
      destruct (IH Hin) as [->|?]; [by left|]. right. by right.
Qed.

Lemma set_keys m k v :
  (JSMap.set m k v).*1 = if bool_decide (k ∈ m.*1) then m.*1 else m.*1 ++ [k].
Proof.
  induction m as [|[k' v'] m IH]; [done|]. cbn [JSMap.set fst].
  destruct (decide (k' = k)) as [->|Hne].
  - rewrite bool_decide_true by done. rewrite fmap_cons.
    rewrite (bool_decide_true (k ∈ _)) by left. done.
  - rewrite bool_decide_false by done. rewrite !fmap_cons, IH. cbn [fst].
    destruct (bool_decide (k ∈ m.*1)) eqn:Ein.
    + apply bool_decide_eq_true in Ein.
      rewrite (bool_decide_true (k ∈ _)) by by right. done.
    + apply bool_decide_eq_false in Ein.
      rewrite (bool_decide_false (k ∈ _)); [done|].
      intros [?|?]%elem_of_cons; congruence.
Qed.

Lemma set_values_NoDup (m : list (value * V)) k v :
  NoDup m.*2 → v ∉ m.*2 → NoDup (JSMap.set m k v).*2.
Proof.
  induction m as [|[k' v'] m IH]; simpl.
  - intros _ _. apply NoDup_singleton.
  - rewrite NoDup_cons, not_elem_of_cons. intros [Hn Hd] [Hv Hin].
    case_bool_decide as E; simpl in *.
    + apply NoDup_cons. done.
    + apply NoDup_cons. split; [|by apply IH].
      intros (e & He & Hin')%list_elem_of_fmap. simpl in He.
      destruct (elem_of_set _ _ _ _ Hin') as [->|Hm]; simpl in *; [congruence|].
      apply Hn. apply list_elem_of_fmap. eauto.
Qed.

Lemma elem_of_delete m k e : e ∈ JSMap.delete m k ↔ e ∈ m ∧ e.1 ≠ k.
Proof.
  unfold JSMap.delete. rewrite list_elem_of_In, filter_In, <- list_elem_of_In.
  rewrite negb_true_iff, bool_decide_eq_false. done.
Qed.

Lemma NoDup_fmap_filter {B} (f : value * V → B) (g : value * V → bool) m :
  NoDup (f <$> m) → NoDup (f <$> List.filter g m).
Proof.
  induction m as [|e m IH]; simpl; [done|].
  rewrite NoDup_cons. intros [Hn Hd]. destruct (g e); simpl; [|auto].
  apply NoDup_cons. split; [|auto].
  intros (x & Hx & Hin)%list_elem_of_fmap. apply Hn.
  apply list_elem_of_fmap. exists x. split; [done|].
  apply list_elem_of_In, filter_In in Hin as [Hin _]. by apply list_elem_of_In.
Qed.
End JSMap.

(** ** The account manager *)

Lemma createClient_invariant m id :
  manager_invariant m → manager_invariant (createClient m id).1.
Proof.
  intros (Hk & Hr & Hb). unfold createClient, manager_invariant.
  cbn [fst Manager.accounts Manager.clients]. split; [|split].
  - rewrite set_keys. case_bool_decide as E; [done|].
    apply NoDup_app. split; [done|]. split; [|apply NoDup_singleton].
    intros x Hx ->%list_elem_of_singleton. done.
  - apply set_values_NoDup; [done|].
    intros (e & He & Hin)%list_elem_of_fmap. apply Hb in Hin. lia.
  - intros e [->|Hin]%elem_of_set; rewrite length_app; simpl; [lia|].
    apply Hb in Hin. lia.
Qed.

Lemma removeClient_invariant m id :
  manager_invariant m → manager_invariant (removeClient m id).
Proof.
  intros (Hk & Hr & Hb). unfold removeClient.
  destruct (JSMap.get _ _) as [ref|]; [|done]. unfold manager_invariant.
  cbn [Manager.accounts Manager.clients]. split; [|split].
  - by apply NoDup_fmap_filter.
  - by apply NoDup_fmap_filter.
  - intros e [Hin _]%elem_of_delete. rewrite length_alter. by apply Hb.
Qed.

Lemma reachable_invariant ops : manager_invariant (manager_after ops).
Proof.
  unfold manager_after.
  assert (H : ∀ m, manager_invariant m → manager_invariant (foldl apply_op m ops)).
  { induction ops as [|o ops IH]; intros m Hm; [done|]. apply IH.
    destruct o; simpl.
    - by apply createClient_invariant.
    - by apply removeClient_invariant.
    - destruct Hm as (Hk & Hr & Hb). split; [done|]. split; [done|].
      intros e He. simpl. rewrite length_alter. by apply Hb. }
  apply H. split; [constructor|]. split; [constructor|].
  by intros e ?%elem_of_nil.
Qed.

(** X12. Creating, finding and removing clients round-trip on every manager:
    a created client is found under its account id, new and logged out, and
    no other account id is affected; after a removal the account id is not
    found any more while every other one is found as before, and removing an
    account id that is not registered changes nothing. *)
Theorem manager_round_trips (m : Manager.t) (accountId : value) :
  let created := createClient m accountId in
  getClient created.1 accountId = Some created.2 ∧
  Manager.clients created.1 !! created.2 = Some (new_SteamClient accountId) ∧
  (∀ client, client ≠ created.2 →
     Manager.clients created.1 !! client = Manager.clients m !! client) ∧
  (∀ other, other ≠ accountId →
     getClient created.1 other = getClient m other) ∧
  getClient (removeClient m accountId) accountId = None ∧
  (∀ other, other ≠ accountId →
     getClient (removeClient m accountId) other = getClient m other) ∧
  (getClient m accountId = None → removeClient m accountId = m).
Proof.
  intros created. subst created. unfold createClient, getClient, removeClient.
  cbn [fst snd Manager.accounts Manager.clients].
  split; [apply get_set_eq|].
  split; [by rewrite lookup_app_r, Nat.sub_diag|].
  split.
  { intros client Hne.
    destruct (decide (client < length (Manager.clients m))) as [Hlt|Hge].
    - by rewrite lookup_app_l.
    - rewrite !lookup_ge_None_2; [done|lia|]. rewrite length_app. simpl. lia. }
  split; [intros other Hne; by apply get_set_ne|].
  destruct (JSMap.get (Manager.accounts m) accountId) as [client|] eqn:E; simpl.
  - split; [apply get_delete_eq|]. split; [|done].
    intros other Hne. by apply get_delete_ne.
  - split; [done|]. done.
Qed.

Lemma manager_round_trips_witness :
  let created := createClient new_Manager (Str "main") in
  getClient created.1 (Str "main") = Some created.2 ∧
  getClient created.1 (Str "alt") = None ∧
  getClient (removeClient created.1 (Str "alt")) (Str "main") = Some created.2.
Proof.
  intros created.
  destruct (manager_round_trips new_Manager (Str "main"))
    as (Hget & _ & _ & Hother & _).
  fold created in Hget, Hother.
  split; [exact Hget|]. split; [by rewrite Hother|].
  destruct (manager_round_trips created.1 (Str "alt"))
    as (_ & _ & _ & _ & _ & Hkept & _).
  by rewrite Hkept.
Defined.

(** X13. Removing a registered client disconnects it: afterwards that client
    is logged out and not connected, every other client of the store is as
    before. *)
Theorem removed_client_is_disconnected (m : Manager.t) (accountId : value)
    (client : nat) (c : SteamClient.t) :
  getClient m accountId = Some client →
  Manager.clients m !! client = Some c →
  let m' := removeClient m accountId in
  Manager.clients m' !! client = Some (disconnect c) ∧
  SteamClient.isLoggedIn (disconnect c) = false ∧
  (∀ client_steamID, isConnected (disconnect c) client_steamID = false) ∧
  SteamClient.marketAnalyzer (disconnect c) = SteamClient.marketAnalyzer c ∧
  ∀ other, other ≠ client →
    Manager.clients m' !! other = Manager.clients m !! other.
Proof.
  unfold getClient, removeClient. intros -> Hc. simpl.
  split; [by rewrite list_lookup_alter_eq, Hc|].
  assert (Hl : SteamClient.isLoggedIn (disconnect c) = false).
  { unfold disconnect. by destruct (SteamClient.isLoggedIn c) eqn:E. }
  split; [done|]. split; [intros b; unfold isConnected; by rewrite Hl|].
  split; [unfold disconnect; by destruct (SteamClient.isLoggedIn c)|].
  intros other Hne. by rewrite list_lookup_alter_ne.
Qed.

Lemma removed_client_is_disconnected_witness :
  let m := deliver (createClient new_Manager (Str "main")).1 0
             (SteamClient.loggedOn "76561198000000001") in
  SteamClient.isLoggedIn <$> Manager.clients m !! 0 = Some true ∧
  SteamClient.isLoggedIn <$> Manager.clients (removeClient m (Str "main")) !! 0
  = Some false.
Proof.
  intros m. split; [done|].
  destruct (removed_client_is_disconnected m (Str "main") 0
              (step (new_SteamClient (Str "main"))
                 (SteamClient.loggedOn "76561198000000001")) eq_refl eq_refl)
    as (H & Hl & _).
  by rewrite H.
Defined.

(** X14. Creating a client under an account id that is already registered
    replaces the registered client without disconnecting it: the manager
    finds the new client under the id, the old client stays in whatever
    state it was, logged in if it was logged in, and the manager does not
    find it under any account id any more. *)
Theorem replaced_client_is_orphaned (ops : list manager_op) (accountId : value)
    (old : nat) :
  let m := manager_after ops in
  getClient m accountId = Some old →
  let created := createClient m accountId in
  created.2 ≠ old ∧
  getClient created.1 accountId = Some created.2 ∧
  Manager.clients created.1 !! old = Manager.clients m !! old ∧
  ∀ other, getClient created.1 other ≠ Some old.
Proof.
  intros m Hold created.
  destruct (reachable_invariant ops) as (Hk & Hr & Hb). fold m in Hk, Hr, Hb.
  unfold getClient in *. apply get_Some in Hold as Hin.
  pose proof (Hb _ Hin) as Hlt. simpl in Hlt.
  subst created. unfold createClient. cbn [fst snd Manager.accounts Manager.clients].
  split; [lia|]. split; [apply get_set_eq|].
  split; [by rewrite lookup_app_l|].
  intros other Hother.
  destruct (decide (other = accountId)) as [->|Hne].
  - rewrite get_set_eq in Hother. injection Hother as Hother. lia.
  - rewrite get_set_ne in Hother by done. apply get_Some in Hother.
    assert ((other, old) = (accountId, old)) as [= ?]; [|done].
    apply (NoDup_fmap_eq snd (Manager.accounts m)); done.
Qed.

Lemma replaced_client_is_orphaned_witness :
  let m := manager_after [op_create (Str "main");
                          op_deliver 0 (SteamClient.loggedOn "76561198000000001")] in
  let created := createClient m (Str "main") in
  getClient created.1 (Str "main") = Some 1 ∧
  SteamClient.isLoggedIn <$> Manager.clients created.1 !! 0 = Some true.
Proof.
  intros m created.
  destruct (replaced_client_is_orphaned
              [op_create (Str "main");
               op_deliver 0 (SteamClient.loggedOn "76561198000000001")]
              (Str "main") 0 eq_refl) as (_ & Hget & Hold & _).
  split; [exact Hget|]. fold m created in Hold. by rewrite Hold.
Defined.

Lemma active_accounts_ids m client_steamID :
  (∀ e, e ∈ Manager.accounts m → e.2 < length (Manager.clients m)) →
  ActiveAccount.accountId <$> getActiveAccounts m client_steamID
  = (Manager.accounts m).*1.
Proof.
  unfold getActiveAccounts. generalize (Manager.clients m). intros cl.
  induction (Manager.accounts m) as [|e accs IH]; intros Hb; [done|].
  cbn [omap list_omap].
  destruct (lookup_lt_is_Some_2 cl e.2) as [c Hc]; [apply Hb; left|].
  rewrite Hc. cbn. f_equal. apply IH. intros e' He'. apply Hb. by right.
Qed.

(** X15. The list of active accounts of a manager shows every registered
    account id once, in the order in which the ids were first registered,
    each with the steam id, the account name and the connection state of the
    client that the manager finds under that id. *)
Theorem active_accounts_are_the_registered (ops : list manager_op)
    (client_steamID : nat → bool) :
  let m := manager_after ops in
  let rows := getActiveAccounts m client_steamID in
  ActiveAccount.accountId <$> rows = (Manager.accounts m).*1 ∧
  NoDup (ActiveAccount.accountId <$> rows) ∧
  (∀ accountId, is_Some (getClient m accountId) ↔
                accountId ∈ ActiveAccount.accountId <$> rows) ∧
  ∀ row, row ∈ rows →
    ∃ client c,
      getClient m (ActiveAccount.accountId row) = Some client ∧
      Manager.clients m !! client = Some c ∧
      ActiveAccount.steamId row = SteamClient.steamId c ∧
      ActiveAccount.accountName row = SteamClient.accountName c ∧
      ActiveAccount.isConnected row = isConnected c (client_steamID client).
Proof.
  intros m rows.
  destruct (reachable_invariant ops) as (Hk & Hr & Hb). fold m in Hk, Hr, Hb.
  pose proof (active_accounts_ids m client_steamID Hb) as Hids. fold rows in Hids.
  split; [done|]. split; [by rewrite Hids|]. split.
  - intros accountId. rewrite Hids. unfold getClient.
    rewrite <- not_eq_None_Some, get_None. split; [|tauto].
    intros H. by destruct (decide (accountId ∈ (Manager.accounts m).*1)).
  - intros row Hrow. subst rows. unfold getActiveAccounts in Hrow.
    apply list_elem_of_omap in Hrow as ([accountId client] & Hin & Hrow).
    simpl in Hrow. destruct (Manager.clients m !! client) as [c|] eqn:Hc; [|done].
    injection Hrow as <-. exists client, c. simpl.
    split; [|done]. by apply get_NoDup.
Qed.

Lemma active_accounts_are_the_registered_witness :
  let m := manager_after [op_create (Str "main");
                          op_deliver 0 (SteamClient.loggedOn "76561198000000001")] in
  ∃ row, getActiveAccounts m (λ _, true) !! 0 = Some row ∧
         ActiveAccount.accountId row = Str "main" ∧
         ∃ client c, getClient m (Str "main") = Some client ∧
                     Manager.clients m !! client = Some c ∧
                     ActiveAccount.steamId row = SteamClient.steamId c.
Proof.
  intros m.
  destruct (active_accounts_are_the_registered
              [op_create (Str "main");
               op_deliver 0 (SteamClient.loggedOn "76561198000000001")]
              (λ _, true)) as (Hids & _ & _ & Hrows).
  fold m in Hids, Hrows.
  destruct (getActiveAccounts m (λ _, true)) as [|row rows] eqn:E;
    [discriminate Hids|].
  exists row. split; [done|].
  assert (ActiveAccount.accountId row = Str "main") as Hid
    by (by injection Hids).
  split; [exact Hid|].
  destruct (Hrows row) as (client & c & Hget & Hc & Hsteam & _);
    [apply elem_of_cons; by left|].
  exists client, c. by rewrite <- Hid.
Defined.

Lemma shutdown_loop (accounts : list (value * nat)) (clients : list SteamClient.t) :
  NoDup accounts.*1 → NoDup accounts.*2 →
  let m' := foldl removeClient
              {| Manager.clients := clients; Manager.accounts := accounts |}
              accounts.*1 in
  Manager.accounts m' = [] ∧
  ∀ client,
    Manager.clients m' !! client
    = if bool_decide (client ∈ accounts.*2)
      then disconnect <$> clients !! client else clients !! client.
Proof.
  revert clients. induction accounts as [|[k r] accs IH]; intros clients Hk Hr.
  - split; [done|]. intros client. by rewrite bool_decide_false by apply not_elem_of_nil.
  - rewrite !fmap_cons in *. cbn [fst snd] in *.
    apply NoDup_cons in Hk as [Hk1 Hk2]. apply NoDup_cons in Hr as [Hr1 Hr2].
    assert (Hdel : JSMap.delete ((k, r) :: accs) k = accs).
    { unfold JSMap.delete. cbn [List.filter fst].
      rewrite bool_decide_true by done. cbn [negb].
      clear -Hk1. induction accs as [|[k' r'] accs IH]; [done|].
      apply not_elem_of_cons in Hk1 as [Hne Hk1]. cbn [List.filter fst].
      rewrite bool_decide_false by done. cbn [negb]. by rewrite IH. }
    assert (Hrem : removeClient
                     {| Manager.clients := clients;
                        Manager.accounts := (k, r) :: accs |} k
                   = {| Manager.clients := alter disconnect r clients;
                        Manager.accounts := accs |}).
    { unfold removeClient, JSMap.get.
      cbn [Manager.accounts Manager.clients List.find fst].
      rewrite bool_decide_true by done. cbn [fmap option_fmap option_map snd].
      by rewrite Hdel. }
    cbn [foldl]. rewrite Hrem.
    destruct (IH (alter disconnect r clients) Hk2 Hr2) as [Hacc Hcl].
    split; [done|]. intros client. rewrite Hcl.
    destruct (decide (client = r)) as [->|Hne].
    + rewrite bool_decide_false by done. rewrite bool_decide_true by left.
      by rewrite list_lookup_alter_eq.
    + rewrite list_lookup_alter_ne by done.
      destruct (bool_decide (client ∈ accs.*2)) eqn:E.
      * apply bool_decide_eq_true in E. by rewrite bool_decide_true by by right.
      * apply bool_decide_eq_false in E.
        rewrite bool_decide_false; [done|]. intros [?|?]%elem_of_cons; done.
Qed.

(** X16. The shutdown loop removes every active account: afterwards the
    manager has no account left and every client that it found under some
    account id is logged out, whereas a client that it did not find (one
    that was replaced under its account id) is left as it was. *)
Theorem shutdown_disconnects_the_registered (ops : list manager_op)
    (client_steamID : nat → bool) :
  let m := manager_after ops in
  let m' := shutdown m client_steamID in
  Manager.accounts m' = [] ∧
  (∀ accountId, getClient m' accountId = None) ∧
  (∀ accountId client,
     getClient m accountId = Some client →
     ∃ c, Manager.clients m !! client = Some c ∧
          Manager.clients m' !! client = Some (disconnect c) ∧
          SteamClient.isLoggedIn (disconnect c) = false) ∧
  (∀ client, (∀ accountId, getClient m accountId ≠ Some client) →
     Manager.clients m' !! client = Manager.clients m !! client).
Proof.
  intros m m'.
  destruct (reachable_invariant ops) as (Hk & Hr & Hb). fold m in Hk, Hr, Hb.
  subst m'. unfold shutdown. rewrite (active_accounts_ids m client_steamID Hb).
  destruct (shutdown_loop (Manager.accounts m) (Manager.clients m) Hk Hr)
    as [Hacc Hcl].
  replace {| Manager.clients := Manager.clients m;
             Manager.accounts := Manager.accounts m |} with m in * by by destruct m.
  cbn zeta in Hacc, Hcl. split; [done|]. split; [|split].
  - intros accountId. unfold getClient. by rewrite Hacc.
  - intros accountId client Hget. unfold getClient in Hget.
    apply get_Some in Hget.
    destruct (lookup_lt_is_Some_2 (Manager.clients m) client) as [c Hc];
      [by apply (Hb _ Hget)|].
    exists c. split; [done|]. rewrite Hcl, bool_decide_true, Hc.
    + split; [done|]. unfold disconnect. by destruct (SteamClient.isLoggedIn c) eqn:E.
    + apply list_elem_of_fmap. by exists (accountId, client).
  - intros client Hnot. rewrite Hcl, bool_decide_false; [done|].
    intros ([accountId r] & -> & Hin)%list_elem_of_fmap.
    apply (Hnot accountId). unfold getClient. by apply get_NoDup.
Qed.

Lemma shutdown_disconnects_the_registered_witness :
  let m := manager_after [op_create (Str "main");
                          op_deliver 0 (SteamClient.loggedOn "76561198000000001")] in
  SteamClient.isLoggedIn <$> Manager.clients m !! 0 = Some true ∧
  SteamClient.isLoggedIn <$> Manager.clients (shutdown m (λ _, true)) !! 0
  = Some false.
Proof.
  intros m. split; [done|].
  destruct (shutdown_disconnects_the_registered
              [op_create (Str "main");
               op_deliver 0 (SteamClient.loggedOn "76561198000000001")]
              (λ _, true)) as (_ & _ & H & _).
  fold m in H.
  destruct (H (Str "main") 0 eq_refl) as (c & _ & Hc & Hl).
  rewrite Hc. cbn [fmap option_fmap option_map]. by rewrite Hl.
Defined.

(** * Properties of the market history requests *)

Lemma page_index_lt (x i : nat) : i < (x + 99) / 100 ↔ 100 * i < x.
Proof.
  pose proof (Nat.div_mod_eq (x + 99) 100) as Hd.
  pose proof (Nat.mod_upper_bound (x + 99) 100) as Hm.
  lia.
Qed.

Lemma more_pages_later (T : nat) (M : option nat) (n i : nat) :
  M ≠ Some 0 → page_count T M = Some n →
  more_pages (100 * i) (Some T) M = bool_decide (i < n).
Proof.
  intros HM Hn. unfold more_pages, page_count in *.
  destruct M as [[|l]|], T as [|t]; try done; simplify_eq.
  - rewrite andb_true_l. apply bool_decide_ext. by rewrite page_index_lt.
  - rewrite <- bool_decide_and. apply bool_decide_ext.
    rewrite page_index_lt. lia.
  - rewrite andb_true_r. apply bool_decide_ext. by rewrite page_index_lt.
Qed.

Lemma more_pages_endless (start : nat) :
  more_pages start (Some 0) None = true.
Proof. done. Qed.

Lemma history_loop_pages (fetch : nat → completion Page.t) (M : option nat)
    (T n : nat) (fetched : nat → Page.t) :
  M ≠ Some 0 → page_count T M = Some n →
  (∀ i, i < n → fetch (100 * i) = Return (fetched (100 * i))) →
  ∀ k i full fuel, i + k = n → k < fuel →
    history_loop fetch M fuel full (100 * i) (Some T)
      = Some (Return (foldl merge_page full
                        ((λ i, fetched (100 * i)) <$> seq i k))).
Proof.
  intros HM Hn Hfetch k.
  induction k as [|k IH]; intros i full fuel Hik Hfuel;
    (destruct fuel as [|fuel]; [lia|]); cbn [history_loop].
  - rewrite (more_pages_later T M n i HM Hn).
    rewrite bool_decide_eq_false_2 by lia. done.
  - rewrite (more_pages_later T M n i HM Hn).
    rewrite bool_decide_eq_true_2 by lia.
    rewrite Hfetch by lia.
    replace (100 * i + 100) with (100 * S i) by lia.
    rewrite (IH (S i)) by lia. done.
Qed.

(** X17 (getFullMarketHistory, lines 999-1057): when the requests succeed,
    the loop stops after the pages at 0, 100, 200, ... below both the total
    that the first page reports and the limit - the number [page_count]
    gives - and returns these pages merged in this order; with the limit 0
    it requests nothing and returns the empty history. *)
Theorem full_history_pages (fetch : nat → completion Page.t)
    (maxItems : option nat) (fetched : nat → Page.t) (n : nat) :
  page_count (Page.total_count (fetched 0)) maxItems = Some n →
  (∀ i, i < n → fetch (100 * i) = Return (fetched (100 * i))) →
  ∀ fuel, n < fuel →
    getFullMarketHistory true fetch maxItems fuel
      = Some (Return (merged_pages fetched n)).
Proof.
  intros Hn Hfetch fuel Hfuel.
  unfold getFullMarketHistory, merged_pages. cbn [negb].
  destruct fuel as [|fuel]; [lia|]. cbn [history_loop].
  destruct (decide (maxItems = Some 0)) as [->|HM].
  - cbn in Hn. simplify_eq. done.
  - assert (0 < n) as Hpos.
    { pose proof (more_pages_later _ _ _ 0 HM Hn) as H0.
      destruct (decide (0 < n)); [done|].
      rewrite bool_decide_eq_false_2 in H0 by done.
      unfold more_pages in H0. cbn in H0.
      destruct maxItems as [[|l]|], (Page.total_count (fetched 0)); done. }
    assert (more_pages 0 None maxItems = true) as ->.
    { unfold more_pages. by destruct maxItems as [[|l]|]. }
    rewrite (Hfetch 0 Hpos : fetch 0 = _).
    change (0 + 100) with (100 * 1).
    rewrite (history_loop_pages fetch maxItems _ n fetched HM Hn Hfetch (n - 1) 1)
      by lia.
    destruct n as [|n]; [lia|].
    replace (S n - 1) with n by lia. done.
Qed.

Lemma full_history_pages_witness :
  let page (start : nat) : Page.t :=
    {| Page.success := true; Page.pagesize := Int 100;
       Page.total_count := 250; Page.start := Int (Z.of_nat start);
       Page.assets := ∅;
       Page.purchases := [(pretty start, my_purchase "X" "X2" 10)];
       Page.listings := []; Page.events := [Int (Z.of_nat start)] |} in
  getFullMarketHistory true (λ start, Return (page start)) None 4
    = Some (Return (merged_pages page 3)) ∧
  FullHistory.events (merged_pages page 3) = [Int 0; Int 100; Int 200].
Proof.
  intros page. split; [|done].
  apply (full_history_pages (λ start, Return (page start)) None page 3);
    [reflexivity | reflexivity | lia].
Defined.

Lemma history_loop_endless (fetch : nat → completion Page.t) :
  (∀ start, ∃ history, fetch start = Return history) →
  ∀ fuel full start,
    history_loop fetch None fuel full start (Some 0) = None.
Proof.
  intros Hfetch fuel.
  induction fuel as [|fuel IH]; intros full start; [done|].
  cbn [history_loop]. rewrite more_pages_endless.
  destruct (Hfetch start) as [history ->]. apply IH.
Qed.

(** X18 (getFullMarketHistory, lines 999-1057): for an account whose market
    history is empty, so that the first page reports the total 0, a call
    without a limit never returns while the requests succeed: it asks for
    page after page. *)
Theorem empty_history_never_ends (fetch : nat → completion Page.t) :
  (∀ start, ∃ history, fetch start = Return history) →
  (∀ history, fetch 0 = Return history → Page.total_count history = 0) →
  ∀ fuel, getFullMarketHistory true fetch None fuel = None.
Proof.
  intros Hfetch Hzero fuel.
  unfold getFullMarketHistory. cbn [negb].
  destruct fuel as [|fuel]; [done|]. cbn [history_loop].
  destruct (Hfetch 0) as [history Hh]. rewrite Hh.
  change (more_pages 0 None None) with true. cbn match.
  rewrite (Hzero history Hh). apply history_loop_endless, Hfetch.
Qed.

Lemma empty_history_never_ends_witness :
  let nothing : Page.t :=
    {| Page.success := true; Page.pagesize := Int 100;
       Page.total_count := 0; Page.start := Int 0;
       Page.assets := ∅; Page.purchases := [];
       Page.listings := []; Page.events := [] |} in
  getFullMarketHistory true (λ _, Return nothing) None 1000 = None.
Proof.
  intros nothing.
  apply (empty_history_never_ends (λ _, Return nothing)).
  - intros start. by exists nothing.
  - intros history [= <-]. reflexivity.
Defined.

Lemma more_pages_requested (T : nat) (M : option nat) (i : nat) :
  M ≠ Some 0 →
  match page_count T M with Some n => i < n | None => True end →
  more_pages (100 * i) (Some T) M = true.
Proof.
  intros HM Hi. destruct (page_count T M) as [n|] eqn:Hn.
  - rewrite (more_pages_later T M n i HM Hn). by apply bool_decide_eq_true_2.
  - unfold page_count in Hn. by destruct M as [[|l]|], T.
Qed.

Lemma page_count_mono (T : nat) (M : option nat) (i k : nat) :
  i ≤ k →
  match page_count T M with Some n => k < n | None => True end →
  match page_count T M with Some n => i < n | None => True end.
Proof. destruct (page_count T M); [lia|done]. Qed.

Lemma history_loop_fails (fetch : nat → completion Page.t) (M : option nat)
    (T k : nat) (e : exn) :
  M ≠ Some 0 →
  match page_count T M with Some n => k < n | None => True end →
  (∀ i, i < k → ∃ history, fetch (100 * i) = Return history) →
  fetch (100 * k) = Throw e →
  ∀ d i full fuel, i + d = k → d < fuel →
    history_loop fetch M fuel full (100 * i) (Some T) = Some (Throw e).
Proof.
  intros HM Hk Hfetch Hfail d.
  induction d as [|d IH]; intros i full fuel Hid Hfuel;
    (destruct fuel as [|fuel]; [lia|]); cbn [history_loop];
    rewrite (more_pages_requested T M i HM)
      by (apply (page_count_mono T M i k); [lia|done]).
  - replace i with k by lia. by rewrite Hfail.
  - destruct (Hfetch i ltac:(lia)) as [history ->].
    replace (100 * i + 100) with (100 * S i) by lia.
    apply IH; lia.
Qed.

(** X19 (getMarketHistory and getFullMarketHistory, lines 957-1057): a page
    is obtained exactly when the client is connected at that moment, the
    request is answered and the answer has [success]; and when page [k] is
    the first that is not obtained, the whole call throws its error - not
    connected, the error of the request, or "Failed to fetch market
    history" - whatever the pages before it held. *)
Theorem failed_request_fails_all (connected : nat → bool)
    (request : nat → completion Response.t) (maxItems : option nat)
    (k : nat) :
  let fetch start := getMarketHistory (connected start) (request start) in
  let obtained start :=
    connected start = true ∧
    ∃ response, request start = Return response ∧
                Response.success response = true in
  (∀ start, obtained start ↔ ∃ history, fetch start = Return history) ∧
  (maxItems ≠ Some 0 →
   (∀ i, i < k → obtained (100 * i)) →
   ¬ obtained (100 * k) →
   (∀ first, fetch 0 = Return first →
      match page_count (Page.total_count first) maxItems with
      | Some n => k < n
      | None => True
      end) →
   ∀ fuel, k < fuel →
     getFullMarketHistory true fetch maxItems fuel
       = Some (Throw
           (if negb (connected (100 * k))
            then Error "Not connected to Steam or web session not ready"
            else match request (100 * k) with
                 | Throw e => e
                 | Return _ => Error "Failed to fetch market history"
                 end))).
Proof.
  intros fetch obtained.
  assert (∀ start, obtained start ↔ ∃ history, fetch start = Return history)
    as Hobt.
  { intros start. unfold obtained, fetch, getMarketHistory, not_connected.
    split.
    - intros (-> & response & -> & ->). cbn. by eexists.
    - intros [history Hh].
      destruct (connected start); [|done]. split; [done|].
      destruct (request start) as [response|e]; [|done].
      exists response. split; [done|].
      by destruct (Response.success response). }
  split; [exact Hobt|].
  intros HM Hbefore Hfail Hk fuel Hfuel.
  set (e := if negb (connected (100 * k)) then _ else _).
  assert (fetch (100 * k) = Throw e) as Hthrow.
  { subst e. unfold fetch, getMarketHistory, not_connected.
    destruct (connected (100 * k)) eqn:Hc; [|done]. cbn [negb].
    destruct (request (100 * k)) as [response|e'] eqn:Hr; [|done].
    destruct (Response.success response) eqn:Hs; [|done]. cbn [negb].
    exfalso. apply Hfail. unfold obtained. rewrite Hc, Hr. eauto. }
  unfold getFullMarketHistory. cbn [negb].
  destruct fuel as [|fuel]; [lia|]. cbn [history_loop].
  assert (more_pages 0 None maxItems = true) as ->.
  { unfold more_pages. by destruct maxItems as [[|l]|]. }
  destruct k as [|k].
  - change (100 * 0) with 0 in Hthrow. by rewrite Hthrow.
  - destruct (proj1 (Hobt 0) (Hbefore 0 ltac:(lia))) as [first Hfirst].
    rewrite Hfirst. change (0 + 100) with (100 * 1).
    apply (history_loop_fails fetch maxItems _ (S k) e HM (Hk first Hfirst))
      with (d := k); [|done|lia|lia].
    intros i Hi. apply Hobt, Hbefore, Hi.
Qed.

Lemma failed_request_fails_all_witness :
  let answer : Response.t :=
    {| Response.success := true; Response.pagesize := Int 100;
       Response.total_count := 250; Response.start := Int 0;
       Response.assets := None; Response.purchases := None;
       Response.listings := None; Response.events := None |} in
  getFullMarketHistory true
    (λ start, getMarketHistory (bool_decide (start < 200)) (Return answer))
    None 3
  = Some (Throw (Error "Not connected to Steam or web session not ready")).
Proof.
  intros answer.
  destruct (failed_request_fails_all (λ start, bool_decide (start < 200))
              (λ _, Return answer) None 2) as [_ H].
  apply H.
  - done.
  - intros i Hi. split; [apply bool_decide_eq_true_2; lia|by exists answer].
  - intros [Hc _]. apply bool_decide_eq_true_1 in Hc. lia.
  - intros first [= <-]. cbn. lia.
  - lia.
Defined.

(** ** The merged purchases *)

Lemma set_prop_keys {V} (target : list (string * V)) (k : string) (v : V)
    (k' : string) :
  k' ∈ (set_prop target k v).*1 ↔ k' = k ∨ k' ∈ target.*1.
Proof.
  induction target as [|[k0 v0] target IH]; cbn.
  - rewrite list_elem_of_singleton, elem_of_nil. tauto.
  - case_bool_decide as Hk; cbn in *.
    + subst k0. rewrite !elem_of_cons. tauto.
    + rewrite !elem_of_cons, IH. tauto.
Qed.

Lemma set_prop_NoDup {V} (target : list (string * V)) (k : string) (v : V) :
  NoDup target.*1 → NoDup (set_prop target k v).*1.
Proof.
  induction target as [|[k0 v0] target IH]; cbn.
  - intros _. apply NoDup_singleton.
  - rewrite NoDup_cons. intros [Hn Hd].
    case_bool_decide as Hk; cbn in *.
    + subst k0. by apply NoDup_cons.
    + apply NoDup_cons. split; [|auto].
      rewrite set_prop_keys. intros [->|Hin]; done.
Qed.

Lemma get_prop_set_prop {V} (target : list (string * V)) (k : string) (v : V)
    (k' : string) :
  get_prop k' (set_prop target k v)
    = if bool_decide (k' = k) then Some v else get_prop k' target.
Proof.
  unfold get_prop.
  induction target as [|[k0 v0] target IH]; cbn [set_prop List.find fst].
  - destruct (decide (k' = k)) as [->|Hne];
      [rewrite !bool_decide_eq_true_2 by done
      |rewrite !bool_decide_eq_false_2 by congruence]; done.
  - destruct (decide (k0 = k)) as [H0|H0].
    + rewrite (bool_decide_eq_true_2 (k0 = k)) by done. subst k0.
      cbn [List.find fst].
      destruct (decide (k' = k)) as [->|H1];
        [rewrite !bool_decide_eq_true_2 by done
        |rewrite !bool_decide_eq_false_2 by congruence]; done.
    + rewrite (bool_decide_eq_false_2 (k0 = k)) by done.
      cbn [List.find fst].
      destruct (decide (k0 = k')) as [H2|H2].
      * rewrite (bool_decide_eq_true_2 (k0 = k')) by done.
        rewrite (bool_decide_eq_false_2 (k' = k)) by congruence. done.
      * rewrite (bool_decide_eq_false_2 (k0 = k')) by done. apply IH.
Qed.

Lemma assign_keys {V} (source target : list (string * V)) (k : string) :
  k ∈ (assign target source).*1
    ↔ k ∈ target.*1 ∨ (k ≠ "__proto__" ∧ k ∈ source.*1).
Proof.
  unfold assign. revert target.
  induction source as [|[k0 v0] source IH]; intros target; cbn [foldl].
  - cbn. rewrite elem_of_nil. tauto.
  - rewrite IH. unfold assign_prop. cbn [fst snd fmap list_fmap].
    rewrite elem_of_cons. case_bool_decide as Hp.
    + subst k0. split; [tauto|].
      intros [H|[Hne [H|H]]]; tauto.
    + rewrite set_prop_keys. split.
      * intros [[->|H]|[Hne H]]; tauto.
      * intros [H|[Hne [->|H]]]; tauto.
Qed.

Lemma assign_NoDup {V} (source target : list (string * V)) :
  NoDup target.*1 → NoDup (assign target source).*1.
Proof.
  unfold assign. revert target.
  induction source as [|[k0 v0] source IH]; intros target Hd; cbn [foldl];
    [done|].
  apply IH. unfold assign_prop. case_bool_decide; [done|].
  by apply set_prop_NoDup.
Qed.

Lemma get_prop_assign_other {V} (source target : list (string * V)) (k : string) :
  k ∉ source.*1 → get_prop k (assign target source) = get_prop k target.
Proof.
  unfold assign. revert target.
  induction source as [|[k0 v0] source IH]; intros target Hk; [done|].
  cbn in Hk. rewrite not_elem_of_cons in Hk. destruct Hk as [Hne Hk].
  cbn [foldl]. rewrite IH by done. unfold assign_prop. cbn [fst snd].
  case_bool_decide; [done|].
  rewrite get_prop_set_prop. by rewrite bool_decide_eq_false_2.
Qed.

Lemma get_prop_assign_source {V} (source target : list (string * V))
    (k : string) (v : V) :
  k ≠ "__proto__" → NoDup source.*1 → (k, v) ∈ source →
  get_prop k (assign target source) = Some v.
Proof.
  intros Hp. revert target.
  induction source as [|[k0 v0] source IH]; intros target Hd Hin.
  - by apply elem_of_nil in Hin.
  - cbn in Hd. apply NoDup_cons in Hd as [Hn Hd].
    change (assign target ((k0, v0) :: source))
      with (assign (assign_prop target (k0, v0)) source).
    apply elem_of_cons in Hin as [[= <- <-]|Hin].
    + rewrite get_prop_assign_other by done.
      unfold assign_prop. cbn [fst snd].
      rewrite bool_decide_eq_false_2 by done.
      rewrite get_prop_set_prop. by rewrite bool_decide_eq_true_2.
    + by apply IH.
Qed.

Lemma merged_purchases_fold (pages : list Page.t) (full : FullHistory.t) :
  FullHistory.purchases (foldl merge_page full pages)
    = foldl assign (FullHistory.purchases full) (Page.purchases <$> pages).
Proof.
  revert full. induction pages as [|p pages IH]; intros full; cbn; [done|].
  by rewrite IH.
Qed.

Lemma fold_assign_NoDup {V} (sources : list (list (string * V)))
    (target : list (string * V)) :
  NoDup target.*1 → NoDup (foldl assign target sources).*1.
Proof.
  revert target. induction sources as [|s sources IH]; intros target Hd; cbn;
    [done|].
  by apply IH, assign_NoDup.
Qed.

Lemma fold_assign_keys {V} (sources : list (list (string * V)))
    (target : list (string * V)) (k : string) :
  k ∈ (foldl assign target sources).*1
    ↔ k ∈ target.*1 ∨ (k ≠ "__proto__" ∧ ∃ s, s ∈ sources ∧ k ∈ s.*1).
Proof.
  revert target. induction sources as [|s sources IH]; intros target;
    cbn [foldl].
  - split; [auto|]. intros [H|(_ & s & Hs & _)]; [done|].
    by apply elem_of_nil in Hs.
  - rewrite IH, assign_keys. split.
    + intros [[H|[Hp H]]|(Hp & s' & Hs' & H)]; [by left| |].
      * right. split; [done|]. exists s.
        split; [apply elem_of_cons; by left|done].
      * right. split; [done|]. exists s'.
        split; [apply elem_of_cons; by right|done].
    + intros [H|(Hp & s' & Hs' & H)]; [by left; left|].
      apply elem_of_cons in Hs' as [->|Hs']; [by left; right|].
      right. split; [done|]. by exists s'.
Qed.

Lemma get_prop_fold_assign_other {V} (sources : list (list (string * V)))
    (target : list (string * V)) (k : string) :
  (∀ s, s ∈ sources → k ∉ s.*1) →
  get_prop k (foldl assign target sources) = get_prop k target.
Proof.
  revert target. induction sources as [|s sources IH]; intros target Hk;
    cbn [foldl]; [done|].
  rewrite IH by (intros s' Hs'; apply Hk, elem_of_cons; by right).
  apply get_prop_assign_other, Hk, elem_of_cons. by left.
Qed.

(** X20 (getFullMarketHistory, lines 1004-1009 and 1036): in the merged
    history every record id occurs once; the ids are those of the pages,
    [__proto__] apart, which is never copied; and a record that several
    pages hold is kept as the last of them has it. *)
Theorem merged_purchases (fetched : nat → Page.t) (n : nat) :
  let full := FullHistory.purchases (merged_pages fetched n) in
  let page i := Page.purchases (fetched (100 * i)) in
  NoDup full.*1 ∧
  (∀ id, id ∈ full.*1 ↔ id ≠ "__proto__" ∧ ∃ i, i < n ∧ id ∈ (page i).*1) ∧
  (∀ i id raw,
     i < n → id ≠ "__proto__" → NoDup (page i).*1 → (id, raw) ∈ page i →
     (∀ j, i < j < n → id ∉ (page j).*1) →
     get_prop id full = Some raw).
Proof.
  intros full page. subst full. unfold merged_pages.
  rewrite merged_purchases_fold. rewrite <- list_fmap_compose.
  change (Page.purchases ∘ (λ i, fetched (100 * i))) with page.
  change (FullHistory.purchases empty_history) with (@nil (string * Raw.t)).
  split; [|split].
  - apply fold_assign_NoDup. constructor.
  - intros id. rewrite fold_assign_keys. split.
    + intros [H|(Hp & s & Hs & H)]; [by apply elem_of_nil in H|].
      split; [done|].
      apply list_elem_of_fmap in Hs as (i & -> & Hi).
      apply elem_of_seq in Hi. exists i. split; [lia|done].
    + intros (Hp & i & Hi & H). right. split; [done|].
      exists (page i). split; [|done].
      apply list_elem_of_fmap. exists i. split; [done|].
      apply elem_of_seq. lia.
  - intros i id raw Hi Hp Hd Hin Hlater.
    replace n with (i + S (n - S i)) by lia.
    rewrite seq_app, fmap_app, foldl_app. cbn [seq fmap list_fmap foldl].
    rewrite get_prop_fold_assign_other.
    + by apply get_prop_assign_source.
    + intros s Hs. apply list_elem_of_fmap in Hs as (j & -> & Hj).
      apply elem_of_seq in Hj. apply Hlater. lia.
Qed.

Lemma merged_purchases_witness :
  let page (start : nat) : Page.t :=
    {| Page.success := true; Page.pagesize := Int 100;
       Page.total_count := 250; Page.start := Int (Z.of_nat start);
       Page.assets := ∅;
       Page.purchases := [("p1", my_purchase "X" (pretty start) 10)];
       Page.listings := []; Page.events := [] |} in
  get_prop "p1" (FullHistory.purchases (merged_pages page 3))
    = Some (my_purchase "X" (pretty (100 * 2)) 10).
Proof.
  intros page.
  destruct (merged_purchases page 3) as (_ & _ & H).
  apply (H 2).
  - lia.
  - done.
  - apply NoDup_singleton.
  - apply list_elem_of_singleton. reflexivity.
  - intros j Hj. lia.
Defined.

(** * Properties of the inventory and of the data of a report *)

Lemma in_app_app (k : string) (l1 l2 : list FullItem.t) :
  in_app k (l1 ++ l2) = in_app k l1 ++ in_app k l2.
Proof. unfold in_app. apply List.filter_app. Qed.

Lemma in_app_itemsWithMeta (k : string) (config : Config.t)
    (inventoryData : InventoryData.t) :
  in_app k (itemsWithMeta config inventoryData)
    = if bool_decide (String (Config.appId config) = k)
      then itemsWithMeta config inventoryData else [].
Proof.
  unfold in_app, itemsWithMeta.
  induction (InventoryData.items inventoryData) as [|item items IH];
    cbn [fmap list_fmap List.filter FullItem.appId].
  - by case_bool_decide.
  - fold (@fmap list _ _ _
            (λ item, {| FullItem.item := item;
                        FullItem.appId := Config.appId config;
                        FullItem.contextId :=
                          default (Int 2) (Config.contextId config) |}) items).
    rewrite IH. by case_bool_decide.
Qed.

Lemma inventory_step_groups (fullInventory : FullInventory.t)
    (source : Config.t * completion InventoryData.t) :
  groups_invariant fullInventory →
  groups_invariant (inventory_step fullInventory source).
Proof.
  intros Hinv. unfold inventory_step.
  destruct source as [config [inventoryData|e]]; cbn [fst snd]; [|done].
  case_bool_decide as Hproto; intros k; specialize (Hinv k);
    cbn [FullInventory.items FullInventory.byApp].
  - rewrite in_app_app, in_app_itemsWithMeta.
    case_bool_decide as Hk.
    + subst k. destruct (FullInventory.byApp fullInventory !! _);
        [by destruct Hinv|done].
    + rewrite app_nil_r. done.
  - rewrite in_app_app, in_app_itemsWithMeta.
    destruct (decide (String (Config.appId config) = k)) as [Hk|Hk].
    + rewrite bool_decide_eq_true_2 by done. subst k.
      rewrite lookup_insert_eq. cbn [ByApp.items ByApp.count].
      split; [done|]. split; [|done].
      destruct (FullInventory.byApp fullInventory !! _) as [group|];
        unfold default; cbn [from_option id ByApp.items].
      * destruct Hinv as (_ & -> & _). done.
      * by rewrite (Hinv Hproto).
    + rewrite bool_decide_eq_false_2 by done.
      rewrite lookup_insert_ne by done. rewrite app_nil_r. done.
Qed.

Lemma inventory_loop_groups sources fullInventory :
  groups_invariant fullInventory →
  groups_invariant (foldl inventory_step fullInventory sources).
Proof.
  revert fullInventory.
  induction sources as [|source sources IH]; intros fullInventory Hinv;
    cbn [foldl]; [done|].
  by apply IH, inventory_step_groups.
Qed.

Lemma inventory_step_answered (fullInventory : FullInventory.t)
    (source : Config.t * completion InventoryData.t) :
  let r := inventory_step fullInventory source in
  let done := answered source in
  FullInventory.items r
    = FullInventory.items fullInventory
        ++ (done ≫= λ s, itemsWithMeta s.1 s.2) ∧
  FullInventory.currencies r
    = FullInventory.currencies fullInventory
        ++ (List.filter grouped done ≫= λ s, InventoryData.currencies s.2) ∧
  (∀ k, is_Some (FullInventory.byApp r !! k)
        ↔ is_Some (FullInventory.byApp fullInventory !! k)
          ∨ ∃ s, s ∈ List.filter grouped done ∧ app_key s = k).
Proof.
  destruct source as [config [inventoryData|e]];
    unfold inventory_step, answered; cbn [fst snd]; cbn zeta.
  - cbn [List.filter]. unfold grouped, app_key. cbn [fst snd].
    destruct (decide (String (Config.appId config) ∈ Object_prototype))
      as [Hproto|Hproto].
    + rewrite (bool_decide_eq_true_2 _ Hproto).
      rewrite bool_decide_eq_false_2 by (intros H; by apply H).
      cbn [FullInventory.items FullInventory.currencies FullInventory.byApp].
      change ([(config, inventoryData)] ≫= _)
        with (itemsWithMeta config inventoryData ++ []).
      change ([] ≫= _) with (@nil value).
      rewrite !app_nil_r. split; [done|]. split; [done|].
      intros k. split; [auto|]. intros [H|(s & Hs & _)]; [done|].
      by apply elem_of_nil in Hs.
    + rewrite (bool_decide_eq_false_2 _ Hproto).
      rewrite bool_decide_eq_true_2 by done.
      cbn [FullInventory.items FullInventory.currencies FullInventory.byApp].
      change ([(config, inventoryData)] ≫= (λ s, itemsWithMeta s.1 s.2))
        with (itemsWithMeta config inventoryData ++ []).
      change ([(config, inventoryData)] ≫= (λ s, InventoryData.currencies s.2))
        with (InventoryData.currencies inventoryData ++ []).
      rewrite !app_nil_r. split; [done|]. split; [done|].
      intros k.
      destruct (decide (String (Config.appId config) = k)) as [Hk|Hk].
      * subst k. rewrite lookup_insert_eq. split.
        -- intros _. right. exists (config, inventoryData).
           split; [apply list_elem_of_singleton; done|done].
        -- intros _. by eexists.
      * rewrite lookup_insert_ne by done. split; [auto|].
        intros [H|(s & Hs & Hks)]; [done|].
        apply list_elem_of_singleton in Hs. by subst s.
  - cbn [List.filter mbind list_bind].
    rewrite !app_nil_r. split; [done|]. split; [done|].
    intros k. split; [auto|]. intros [H|(s & Hs & _)]; [done|].
    by apply elem_of_nil in Hs.
Qed.

Lemma inventory_loop_answered sources fullInventory :
  let r := foldl inventory_step fullInventory sources in
  let done := sources ≫= answered in
  FullInventory.items r
    = FullInventory.items fullInventory
        ++ (done ≫= λ s, itemsWithMeta s.1 s.2) ∧
  FullInventory.currencies r
    = FullInventory.currencies fullInventory
        ++ (List.filter grouped done ≫= λ s, InventoryData.currencies s.2) ∧
  (∀ k, is_Some (FullInventory.byApp r !! k)
        ↔ is_Some (FullInventory.byApp fullInventory !! k)
          ∨ ∃ s, s ∈ List.filter grouped done ∧ app_key s = k).
Proof.
  revert fullInventory.
  induction sources as [|source sources IH]; intros fullInventory.
  - cbn. rewrite !app_nil_r. split; [done|]. split; [done|].
    intros k. split; [auto|]. intros [H|(s & Hs & _)]; [done|].
    by apply elem_of_nil in Hs.
  - cbn [foldl]. cbn zeta in IH.
    destruct (IH (inventory_step fullInventory source)) as (-> & -> & Hdom).
    clear IH.
    destruct (inventory_step_answered fullInventory source)
      as (-> & -> & Hstep). cbn zeta in Hstep.
    change (source :: sources) with ([source] ++ sources).
    rewrite bind_app.
    change ([source] ≫= answered) with (answered source ++ []).
    rewrite app_nil_r, List.filter_app, !bind_app, <- !app_assoc.
    split; [done|]. split; [done|].
    intros k. rewrite Hdom, Hstep. split.
    + intros [[H|(s & Hs & Hk)]|(s & Hs & Hk)]; [by left| |];
        right; exists s; (split; [|done]); apply elem_of_app; auto.
    + intros [H|(s & Hs & Hk)]; [by left; left|].
      apply elem_of_app in Hs as [Hs|Hs]; [left; right|right]; by exists s.
Qed.

(** X21 (getFullInventory, lines 887-955): a connected client always gets an
    inventory, whatever the sources answer. Its items are those of the
    sources that answered, in order, tagged with the application and the
    context (2 by default), and [total] counts them; a source that fails is
    skipped. There is a group for the key of each source that answered,
    unless the key is a name that objects inherit; a group holds the items
    of its application in order, and its count is their number. *)
Theorem full_inventory_groups
    (sources : list (Config.t * completion InventoryData.t)) :
  let done := sources ≫= answered in
  ∃ r, getFullInventory true sources = Return r ∧
    FullInventory.items r = (done ≫= λ s, itemsWithMeta s.1 s.2) ∧
    FullInventory.total r = length (FullInventory.items r) ∧
    FullInventory.currencies r
      = (List.filter grouped done ≫= λ s, InventoryData.currencies s.2) ∧
    ∀ k,
      (is_Some (FullInventory.byApp r !! k)
         ↔ (k ∉ Object_prototype) ∧ ∃ s, s ∈ done ∧ app_key s = k) ∧
      ∀ group, FullInventory.byApp r !! k = Some group →
        ByApp.items group = in_app k (FullInventory.items r) ∧
        ByApp.count group = length (ByApp.items group).
Proof.
  intros done. unfold getFullInventory. cbn [negb].
  eexists. split; [done|].
  cbn [FullInventory.items FullInventory.total FullInventory.currencies
       FullInventory.byApp].
  destruct (inventory_loop_answered sources empty_inventory) as (Hi & Hc & Hdom).
  cbn zeta in *. fold done in Hi, Hc, Hdom.
  split; [exact Hi|]. split; [done|]. split; [exact Hc|].
  intros k. split.
  - rewrite Hdom. split.
    + intros [[x Hx]|(s & Hs & Hk)];
        [cbn [empty_inventory FullInventory.byApp] in Hx;
         by rewrite lookup_empty in Hx|].
      apply list_elem_of_In, filter_In in Hs as [Hs Hg].
      apply bool_decide_eq_true_1 in Hg. rewrite Hk in Hg.
      split; [done|]. exists s. by rewrite list_elem_of_In.
    + intros (Hp & s & Hs & Hk). right. exists s. split; [|done].
      apply list_elem_of_In, filter_In. split; [by apply list_elem_of_In|].
      apply bool_decide_eq_true_2. by rewrite Hk.
  - intros group Hg.
    assert (groups_invariant empty_inventory) as H0.
    { intros k'. cbn. by rewrite lookup_empty. }
    pose proof (inventory_loop_groups sources _ H0 k) as Hinv.
    rewrite Hg in Hinv. by destruct Hinv as (_ & ? & ?).
Qed.

Lemma full_inventory_groups_witness :
  let item id := {| InventoryItem.assetid := Str id;
                    InventoryItem.icon_url := Str "icon" |} in
  let data items := {| InventoryData.items := items;
                       InventoryData.total := length items;
                       InventoryData.currencies := [] |} in
  let config appId := {| Config.appId := Int appId; Config.contextId := None;
                         Config.tradableOnly := None |} in
  let sources := [(config 730%Z, Return (data [item "A1"]));
                  (config 440%Z, Throw (Error "private inventory"));
                  (config 730%Z, Return (data [item "A2"]))] in
  ∃ r group, getFullInventory true sources = Return r ∧
    FullInventory.total r = 2 ∧
    FullInventory.byApp r !! "440" = None ∧
    FullInventory.byApp r !! "730" = Some group ∧
    ByApp.count group = 2.
Proof.
  intros item data config sources.
  destruct (full_inventory_groups sources) as (r & Hr & Hitems & Htotal & _ & Hk).
  assert (∀ k : string, k = "730" ∨ k = "440" → k ∉ Object_prototype) as Hplain.
  { intros k Hk' Hin. unfold Object_prototype in Hin.
    repeat (apply elem_of_cons in Hin as [Hin|Hin];
            [by destruct Hk' as [-> | ->]|]).
    by apply elem_of_nil in Hin. }
  destruct (Hk "730") as [H730 Hgroup].
  destruct (proj2 H730) as [group Hg].
  { split; [apply Hplain; by left|].
    exists (config 730%Z, data [item "A1"]). split; [|done].
    apply elem_of_cons. by left. }
  exists r, group. split; [exact Hr|].
  split; [by rewrite Htotal, Hitems|].
  split.
  - destruct (Hk "440") as [H440 _]. apply eq_None_not_Some. intros Hs.
    apply H440 in Hs as (_ & s & Hs & Hkey).
    cbn in Hs. repeat (apply elem_of_cons in Hs as [->|Hs]; [discriminate Hkey|]).
    by apply elem_of_nil in Hs.
  - split; [exact Hg|].
    destruct (Hgroup group Hg) as [Hgi Hgc]. rewrite Hgc, Hgi, Hitems. done.
Defined.

Lemma dates_valid_dec (transactions : list Tx.t) :
  dates_valid transactions ∨ ¬ dates_valid transactions.
Proof.
  unfold dates_valid.
  destruct (decide (Forall (λ t, valid_date (time_value (Tx.time_sold t)) = true)
                      transactions)); auto.
Qed.

Lemma statistics_return (data : ParseResult.t) (o : Overall.t) :
  calculateTransactionStatistics data = Return o →
  dates_valid (ParseResult.transactions data).
Proof.
  intros Ho. destruct (dates_valid_dec (ParseResult.transactions data))
    as [|Hn]; [done|].
  unfold calculateTransactionStatistics in Ho.
  by rewrite (aggregate_invalid _ _ Hn) in Ho.
Qed.

(** X22 (fetchMarketData, index.js lines 260-279): the market data of a
    report are all there or not at all. They are there exactly when the
    history was fetched, the client has its analyzer and every timestamp of
    the parsed history is in the range of [Date]; then they hold the fetched
    history, the statistics and the results of the parsed history, and the
    match against the inventory, which is null when there is no inventory.
    In every other case - a single timestamp out of range is enough - the
    result is the empty object, the fetched history included. *)
Theorem market_data_all_or_nothing (client : SteamClient.t)
    (marketHistory : completion FullHistory.t)
    (inventory : option FullInventory.t) :
  (∀ d, fetchMarketData client marketHistory inventory = Some d ↔
     ∃ full self,
       marketHistory = Return full ∧
       SteamClient.marketAnalyzer client = Some self ∧
       let r := parse_entries self (as_history full) (FullHistory.purchases full) in
       dates_valid (ParseResult.transactions r) ∧
       MarketData.market_history d = full ∧
       calculateTransactionStatistics r
         = Return (MarketData.market_overall_stats d) ∧
       MarketData.market_stats d = roi_results (ParseResult.transactions r) ∧
       MarketData.matched_inventory_with_purchases d
         = (λ inventory,
              matchInventoryWithPurchases (ParseResult.transactions r)
                (FullItem.item <$> FullInventory.items inventory)) <$> inventory) ∧
  (∀ full self,
     marketHistory = Return full →
     SteamClient.marketAnalyzer client = Some self →
     let r := parse_entries self (as_history full) (FullHistory.purchases full) in
     (dates_valid (ParseResult.transactions r) →
      is_Some (fetchMarketData client marketHistory inventory)) ∧
     (¬ dates_valid (ParseResult.transactions r) →
      fetchMarketData client marketHistory inventory = None)).
Proof.
  unfold fetchMarketData, client_parseMarketHistory,
    client_calculateTransactionStatistics, client_calculateROI,
    client_matchInventoryWithPurchases, with_analyzer.
  split.
  - intros d. split.
    + intros H. destruct marketHistory as [full|e]; [|done].
      destruct (SteamClient.marketAnalyzer client) as [self|]; [|done].
      exists full, self. split; [done|]. split; [done|].
      cbn [parseMarketHistory as_history History.purchases] in H.
      cbn zeta.
      destruct (calculateTransactionStatistics _) as [o|e] eqn:Ho; [|done].
      cbn [calculateROI] in H.
      split; [by apply (statistics_return _ o)|].
      destruct inventory as [inv|]; simplify_eq; done.
    + intros (full & self & -> & -> & Hv & <- & Ho & Hroi & Hm).
      cbn [parseMarketHistory as_history History.purchases].
      cbn zeta in Ho. rewrite Ho. cbn [calculateROI].
      destruct d as [h o r m]. cbn in Hroi, Hm. subst r m.
      by destruct inventory.
  - intros full self -> ->. cbn zeta.
    cbn [parseMarketHistory as_history History.purchases].
    unfold calculateTransactionStatistics. split.
    + intros Hv.
      destruct (aggregate_totals aggregate_init _ Hv) as (st & -> & _).
      cbn [calculateROI]. by destruct inventory.
    + intros Hn. by rewrite (aggregate_invalid _ _ Hn).
Qed.

Lemma market_data_all_or_nothing_witness :
  let client := step (new_SteamClient (Str "main"))
                  (SteamClient.loggedOn "76561198000000001") in
  let full (entries : list (string * Raw.t)) :=
    {| FullHistory.assets := ∅; FullHistory.purchases := entries;
       FullHistory.listings := []; FullHistory.events := [] |} in
  is_Some (fetchMarketData client (Return (full two_purchases)) None) ∧
  fetchMarketData client (Return (full far_future)) None = None.
Proof.
  intros client full. split.
  - destruct (market_data_all_or_nothing client (Return (full two_purchases)) None)
      as [_ H].
    destruct (H (full two_purchases) analyzer eq_refl eq_refl) as [Hv _].
    apply Hv. repeat constructor.
  - destruct (market_data_all_or_nothing client (Return (full far_future)) None)
      as [_ H].
    destruct (H (full far_future) analyzer eq_refl eq_refl) as [Hv Hn].
    apply Hn. intros Hd. destruct (Hv Hd) as [d Hd']. vm_compute in Hd'.
    discriminate Hd'.
Defined.

(** X23 (getFullMarketHistory with parseMarketHistory, as fetchMarketData
    composes them): the parser accepts every merged history, and counts each
    record once, however many pages repeat it: the number of transactions it
    reports, and the sum of its purchases and sales, is the number of
    distinct record ids of the pages. *)
Theorem merged_history_is_parsed (self : MarketAnalyzer)
    (fetched : nat → Page.t) (n : nat) :
  let full := merged_pages fetched n in
  let ids :=
    List.filter (λ id, bool_decide (id ≠ "__proto__"))
      (seq 0 n ≫= λ i, (Page.purchases (fetched (100 * i))).*1) in
  ∃ r, parseMarketHistory self (Some (as_history full)) = Return r ∧
    ParseResult.totalTransactions r = length (remove_dups ids) ∧
    ParseResult.purchases_count r + ParseResult.sales_count r
      = length (remove_dups ids).
Proof.
  intros full ids.
  exists (parse_entries self (as_history full) (FullHistory.purchases full)).
  split; [done|].
  assert (length (FullHistory.purchases full) = length (remove_dups ids)) as <-.
  { rewrite <- (length_fmap fst (FullHistory.purchases full)).
    apply Permutation_length, NoDup_Permutation.
    - subst full. unfold merged_pages. rewrite merged_purchases_fold.
      apply fold_assign_NoDup. constructor.
    - apply NoDup_remove_dups.
    - intros id. rewrite elem_of_remove_dups. subst full ids.
      unfold merged_pages. rewrite merged_purchases_fold.
      rewrite fold_assign_keys.
      assert (∀ l, id ∈ List.filter (λ id, bool_decide (id ≠ "__proto__")) l
                   ↔ id ∈ l ∧ id ≠ "__proto__") as ->.
      { intros l. rewrite !list_elem_of_In, filter_In.
        by rewrite bool_decide_eq_true. }
      rewrite list_elem_of_bind. split.
      + intros [H|(Hp & s & Hs & H)]; [by apply elem_of_nil in H|].
        split; [|done].
        apply list_elem_of_fmap in Hs as (p & -> & Hp').
        apply list_elem_of_fmap in Hp' as (i & -> & Hi).
        by exists i.
      + intros [(i & H & Hi) Hp]. right. split; [done|].
        exists (Page.purchases (fetched (100 * i))). split; [|done].
        apply list_elem_of_fmap. exists (fetched (100 * i)). split; [done|].
        apply list_elem_of_fmap. by exists i. }
  unfold parse_entries. simpl. rewrite classify_spec. simpl.
  rewrite !length_fmap.
  pose proof (List.filter_length (mine (String (steamId self)))
                (FullHistory.purchases full)).
  split; lia.
Qed.

Lemma market_data_matched (client : SteamClient.t)
    (marketHistory : completion FullHistory.t)
    (inventory : option FullInventory.t) (d : MarketData.t) :
  fetchMarketData client marketHistory inventory = Some d →
  (MarketData.matched_inventory_with_purchases d = None ↔ inventory = None).
Proof.
  unfold fetchMarketData, client_parseMarketHistory,
    client_calculateTransactionStatistics, client_calculateROI,
    client_matchInventoryWithPurchases, with_analyzer.
  intros H. destruct marketHistory as [full|e]; [|done].
  destruct (SteamClient.marketAnalyzer client) as [self|]; [|done].
  cbn [parseMarketHistory as_history History.purchases] in H.
  destruct (calculateTransactionStatistics _) as [o|e] eqn:Ho; [|done].
  cbn [calculateROI] in H.
  destruct inventory as [inv|]; simplify_eq; done.
Qed.

(** X24 (fetchSteamData and fetchInventory, index.js lines 231-258): the
    result is never null - an empty object counts as data, so the branch
    that returns null is dead. When the inventory and the market history
    both fail, the report has a null inventory and no market data; the
    inventory is null exactly when fetching it failed, and then the match
    of the market data is null as well. *)
Theorem steam_data_is_never_null (client : SteamClient.t)
    (inventory : completion FullInventory.t)
    (marketHistory : completion FullHistory.t) :
  ∃ report, fetchSteamData client inventory marketHistory = Some report ∧
    ReportData.accountId report = SteamClient.accountId client ∧
    (ReportData.inventory report = None ↔ throws inventory) ∧
    (throws marketHistory → ReportData.market report = None) ∧
    (∀ d, ReportData.market report = Some d →
       (MarketData.matched_inventory_with_purchases d = None ↔ throws inventory)).
Proof.
  unfold fetchSteamData. rewrite andb_false_r.
  eexists. split; [done|].
  cbn [ReportData.accountId ReportData.inventory ReportData.market].
  split; [done|]. split; [|split].
  - by destruct inventory.
  - intros Ht. destruct marketHistory; [by destruct Ht|done].
  - intros d Hd. apply market_data_matched in Hd.
    rewrite Hd. by destruct inventory.
Qed.

Lemma steam_data_is_never_null_witness :
  let client := new_SteamClient (Str "main") in
  ∃ report,
    fetchSteamData client not_connected not_connected = Some report ∧
    ReportData.inventory report = None ∧ ReportData.market report = None.
Proof.
  intros client.
  destruct (steam_data_is_never_null client not_connected not_connected)
    as (report & Hr & _ & Hinv & Hmarket & _).
  exists report. split; [exact Hr|]. split.
  - by apply Hinv.
  - by apply Hmarket.
Defined.

(** * Properties of the workbook handler *)

Lemma indexOf_None (names : list string) (x : string) :
  indexOf names x = None ↔ x ∉ names.
Proof.
  induction names as [|name names IH]; cbn [indexOf].
  - split; [intros _; apply not_elem_of_nil|done].
  - rewrite not_elem_of_cons. case_bool_decide as Hn.
    + split; [done|]. intros [Hne _]. by subst.
    + destruct (indexOf names x) eqn:Hi; cbn.
      * split; [done|]. intros [_ H]. by apply IH in H.
      * split; [|done]. intros _. split; [congruence|]. by apply IH.
Qed.

Lemma indexOf_delete (names : list string) (x : string) (i : nat) :
  NoDup names → indexOf names x = Some i → delete i names = without x names.
Proof.
  unfold without. revert i.
  induction names as [|name names IH]; intros i Hd Hi; [done|].
  apply NoDup_cons in Hd as [Hn Hd]. cbn [indexOf] in Hi.
  cbn [List.filter]. case_bool_decide as Hx.
  - simplify_eq. rewrite bool_decide_eq_false_2 by (intros H; by apply H).
    cbn. symmetry. apply forallb_filter_id, forallb_forall.
    intros n Hin. apply bool_decide_eq_true_2. intros ->.
    by apply Hn, list_elem_of_In.
  - rewrite bool_decide_eq_true_2 by done.
    destruct (indexOf names x) as [j|] eqn:Hj; [|done].
    cbn in Hi. simplify_eq. cbn. f_equal. by apply IH.
Qed.

Lemma renamed_absent (names : list string) (x y : string) :
  x ∉ names → renamed x y names = names.
Proof.
  unfold renamed. induction names as [|n names IH]; intros Hn; [done|].
  apply not_elem_of_cons in Hn as [Hne Hn].
  cbn. rewrite bool_decide_eq_false_2 by done. f_equal. by apply IH.
Qed.

Lemma indexOf_insert (names : list string) (x y : string) (i : nat) :
  NoDup names → indexOf names x = Some i →
  <[i := y]> names = renamed x y names.
Proof.
  revert i.
  induction names as [|name names IH]; intros i Hd Hi; [done|].
  apply NoDup_cons in Hd as [Hn Hd]. cbn [indexOf] in Hi.
  unfold renamed. cbn [fmap list_fmap]. case_bool_decide as Hx.
  - simplify_eq. cbn. f_equal. symmetry. by apply renamed_absent.
  - destruct (indexOf names x) as [j|] eqn:Hj; [|done].
    cbn in Hi. simplify_eq. cbn. f_equal. by apply IH.
Qed.

Lemma elem_of_without (x name : string) (names : list string) :
  name ∈ without x names ↔ name ∈ names ∧ name ≠ x.
Proof.
  unfold without. rewrite !list_elem_of_In, filter_In.
  by rewrite bool_decide_eq_true.
Qed.

Lemma NoDup_without (x : string) (names : list string) :
  NoDup names → NoDup (without x names).
Proof.
  unfold without. induction 1 as [|n names Hn Hd IH]; cbn; [constructor|].
  case_bool_decide; [|done]. constructor; [|done].
  intros Hin. apply Hn. by apply elem_of_without in Hin as [? _].
Qed.

(** X25 (deleteSheet, lines 98-111): on a consistent workbook, deleting a
    sheet that is not there throws and changes nothing; deleting one that
    is there removes its name and its worksheet, keeps the order and the
    worksheets of the others, and leaves the workbook consistent. *)
Theorem deleteSheet_removes_one {worksheet} (workbook : Workbook.t worksheet)
    (sheetName : string) :
  consistent workbook →
  (sheetName ∉ Workbook.SheetNames workbook →
   deleteSheet (Some workbook) sheetName = not_found sheetName) ∧
  (sheetName ∈ Workbook.SheetNames workbook →
   ∃ workbook', deleteSheet (Some workbook) sheetName = Return workbook' ∧
     consistent workbook' ∧
     Workbook.SheetNames workbook'
       = without sheetName (Workbook.SheetNames workbook) ∧
     Workbook.Sheets workbook' !! sheetName = None ∧
     ∀ other, other ≠ sheetName →
       Workbook.Sheets workbook' !! other = Workbook.Sheets workbook !! other).
Proof.
  intros (Hd & Hdom & Hws). unfold deleteSheet. split.
  - intros Hn. apply indexOf_None in Hn. by rewrite Hn.
  - intros Hin.
    destruct (indexOf (Workbook.SheetNames workbook) sheetName) as [i|] eqn:Hi;
      [|by apply indexOf_None in Hi].
    eexists. split; [done|].
    cbn [Workbook.SheetNames Workbook.Sheets].
    rewrite (indexOf_delete _ _ _ Hd Hi).
    split; [|split; [done|split]].
    + split; [|split]; cbn [Workbook.SheetNames Workbook.Sheets].
      * by apply NoDup_without.
      * intros name. rewrite elem_of_without, Hdom.
        destruct (decide (name = sheetName)) as [->|Hne].
        -- rewrite lookup_delete_eq. split; [by intros [_ ?]|by intros [? ?]].
        -- rewrite lookup_delete_ne by done. tauto.
      * intros name Hname. apply elem_of_without in Hname as [Hname Hne].
        unfold get_sheet. rewrite lookup_delete_ne by done. by apply Hws.
    + apply lookup_delete_eq.
    + intros other Hne. by apply lookup_delete_ne.
Qed.

Lemma report_workbook_consistent : consistent report_workbook.
Proof.
  split; [|split].
  - apply (bool_decide_unpack _). vm_compute. exact I.
  - intros name. cbn [report_workbook Workbook.SheetNames Workbook.Sheets].
    rewrite !elem_of_cons, elem_of_nil.
    rewrite !lookup_insert_is_Some, lookup_empty, is_Some_alt.
    split; [intros [->|[->|[->|[]]]]|]; try tauto.
    + right. split; [done|]. tauto.
    + right. split; [done|]. right. split; [done|]. tauto.
    + intros [<-|[_ [<-|[_ [<-|[_ []]]]]]]; tauto.
  - intros name. cbn [report_workbook Workbook.SheetNames Workbook.Sheets].
    rewrite !elem_of_cons, elem_of_nil.
    intros [->|[->|[->|[]]]]; vm_compute; by eexists.
Qed.

Lemma deleteSheet_removes_one_witness :
  ∃ workbook', deleteSheet (Some report_workbook) "ROI" = Return workbook' ∧
    Workbook.SheetNames workbook' = ["Dashboard"; "Inventory"] ∧
    deleteSheet (Some workbook') "ROI" = not_found "ROI".
Proof.
  destruct (deleteSheet_removes_one report_workbook "ROI"
              report_workbook_consistent) as [_ Hin].
  destruct Hin as (workbook' & Hr & Hc' & Hnames & _).
  { cbn. rewrite !elem_of_cons. tauto. }
  exists workbook'. split; [exact Hr|]. split; [by rewrite Hnames|].
  destruct (deleteSheet_removes_one workbook' "ROI" Hc') as [Hout _].
  apply Hout. rewrite Hnames. vm_compute.
  intros H. repeat (apply elem_of_cons in H as [H|H]; [discriminate H|]).
  by apply elem_of_nil in H.
Defined.

Lemma set_sheet_insert {worksheet}
    (Sheets : gmap string (option worksheet)) (name : string)
    (v : option worksheet) :
  name ≠ "__proto__" ∨ is_Some (Sheets !! name) →
  set_sheet Sheets name v = <[name := v]> Sheets.
Proof.
  unfold set_sheet. intros [Hne|[x Hx]].
  - destruct (Sheets !! name); [done|]. by rewrite bool_decide_eq_false_2.
  - by rewrite Hx.
Qed.

Lemma elem_of_renamed (oldName newName name : string) (names : list string) :
  oldName ∈ names →
  name ∈ renamed oldName newName names
    ↔ name = newName ∨ (name ≠ oldName ∧ name ∈ names).
Proof.
  intros Hin. unfold renamed. rewrite list_elem_of_fmap. split.
  - intros (n & -> & Hn). case_bool_decide; [by left|by right].
  - intros [->|[Hno Hn]].
    + exists oldName. by rewrite bool_decide_eq_true_2.
    + exists name. by rewrite bool_decide_eq_false_2.
Qed.

(** X26 (renameSheet, lines 429-444): on a consistent workbook, renaming a
    sheet to a name that is not in use, and is not [__proto__], puts the new
    name at the place of the old one, moves the worksheet to it, leaves the
    other sheets alone and keeps the workbook consistent; renaming a sheet
    that is not there throws. *)
Theorem renameSheet_moves_sheet {worksheet} (workbook : Workbook.t worksheet)
    (oldName newName : string) :
  consistent workbook →
  newName ∉ Workbook.SheetNames workbook →
  newName ≠ "__proto__" →
  (oldName ∉ Workbook.SheetNames workbook →
   renameSheet (Some workbook) oldName newName = not_found oldName) ∧
  (oldName ∈ Workbook.SheetNames workbook →
   ∃ workbook', renameSheet (Some workbook) oldName newName = Return workbook' ∧
     consistent workbook' ∧
     Workbook.SheetNames workbook'
       = renamed oldName newName (Workbook.SheetNames workbook) ∧
     Workbook.Sheets workbook' !! newName = Workbook.Sheets workbook !! oldName ∧
     Workbook.Sheets workbook' !! oldName = None ∧
     ∀ other, other ≠ oldName → other ≠ newName →
       Workbook.Sheets workbook' !! other = Workbook.Sheets workbook !! other).
Proof.
  intros (Hd & Hdom & Hws) Hnew Hproto. unfold renameSheet. split.
  - intros Hn. apply indexOf_None in Hn. by rewrite Hn.
  - intros Hin.
    assert (oldName ≠ newName) as Hne by (intros ->; done).
    destruct (indexOf (Workbook.SheetNames workbook) oldName) as [i|] eqn:Hi;
      [|by apply indexOf_None in Hi].
    eexists. split; [done|].
    cbn [Workbook.SheetNames Workbook.Sheets].
    rewrite (indexOf_insert _ _ _ _ Hd Hi).
    rewrite set_sheet_insert by (by left).
    destruct (proj1 (Hdom oldName) Hin) as [v Hv].
    assert (get_sheet (Workbook.Sheets workbook) oldName = v) as Hget
      by (unfold get_sheet; by rewrite Hv).
    rewrite Hget.
    split; [|split; [done|split; [|split]]].
    + split; [|split]; cbn [Workbook.SheetNames Workbook.Sheets].
      * unfold renamed. apply (NoDup_fmap_2_strong _); [|done].
        intros a b Ha Hb. repeat case_bool_decide; congruence.
      * intros name. rewrite (elem_of_renamed _ _ _ _ Hin).
        destruct (decide (name = oldName)) as [->|Hno].
        -- rewrite lookup_delete_eq. split; [|by intros [? ?]].
           intros [->|[? _]]; done.
        -- rewrite lookup_delete_ne by done.
           destruct (decide (name = newName)) as [->|Hnn].
           ++ rewrite lookup_insert_eq. split; [by eexists|by left].
           ++ rewrite lookup_insert_ne by done. rewrite <- Hdom.
              split; [by intros [?|[_ ?]]|by right].
      * intros name. rewrite (elem_of_renamed _ _ _ _ Hin). unfold get_sheet.
        intros [->|[Hno Hn]].
        -- rewrite lookup_delete_ne by done. rewrite lookup_insert_eq.
           specialize (Hws oldName Hin). unfold get_sheet in Hws.
           by rewrite Hv in Hws.
        -- rewrite lookup_delete_ne by done.
           rewrite lookup_insert_ne by (intros <-; done).
           by apply Hws.
    + rewrite lookup_delete_ne by done. by rewrite lookup_insert_eq.
    + apply lookup_delete_eq.
    + intros other Ho Hn. rewrite lookup_delete_ne by done.
      by rewrite lookup_insert_ne.
Qed.

Lemma renameSheet_moves_sheet_witness :
  ∃ workbook', renameSheet (Some report_workbook) "ROI" "Profit" = Return workbook' ∧
    Workbook.SheetNames workbook' = ["Dashboard"; "Profit"; "Inventory"] ∧
    Workbook.Sheets workbook' !! "Profit" = Some (Some 2).
Proof.
  destruct (renameSheet_moves_sheet report_workbook "ROI" "Profit"
              report_workbook_consistent) as [_ Hin].
  - vm_compute. intros H.
    repeat (apply elem_of_cons in H as [H|H]; [discriminate H|]).
    by apply elem_of_nil in H.
  - done.
  - destruct Hin as (workbook' & Hr & _ & Hnames & Hsheet & _).
    { cbn. rewrite !elem_of_cons. tauto. }
    exists workbook'. split; [exact Hr|]. split; [by rewrite Hnames|].
    by rewrite Hsheet.
Defined.

(** X27 (renameSheet, lines 439-441): on a consistent workbook, renaming a
    sheet to its own name returns normally but the worksheet is gone and the
    workbook is not consistent any more: the list still names the sheet,
    which has no worksheet. Renaming it to the name of another sheet leaves
    that name twice in the list and puts the worksheet of the renamed sheet
    in the place of the other one. *)
Theorem renameSheet_loses_sheet {worksheet} (workbook : Workbook.t worksheet)
    (oldName : string) :
  consistent workbook →
  oldName ∈ Workbook.SheetNames workbook →
  (∃ workbook', renameSheet (Some workbook) oldName oldName = Return workbook' ∧
     Workbook.SheetNames workbook' = Workbook.SheetNames workbook ∧
     Workbook.Sheets workbook' = delete oldName (Workbook.Sheets workbook) ∧
     ¬ consistent workbook') ∧
  (∀ newName, newName ∈ Workbook.SheetNames workbook → newName ≠ oldName →
   ∃ workbook', renameSheet (Some workbook) oldName newName = Return workbook' ∧
     ¬ NoDup (Workbook.SheetNames workbook') ∧
     Workbook.Sheets workbook' !! newName = Workbook.Sheets workbook !! oldName ∧
     Workbook.Sheets workbook' !! oldName = None).
Proof.
  intros (Hd & Hdom & Hws) Hin. unfold renameSheet.
  destruct (indexOf (Workbook.SheetNames workbook) oldName) as [i|] eqn:Hi;
    [|by apply indexOf_None in Hi].
  destruct (proj1 (Hdom oldName) Hin) as [v Hv].
  assert (get_sheet (Workbook.Sheets workbook) oldName = v) as Hget
    by (unfold get_sheet; by rewrite Hv).
  rewrite Hget.
  split.
  - eexists. split; [done|]. cbn [Workbook.SheetNames Workbook.Sheets].
    rewrite (indexOf_insert _ _ _ _ Hd Hi).
    assert (renamed oldName oldName (Workbook.SheetNames workbook)
            = Workbook.SheetNames workbook) as ->.
    { unfold renamed.
      rewrite <- (list_fmap_id (Workbook.SheetNames workbook)) at 2.
      apply list_fmap_ext. intros _ n _. by case_bool_decide. }
    rewrite set_sheet_insert by (right; by eexists).
    rewrite delete_insert_eq.
    split; [done|]. split; [done|].
    intros (_ & Hdom' & _). cbn [Workbook.SheetNames Workbook.Sheets] in Hdom'.
    apply Hdom' in Hin. rewrite lookup_delete_eq in Hin. by destruct Hin.
  - intros newName Hnew Hne. eexists. split; [done|].
    cbn [Workbook.SheetNames Workbook.Sheets].
    rewrite (indexOf_insert _ _ _ _ Hd Hi).
    rewrite set_sheet_insert by (right; by apply Hdom).
    split; [|split].
    + unfold renamed. intros Hnd.
      apply list_elem_of_lookup in Hin as [a Ha].
      apply list_elem_of_lookup in Hnew as [b Hb].
      assert (a = b) as ->; [|by simplify_eq].
      apply (NoDup_lookup _ a b newName Hnd).
      * rewrite list_lookup_fmap, Ha. cbn. by rewrite bool_decide_eq_true_2.
      * rewrite list_lookup_fmap, Hb. cbn. by rewrite bool_decide_eq_false_2.
    + rewrite lookup_delete_ne by done. by rewrite lookup_insert_eq.
    + apply lookup_delete_eq.
Qed.

Lemma renameSheet_loses_sheet_witness :
  (∃ workbook', renameSheet (Some report_workbook) "ROI" "ROI" = Return workbook' ∧
     Workbook.SheetNames workbook' = ["Dashboard"; "ROI"; "Inventory"] ∧
     Workbook.Sheets workbook' !! "ROI" = None) ∧
  (∃ workbook', renameSheet (Some report_workbook) "ROI" "Dashboard" = Return workbook' ∧
     Workbook.Sheets workbook' !! "Dashboard" = Some (Some 2)).
Proof.
  destruct (renameSheet_loses_sheet report_workbook "ROI"
              report_workbook_consistent) as (Hself & Hother).
  { cbn. rewrite !elem_of_cons. tauto. }
  split.
  - destruct Hself as (workbook' & Hr & Hnames & Hsheets & _).
    exists workbook'. split; [exact Hr|]. split; [exact Hnames|].
    rewrite Hsheets. apply lookup_delete_eq.
  - destruct (Hother "Dashboard") as (workbook' & Hr & _ & Hsheet & _).
    + cbn. rewrite !elem_of_cons. tauto.
    + done.
    + exists workbook'. split; [exact Hr|]. by rewrite Hsheet.
Defined.

(** ** Colours *)

Lemma toUpperCase_hex_digit (c : Ascii.ascii) :
  hex_digit_i c = true → hex_digit (toUpperCase_char c) = true.
Proof. destruct c as [[] [] [] [] [] [] [] []]; by vm_compute. Qed.

Lemma hex_digit_upper (c : Ascii.ascii) :
  hex_digit c = true → hex_digit_i c = true ∧ toUpperCase_char c = c.
Proof. destruct c as [[] [] [] [] [] [] [] []]; by vm_compute. Qed.

Lemma toLowerCase_not_upper (c : Ascii.ascii) :
  char_between 65 90 (toLowerCase_char c) = false.
Proof. destruct c as [[] [] [] [] [] [] [] []]; by vm_compute. Qed.

Lemma length_map_chars (f : Ascii.ascii → Ascii.ascii) (s : string) :
  String.length (map_chars f s) = String.length s.
Proof. induction s as [|c s IH]; cbn; [done|]. by rewrite IH. Qed.

Lemma hex6_toUpperCase (s : string) :
  hex6_i s = true → hex6 (toUpperCase s) = true.
Proof.
  unfold hex6_i, hex6, toUpperCase. intros H.
  apply andb_true_iff in H as [Hl Hc]. apply andb_true_iff.
  rewrite length_map_chars. split; [done|].
  clear Hl. induction s as [|c s IH]; [done|].
  cbn in *. apply andb_true_iff in Hc as [Hc Hs].
  by rewrite toUpperCase_hex_digit, IH.
Qed.

Lemma hex6_stable (h : string) :
  hex6 h = true → hex6_i h = true ∧ toUpperCase h = h.
Proof.
  unfold hex6_i, hex6, toUpperCase. intros H.
  apply andb_true_iff in H as [Hl Hc]. rewrite Hl. cbn [andb]. clear Hl.
  induction h as [|c h IH]; [done|].
  cbn in *. apply andb_true_iff in Hc as [Hc Hs].
  destruct (hex_digit_upper c Hc) as [-> ->].
  destruct (IH Hs) as [-> ->]. done.
Qed.

Lemma get_prop_elem {V} (k : string) (obj : list (string * V)) (v : V) :
  get_prop k obj = Some v → v ∈ obj.*2.
Proof.
  unfold get_prop. induction obj as [|[k0 v0] obj IH]; cbn; [done|].
  case_bool_decide as Hk; cbn.
  - intros [= ->]. apply elem_of_cons. by left.
  - intros Hv. apply elem_of_cons. right. by apply IH.
Qed.

Lemma colorMap_hex (k code : string) :
  get_prop k colorMap = Some code → hex6 code = true.
Proof.
  intros H. apply get_prop_elem in H.
  assert (Forall (λ code, hex6 code = true) colorMap.*2) as Hall
    by (apply (bool_decide_unpack _); vm_compute; exact I).
  by apply (proj1 (Forall_forall _ _) Hall).
Qed.

Lemma toLowerCase_all (s : string) :
  all_chars (λ c, negb (char_between 65 90 c)) (toLowerCase s) = true.
Proof.
  unfold toLowerCase. induction s as [|c s IH]; [done|].
  cbn. by rewrite toLowerCase_not_upper, IH.
Qed.

Lemma inherited_lower (s : string) :
  toLowerCase s ∈ Object_prototype →
  toLowerCase s = "constructor" ∨ toLowerCase s = "__proto__".
Proof.
  intros H. pose proof (toLowerCase_all s) as Hl.
  unfold Object_prototype in H.
  repeat (apply elem_of_cons in H as [H|H];
          [first [by left | by right
                 | rewrite H in Hl; vm_compute in Hl; discriminate Hl]|]).
  by apply elem_of_nil in H.
Qed.

(** X28 (_normalizeColor, lines 201-229): a colour given as a string that
    is not empty is normalized to six hexadecimal digits in upper case, and
    the result is a fixed point of the function - unless the string in
    lower case is [constructor] or [__proto__], for which the lookup in the
    table of names finds what every object inherits and the result is no
    string at all. *)
Theorem normalizeColor_is_hex (s : string) :
  s ≠ "" →
  (toLowerCase s ≠ "constructor" → toLowerCase s ≠ "__proto__" →
   ∃ h, _normalizeColor (Str s) = Return (rgb h) ∧
        hex6 h = true ∧
        _normalizeColor (Str h) = Return (rgb h)) ∧
  (toLowerCase s = "constructor" ∨ toLowerCase s = "__proto__" →
   _normalizeColor (Str s) = Return (inherited (toLowerCase s))).
Proof.
  intros Hs.
  assert (∀ h, hex6 h = true → _normalizeColor (Str h) = Return (rgb h))
    as Hfix.
  { intros h Hh. destruct (hex6_stable h Hh) as [Hi Hu].
    unfold _normalizeColor. rewrite Hi, Hu.
    rewrite bool_decide_eq_false_2; [done|].
    intros ->. by vm_compute in Hh. }
  unfold _normalizeColor at 1 3. rewrite (bool_decide_eq_false_2 _ Hs).
  split.
  - intros Hc Hp.
    destruct (hex6_i s) eqn:H6.
    { eexists. split; [done|]. pose proof (hex6_toUpperCase s H6). auto. }
    destruct (hash_hex6_i s) eqn:Hh.
    { destruct s as [|c digits]; [done|]. cbn in Hh.
      apply andb_true_iff in Hh as [_ Hh]. cbn [substring1].
      eexists. split; [done|]. pose proof (hex6_toUpperCase digits Hh). auto. }
    destruct (get_prop (toLowerCase s) colorMap) as [code|] eqn:Hg.
    { eexists. split; [done|]. pose proof (colorMap_hex _ _ Hg). auto. }
    rewrite bool_decide_eq_false_2.
    + eexists. split; [done|]. split; [done|]. by apply Hfix.
    + intros Hin. by destruct (inherited_lower s Hin).
  - intros Hl.
    assert (String.length s = String.length (toLowerCase s)) as Hlen
      by (unfold toLowerCase; by rewrite length_map_chars).
    assert (hex6_i s = false) as ->.
    { unfold hex6_i. rewrite bool_decide_eq_false_2; [done|].
      rewrite Hlen. by destruct Hl as [-> | ->]. }
    assert (hash_hex6_i s = false) as ->.
    { destruct s as [|c digits]; [done|]. cbn [hash_hex6_i].
      unfold hex6_i. rewrite (bool_decide_eq_false_2 (_ = 6)).
      - by rewrite andb_false_r.
      - intros H6.
        assert (String.length (String.String c digits) = 7) as H7
          by (cbn [String.length]; by rewrite H6).
        rewrite Hlen in H7.
        destruct Hl as [Hl|Hl]; rewrite Hl in H7; discriminate H7. }
    destruct Hl as [-> | ->]; by vm_compute.
Qed.

Lemma normalizeColor_is_hex_witness :
  _normalizeColor (Str "#a7d6d6") = Return (rgb "A7D6D6") ∧
  _normalizeColor (Str "Orange") = Return (rgb "FFA500") ∧
  _normalizeColor (Str "Constructor") = Return (inherited "constructor").
Proof.
  split; [|split].
  - destruct (normalizeColor_is_hex "#a7d6d6") as [H _]; [done|].
    destruct H as (h & Hr & _); [done|done|].
    rewrite Hr. by vm_compute in Hr.
  - destruct (normalizeColor_is_hex "Orange") as [H _]; [done|].
    destruct H as (h & Hr & _); [done|done|].
    rewrite Hr. by vm_compute in Hr.
  - destruct (normalizeColor_is_hex "Constructor") as [_ H]; [done|].
    apply H. by left.
Defined.

(** * Properties of the encryption service *)

Lemma split_colon_free (s : string) :
  colon_free s = true → split_colon s = [s].
Proof.
  unfold colon_free. induction s as [|c s IH]; [done|].
  cbn [all_chars split_colon]. intros H.
  apply andb_true_iff in H as [Hc Hs]. apply negb_true_iff in Hc.
  rewrite Hc. by rewrite (IH Hs).
Qed.

Lemma split_colon_app (a b : string) :
  colon_free a = true →
  split_colon (a +:+ String.String colon b) = a :: split_colon b.
Proof.
  unfold colon_free. induction a as [|c a IH].
  - intros _. change (EmptyString +:+ String.String colon b)
      with (String.String colon b).
    cbn [split_colon]. by rewrite (bool_decide_eq_true_2 (colon = colon)).
  - cbn [all_chars]. intros H.
    apply andb_true_iff in H as [Hc Ha]. apply negb_true_iff in Hc.
    change (String.String c a +:+ String.String colon b)
      with (String.String c (a +:+ String.String colon b)).
    cbn [split_colon]. rewrite Hc. by rewrite (IH Ha).
Qed.

Lemma length_split_colon (s : string) :
  length (split_colon s) = S (count_colons s).
Proof.
  induction s as [|c s IH]; [done|].
  cbn [split_colon count_colons]. case_bool_decide.
  - cbn. by rewrite IH.
  - destruct (split_colon s) as [|part parts]; [done|]. cbn in *. lia.
Qed.

Lemma decrypt_bad_format {key}
    (decipher : key → string → string → string → completion string)
    (masterKey : key) (encryptedText : string) :
  count_colons encryptedText ≠ 2 →
  decrypt decipher (Some masterKey) encryptedText
    = Throw (Error "Invalid encrypted data format").
Proof.
  intros Hn. unfold decrypt.
  pose proof (length_split_colon encryptedText) as Hl.
  destruct (split_colon encryptedText) as [|a [|b [|c [|d parts]]]];
    try done.
  cbn in Hl. lia.
Qed.

(** X29 (decrypt and encrypt, lines 47-86): a text of the form that encrypt
    produces - three parts without a colon, as hexadecimal digits are,
    joined by colons - is taken apart into the same three parts, which go to
    the cipher with the key of the service; a text with another number of
    colons than two is rejected as "Invalid encrypted data format" before
    the cipher sees it. *)
Theorem decrypt_checks_format {key}
    (decipher : key → string → string → string → completion string)
    (masterKey : key) :
  (∀ iv authTag encrypted,
     colon_free iv = true → colon_free authTag = true →
     colon_free encrypted = true →
     decrypt decipher (Some masterKey) (encrypted_format iv authTag encrypted)
       = decipher masterKey iv authTag encrypted) ∧
  (∀ encryptedText,
     count_colons encryptedText ≠ 2 →
     decrypt decipher (Some masterKey) encryptedText
       = Throw (Error "Invalid encrypted data format")).
Proof.
  split.
  - intros iv authTag encrypted Hi Ht He. unfold decrypt, encrypted_format.
    rewrite (split_colon_app _ _ Hi), (split_colon_app _ _ Ht).
    by rewrite (split_colon_free _ He).
  - apply decrypt_bad_format.
Qed.

Lemma decrypt_checks_format_witness :
  let decipher (masterKey : nat) (iv authTag encrypted : string) :=
    Return encrypted in
  decrypt decipher (Some 1) "a1:b2:c3" = Return "c3" ∧
  decrypt decipher (Some 1) "a1b2c3"
    = Throw (Error "Invalid encrypted data format").
Proof.
  intros decipher.
  destruct (decrypt_checks_format decipher 1) as [Hok Hbad]. split.
  - apply (Hok "a1" "b2" "c3"); reflexivity.
  - apply Hbad. vm_compute. lia.
Defined.

(** X30 (verifyPassword, lines 106-119): the key of the service is put back
    only when the check succeeds. After a check that fails although the key
    could be derived, the service holds the key of the rejected password -
    also when it had no key before, so that it then counts as initialized -
    and test data that are not of the encrypted form make every password
    fail this way. *)
Theorem verifyPassword_keeps_rejected_key {key}
    (deriveKey : string → completion key)
    (decipher : key → string → string → string → completion string)
    (masterKey : option key) (password encryptedTestData : string) :
  let r := verifyPassword deriveKey decipher masterKey password encryptedTestData in
  (r.1 = true → r.2 = masterKey) ∧
  (throws (deriveKey password) → r = (false, masterKey)) ∧
  (∀ tempKey, deriveKey password = Return tempKey →
     (r.1 = true ↔ ¬ throws (decrypt decipher (Some tempKey) encryptedTestData)) ∧
     (r.1 = false → r.2 = Some tempKey ∧ isInitialized r.2 = true) ∧
     (count_colons encryptedTestData ≠ 2 → r = (false, Some tempKey))).
Proof.
  intros r. subst r. unfold verifyPassword.
  destruct (deriveKey password) as [tempKey|e]; cbn [throws].
  - split; [|split; [done|]].
    + by destruct (decrypt _ _ _).
    + intros ? [= <-].
      split; [|split].
      * destruct (decrypt _ _ _); cbn; split; try done; tauto.
      * destruct (decrypt _ _ _); cbn; [done|]. intros _. by split.
      * intros Hn.
        by rewrite (decrypt_bad_format decipher tempKey encryptedTestData Hn).
  - split; [done|]. split; [done|]. done.
Qed.

Lemma verifyPassword_keeps_rejected_key_witness :
  let deriveKey (password : string) : completion string := Return password in
  let decipher (masterKey iv authTag encrypted : string) :=
    if bool_decide (masterKey = "right") then Return encrypted
    else Throw (Error "Unsupported state or unable to authenticate data") in
  let r := verifyPassword deriveKey decipher (Some "right") "wrong" "a1:b2:c3" in
  r.1 = false ∧ r.2 = Some "wrong".
Proof.
  intros deriveKey decipher r.
  destruct (verifyPassword_keeps_rejected_key deriveKey decipher (Some "right")
              "wrong" "a1:b2:c3") as (_ & _ & H).
  destruct (H "wrong" eq_refl) as (_ & Hf & _). fold r in Hf.
  split; [done|]. by apply Hf.
Defined.
